(** * Configuration resolution of the ComfyUI variant builder

    A shallow embedding of
    - [comfyui/lib/config_loader_simple.py]   (class [ConfigLoader]),
    - [comfyui/lib/config_loader_hiyapyco.py] (class [ConfigLoader]),
    - [comfyui/builder.py]                    ([list_configs], [validate_config],
                                               [build_config], [install_nodes],
                                               [create_config]),
    - [comfyui/lib/variant_builder.py]        ([build] and its steps),
    - [comfyui/lib/node_installer.py]         (the directory of a node),
    - [comfyui/lib/model_manager.py]          (the route of a download),
    together with the properties of the resolver stated in the
    specification, and further properties of the code. *)

From Stdlib Require Import String Ascii ZArith List Lia Permutation.
From stdpp Require Import base option list sorting gmap strings.

Local Open Scope string_scope.
Local Open Scope list_scope.

(** ** Parsed YAML documents

    [yaml.safe_load] yields scalars, lists and dicts.  A Python dict keeps
    its insertion order, which [items()] and [yaml.dump(sort_keys=False)]
    expose, so a dict is an association list; a well-formed one has no
    repeated key ([wf_dict] below). *)

#[local] Set Warnings "-register-all".
Inductive value : Type :=
  | VNull
  | VBool (b : bool)
  | VInt (z : Z)
  | VStr (s : string)
  | VList (items : list value)
  | VDict (items : list (string * value)).

Abbreviation dict := (list (string * value)).

Module Dict.

Section Operations.

Context {A : Type}.

Implicit Types (d : list (string * A)) (v : A).

(** [key in d] / [d[key]] / [d.get(key)] *)
Fixpoint get (key : string) d : option A :=
  match d with
  | [] => None
  | (k, v) :: rest => if String.eqb key k then Some v else get key rest
  end.

Definition mem (key : string) d : bool :=
  match get key d with Some _ => true | None => false end.

(** [d[key] = v]: an existing key keeps its position, a new key goes last. *)
Fixpoint set (key : string) v d : list (string * A) :=
  match d with
  | [] => [(key, v)]
  | (k, w) :: rest =>
      if String.eqb key k then (k, v) :: rest else (k, w) :: set key v rest
  end.

(** [del d[key]] (the caller has checked [key in d]) *)
Fixpoint del (key : string) d : list (string * A) :=
  match d with
  | [] => []
  | (k, w) :: rest =>
      if String.eqb key k then del key rest else (k, w) :: del key rest
  end.

Definition keys d : list string := map fst d.

End Operations.

End Dict.

(** ** [config_loader_simple.ConfigLoader]: the merge *)

(** [_merge_lists]: [base + override] *)
Definition merge_lists (base override : list value) : list value :=
  base ++ override.

(** One iteration of the [for key, value in override.items()] loop of
    [_merge_dicts].  The recursive call [self._merge_dicts(result[key], value)]
    is [rec value b]: it is taken on the override value itself, which is what
    the recursion descends on. *)
Definition merge_item (rec : value -> dict -> dict)
    (result : dict) (key : string) (value : value) : dict :=
  match Dict.get key result with
  | Some cur =>
      match cur, value with
      | VDict b, VDict _ => Dict.set key (VDict (rec value b)) result
      | VList b, VList o => Dict.set key (VList (merge_lists b o)) result
      | _, _ => Dict.set key value result
      end
  | None => Dict.set key value result
  end.

Fixpoint merge_into (override : value) (base : dict) {struct override} : dict :=
  match override with
  | VDict items =>
      fold_left
        (fun result kv => merge_item merge_into result kv.1 kv.2)
        items base
  | _ => base
  end.

(** [_merge_dicts(base, override)]; [result = base.copy()] is the accumulator
    of the fold. *)
Definition merge_dicts (base override : dict) : dict :=
  merge_into (VDict override) base.

(** The loop body as the source writes it, with [merge_dicts] itself in the
    place of the recursive call ([merge_dicts_cons] below shows it is the
    body of the definition above). *)
Definition merge_step (result : dict) (key : string) (value : value) : dict :=
  if Dict.mem key result then
    match Dict.get key result, value with
    | Some (VDict b), VDict o => Dict.set key (VDict (merge_dicts b o)) result
    | Some (VList b), VList o => Dict.set key (VList (merge_lists b o)) result
    | _, _ => Dict.set key value result
    end
  else Dict.set key value result.

(** What one key of the merge holds when both sides bind it. *)
Definition merge_values (b o : value) : value :=
  match b, o with
  | VDict bd, VDict od => VDict (merge_dicts bd od)
  | VList bl, VList ol => VList (bl ++ ol)
  | _, _ => o
  end.

(** The three shapes the merge distinguishes with [isinstance]. *)
Inductive shape := Scalar | Sequence | Mapping.

Definition shape_of (v : value) : shape :=
  match v with
  | VList _ => Sequence
  | VDict _ => Mapping
  | _ => Scalar
  end.

(** Python dicts have pairwise distinct keys, at every nesting level. *)
Fixpoint wf_value (v : value) : bool :=
  match v with
  | VList items => forallb wf_value items
  | VDict items =>
      bool_decide (NoDup (map fst items))
      && forallb (fun kv => wf_value kv.2) items
  | _ => true
  end.

Definition wf_dict (d : dict) : Prop := wf_value (VDict d) = true.

(** Descending through nested mappings along a path of keys. *)
Fixpoint at_path (path : list string) (d : dict) : option dict :=
  match path with
  | [] => Some d
  | k :: path' =>
      match Dict.get k d with
      | Some (VDict d') => at_path path' d'
      | _ => None
      end
  end.

(** ** Exceptions and results *)

Inductive exn : Type :=
  | FileNotFoundError (config_name : string)
      (** [raise FileNotFoundError(f"Config not found: {config_name}")] *)
  | AttributeError
      (** a missing method: [base_name.startswith] on an [extends] value
          that is not a [str], [items()] on a value that is not a dict *)
  | TypeError
      (** iterating, or testing membership in, a non-container *)
  | RecursionError
      (** the interpreter's recursion limit was reached *)
  | LibraryError (code : nat)
      (** an exception raised inside [hiyapyco.load] *)
  | SystemError
      (** a reference to no object; the modelled code never raises it *).

Inductive result (A : Type) : Type :=
  | Ok (a : A)
  | Raise (e : exn).
Arguments Ok {A} a.
Arguments Raise {A} e.

Definition bind {A B} (r : result A) (k : A -> result B) : result B :=
  match r with
  | Ok a => k a
  | Raise e => Raise e
  end.

Notation "x <- c1 ;; c2" := (bind c1 (fun x => c2))
  (at level 100, c1 at next level, right associativity).

(** ** Names

    [base_name.startswith('config-')] / [base_name[7:]] and
    [base_name.endswith('.yaml')] / [base_name[:-5]]. *)

Definition startswith (s p : string) : bool := String.prefix p s.

Definition endswith (s p : string) : bool :=
  (String.length p <=? String.length s)%nat
  && String.eqb (String.substring (String.length s - String.length p)
                                  (String.length p) s) p.

Definition normalize_name (base_name : string) : string :=
  let base_name :=
    if startswith base_name "config-"
    then String.substring 7 (String.length base_name - 7) base_name
    else base_name in
  let base_name :=
    if endswith base_name ".yaml"
    then String.substring 0 (String.length base_name - 5) base_name
    else base_name in
  base_name.

(** ** The configuration directory and the cache

    [files !! name = Some doc]: [config_dir / f'config-{name}.yaml'] exists
    and [yaml.safe_load] of it is the mapping [doc].  The cache is the dict
    [self._cache], used as a map from names to resolved documents. *)

Abbreviation files := (gmap string dict).
Abbreviation cache := (gmap string dict).

(** ** [config_loader_simple.ConfigLoader.load_config]

    [depth] bounds the nesting of recursive calls, as the interpreter's
    recursion limit does; running out of it raises [RecursionError].  Here
    documents are values and [merge_dicts] is total, so [depth] is charged
    to the calls of [load_config] only; the frames of [_merge_dicts], which
    count against the same limit, are charged in [Store.load_config]
    below. *)
Fixpoint load_config (depth : nat) (fs : files) (c : cache) (config_name : string)
    : result dict * cache :=
  match depth with
  | O => (Raise RecursionError, c)
  | S depth =>
      match c !! config_name with
      | Some cached => (Ok cached, c)
      | None =>
          match fs !! config_name with
          | None => (Raise (FileNotFoundError config_name), c)
          | Some config =>
              match Dict.get "extends" config with
              | Some (VStr base_name) =>
                  let base_name := normalize_name base_name in
                  match load_config depth fs c base_name with
                  | (Ok base_config, c) =>
                      let config := Dict.del "extends" config in
                      let config := merge_dicts base_config config in
                      (Ok config, <[config_name := config]> c)
                  | (Raise e, c) => (Raise e, c)
                  end
              | Some _ => (Raise AttributeError, c)
              | None => (Ok config, <[config_name := config]> c)
              end
          end
      end
  end.

(** ** [config_loader_hiyapyco.ConfigLoader.load_config]

    [hiyapyco.load] belongs to a third-party package; it is a parameter of
    the model, applied to the parsed documents of the files it is given. *)
Section Hiyapyco.

Variable hiyapyco_load : list dict -> result dict.

Definition hiyapyco_load_config (fs : files) (c : cache) (config_name : string)
    : result dict * cache :=
  match c !! config_name with
  | Some cached => (Ok cached, c)
  | None =>
      match fs !! config_name with
      | None => (Raise (FileNotFoundError config_name), c)
      | Some temp_config =>
          let merged :=
            config_files <-
              match Dict.get "extends" temp_config with
              | Some (VStr base_name) =>
                  let base_name := normalize_name base_name in
                  match fs !! base_name with
                  | Some base_doc => Ok [base_doc]
                  | None => Ok []
                  end
              | Some _ => Raise AttributeError
              | None => Ok []
              end ;;
            let config_files := config_files ++ [temp_config] in
            merged <-
              (if (1 <? length config_files)%nat
               then hiyapyco_load config_files
               else Ok temp_config) ;;
            Ok (if Dict.mem "extends" merged
                then Dict.del "extends" merged
                else merged) in
          match merged with
          | Ok merged => (Ok merged, <[config_name := merged]> c)
          | Raise e => (Raise e, c)
          end
      end
  end.

End Hiyapyco.

(** ** The [extends] relation between configuration names *)

(** The name [load_config] recurses on for a document, if any. *)
Definition extends_target (config : dict) : option string :=
  match Dict.get "extends" config with
  | Some (VStr base_name) => Some (normalize_name base_name)
  | _ => None
  end.

Definition parent (fs : files) (config_name : string) : option string :=
  match fs !! config_name with
  | Some config => extends_target config
  | None => None
  end.

Definition extends_step (fs : files) (a b : string) : Prop := parent fs a = Some b.

(** [name]'s ancestor chain: the names reachable from it through [extends]. *)
Definition in_chain (fs : files) (name m : string) : Prop := rtc (extends_step fs) name m.

Definition acyclic_chain (fs : files) (name : string) : Prop :=
  forall m, in_chain fs name m -> ~ tc (extends_step fs) m m.

Definition sources_exist (fs : files) (name : string) : Prop :=
  forall m, in_chain fs name m -> is_Some (fs !! m).

(** Every [extends] field in the chain holds a name, that is a [str]. *)
Definition extends_are_names (fs : files) (name : string) : Prop :=
  forall m config v,
    in_chain fs name m -> fs !! m = Some config ->
    Dict.get "extends" config = Some v -> exists raw, v = VStr raw.

(** A chain on which every name has an [extends] target. *)
Definition endless_chain (fs : files) (name : string) : Prop :=
  forall m, in_chain fs name m -> is_Some (parent fs m).

(** What [load_config] computes from an empty cache with the caching left
    out; the reference point for what a cache may hold. *)
Fixpoint resolve (depth : nat) (fs : files) (config_name : string) : result dict :=
  match depth with
  | O => Raise RecursionError
  | S depth =>
      match fs !! config_name with
      | None => Raise (FileNotFoundError config_name)
      | Some config =>
          match Dict.get "extends" config with
          | Some (VStr base_name) =>
              base_config <- resolve depth fs (normalize_name base_name) ;;
              Ok (merge_dicts base_config (Dict.del "extends" config))
          | Some _ => Raise AttributeError
          | None => Ok config
          end
      end
  end.

(** ** The simple loader on the object store

    Python dicts and lists are objects, held by reference and updated in
    place: the cache holds references, [load_config] returns the cached
    reference itself, and the merge is handed the cached ancestor.  This
    second embedding of [config_loader_simple] keeps the objects in a
    store, so that sharing and in-place updates are visible. *)

(** The value-level functions, under names that stay visible next to
    their namesakes on the store. *)
Abbreviation value_shape_of := shape_of.
Abbreviation value_merge_dicts := merge_dicts.

Module Store.

(** A Python value: an immutable scalar, or a reference to a container. *)
Inductive ref : Type :=
  | RNull
  | RBool (b : bool)
  | RInt (z : Z)
  | RStr (s : string)
  | RObj (l : nat).

Inductive obj : Type :=
  | OList (items : list ref)
  | ODict (items : list (string * ref)).

(** The objects allocated so far, and [self._cache]. *)
Record store : Type := mkStore {
  objects : list obj;
  cached : gmap string nat
}.

(** Computations that read and update the store and may raise. *)
Definition M (A : Type) : Type := store -> result A * store.

Definition ret {A} (a : A) : M A := fun s => (Ok a, s).

Definition raise {A} (e : exn) : M A := fun s => (Raise e, s).

Definition bind {A B} (m : M A) (k : A -> M B) : M B :=
  fun s =>
    match m s with
    | (Ok a, s') => k a s'
    | (Raise e, s') => (Raise e, s')
    end.

Notation "'let*' x ':=' m 'in' k" := (bind m (fun x => k))
  (at level 10, x name, m at level 100, k at level 200).

(** A new object, at a fresh address. *)
Definition alloc (o : obj) : M nat :=
  fun s => (Ok (length (objects s)),
            mkStore (objects s ++ [o]) (cached s)).

Definition read (l : nat) : M obj :=
  fun s =>
    match objects s !! l with
    | Some o => (Ok o, s)
    | None => (Raise SystemError, s)
    end.

(** An update in place. *)
Definition write (l : nat) (o : obj) : M unit :=
  fun s => (Ok tt, mkStore (<[l := o]> (objects s)) (cached s)).

Definition cache_get (name : string) : M (option nat) :=
  fun s => (Ok (cached s !! name), s).

Definition cache_set (name : string) (l : nat) : M unit :=
  fun s => (Ok tt, mkStore (objects s) (<[name := l]> (cached s))).

Definition read_dict (l : nat) : M (list (string * ref)) :=
  let* o := read l in
  match o with
  | ODict items => ret items
  | OList _ => raise AttributeError
  end.

Definition read_list (l : nat) : M (list ref) :=
  let* o := read l in
  match o with
  | OList items => ret items
  | ODict _ => raise TypeError
  end.

(** [isinstance(r, dict)] / [isinstance(r, list)], as a shape *)
Definition shape_of (r : ref) : M shape :=
  match r with
  | RObj l =>
      let* o := read l in
      ret (match o with OList _ => Sequence | ODict _ => Mapping end)
  | _ => ret Scalar
  end.

(** [d[key] = v] *)
Definition setitem (d : nat) (key : string) (v : ref) : M unit :=
  let* items := read_dict d in
  write d (ODict (Dict.set key v items)).

(** [del d[key]], for a key the caller has found in [d] *)
Definition delitem (d : nat) (key : string) : M unit :=
  let* items := read_dict d in
  write d (ODict (Dict.del key items)).

(** [_merge_lists]: [base + override] is a new list object. *)
Definition merge_lists (base override : nat) : M nat :=
  let* b := read_list base in
  let* o := read_list override in
  alloc (OList (b ++ o)).

(** The body of the loop [for key, value in override.items()] of
    [_merge_dicts], on the object [result]; [rec] is the recursive call. *)
Definition merge_entry (rec : nat -> nat -> M nat) (result : nat)
    (key : string) (value : ref) : M unit :=
  let* current := read_dict result in
  match Dict.get key current with
  | Some cur =>
      let* cur_shape := shape_of cur in
      let* value_shape := shape_of value in
      match cur_shape, value_shape, cur, value with
      | Mapping, Mapping, RObj lc, RObj lv =>
          let* merged := rec lc lv in
          setitem result key (RObj merged)
      | Sequence, Sequence, RObj lc, RObj lv =>
          let* merged := merge_lists lc lv in
          setitem result key (RObj merged)
      | _, _, _, _ => setitem result key value
      end
  | None => setitem result key value
  end.

Fixpoint merge_items (rec : nat -> nat -> M nat) (result : nat)
    (items : list (string * ref)) : M unit :=
  match items with
  | [] => ret tt
  | (key, value) :: rest =>
      let* _ := merge_entry rec result key value in
      merge_items rec result rest
  end.

(** [_merge_dicts]: [result = base.copy()] is a new dict object with the
    entries of [base]; the loop updates it in place. *)
Fixpoint merge_dicts (depth : nat) (base override : nat) : M nat :=
  match depth with
  | O => raise RecursionError
  | S depth =>
      let* base_items := read_dict base in
      let* result := alloc (ODict base_items) in
      let* override_items := read_dict override in
      let* _ := merge_items (merge_dicts depth) result override_items in
      ret result
  end.

(** [yaml.safe_load]: the parsed document, built of new objects. *)
Fixpoint load_value (v : value) : M ref :=
  match v with
  | VNull => ret RNull
  | VBool b => ret (RBool b)
  | VInt z => ret (RInt z)
  | VStr s => ret (RStr s)
  | VList items =>
      let* rs :=
        (fix load_list (items : list value) : M (list ref) :=
           match items with
           | [] => ret []
           | x :: rest =>
               let* r := load_value x in
               let* rs := load_list rest in
               ret (r :: rs)
           end) items in
      let* l := alloc (OList rs) in
      ret (RObj l)
  | VDict items =>
      let* rs :=
        (fix load_entries (items : dict) : M (list (string * ref)) :=
           match items with
           | [] => ret []
           | kv :: rest =>
               let* r := load_value kv.2 in
               let* rs := load_entries rest in
               ret ((kv.1, r) :: rs)
           end) items in
      let* l := alloc (ODict rs) in
      ret (RObj l)
  end.

Fixpoint load_list (items : list value) : M (list ref) :=
  match items with
  | [] => ret []
  | x :: rest =>
      let* r := load_value x in
      let* rs := load_list rest in
      ret (r :: rs)
  end.

Fixpoint load_entries (items : dict) : M (list (string * ref)) :=
  match items with
  | [] => ret []
  | kv :: rest =>
      let* r := load_value kv.2 in
      let* rs := load_entries rest in
      ret ((kv.1, r) :: rs)
  end.

(** [yaml.safe_load] of a file holding a mapping. *)
Definition safe_load (config : dict) : M nat :=
  let* rs := load_entries config in
  alloc (ODict rs).

(** The block [if 'extends' in config: ...] of [load_config]: [load_base]
    is the recursive call, [merge] is [self._merge_dicts].  The ancestor
    handed to the merge is the object the recursive call returned, which
    is the cached one. *)
Definition inherit (load_base : string -> M nat) (merge : nat -> nat -> M nat)
    (config : nat) : M nat :=
  let* items := read_dict config in
  match Dict.get "extends" items with
  | Some (RStr base_name) =>
      let base_name := normalize_name base_name in
      let* base_config := load_base base_name in
      let* _ := delitem config "extends" in
      merge base_config config
  | Some _ => raise AttributeError
  | None => ret config
  end.

(** [ConfigLoader.load_config] *)
Fixpoint load_config (depth : nat) (fs : files) (config_name : string) : M nat :=
  match depth with
  | O => raise RecursionError
  | S depth =>
      let* hit := cache_get config_name in
      match hit with
      | Some cached_config => ret cached_config
      | None =>
          match fs !! config_name with
          | None => raise (FileNotFoundError config_name)
          | Some document =>
              let* config := safe_load document in
              let* config :=
                inherit (load_config depth fs) (merge_dicts depth) config in
              let* _ := cache_set config_name config in
              ret config
          end
      end
  end.

(** The states a loader can reach from [s0] by further calls over [fs];
    a lifetime starts with no object and an empty cache. *)
Inductive later_calls (fs : files) (s0 : store) : store -> Prop :=
  | later_refl : later_calls fs s0 s0
  | later_call depth s config_name r s' :
      later_calls fs s0 s ->
      load_config depth fs config_name s = (r, s') ->
      later_calls fs s0 s'.

Definition lifetime (fs : files) : store -> Prop :=
  later_calls fs (mkStore [] ∅).

(** [r] denotes the value [v] in the objects [h], passing only through
    addresses in [P]. *)
Inductive repr_on (P : nat -> Prop) (h : list obj) : value -> ref -> Prop :=
  | repr_null : repr_on P h VNull RNull
  | repr_bool b : repr_on P h (VBool b) (RBool b)
  | repr_int z : repr_on P h (VInt z) (RInt z)
  | repr_str s : repr_on P h (VStr s) (RStr s)
  | repr_list l rs items :
      P l -> h !! l = Some (OList rs) ->
      Forall2 (repr_on P h) items rs ->
      repr_on P h (VList items) (RObj l)
  | repr_dict l rs items :
      P l -> h !! l = Some (ODict rs) ->
      Forall2 (fun kv kr => kv.1 = kr.1 /\ repr_on P h kv.2 kr.2) items rs ->
      repr_on P h (VDict items) (RObj l).

Definition repr (h : list obj) : value -> ref -> Prop := repr_on (fun _ => True) h.

(** The document a reference to a dict denotes. *)
Definition denotes (s : store) (l : nat) (doc : dict) : Prop :=
  repr (objects s) (VDict doc) (RObj l).

(** Every object of [h] is in [h'], as it is. *)
Definition preserved (h h' : list obj) : Prop :=
  forall l o, h !! l = Some o -> h' !! l = Some o.

(** *** Vocabulary of the statements about the store *)

(** The objects at the addresses in [P] stay as they are, and so does the
    cache. *)
Definition keeps (P : nat -> Prop) (s s' : store) : Prop :=
  (forall l o, P l -> objects s !! l = Some o -> objects s' !! l = Some o)
  /\ cached s' = cached s.

Definition stable (R : store -> store -> Prop) {A} (m : M A) : Prop :=
  forall s r s', m s = (r, s') -> R s s'.

Definition entries_repr (P : nat -> Prop) (h : list obj)
    (d : dict) (rs : list (string * ref)) : Prop :=
  Forall2 (fun kv kr => kv.1 = kr.1 /\ repr_on P h kv.2 kr.2) d rs.

(** Addresses at or above [n], and those of [P] below it. *)
Definition grown (P : nat -> Prop) (n : nat) : nat -> Prop :=
  fun l => (P l /\ l < n) \/ n <= l.

(** What a merge function on the store owes: from references that denote
    [b] and [o] through addresses in [P], a reference that denotes their
    merge through those addresses and new ones. *)
Definition merge_spec (rec : nat -> nat -> M nat) : Prop :=
  forall (P : nat -> Prop) s lb lo b o r s',
    repr_on P (objects s) (VDict b) (RObj lb) ->
    repr_on P (objects s) (VDict o) (RObj lo) ->
    rec lb lo s = (Ok r, s') ->
    repr_on (grown P (length (objects s))) (objects s')
      (VDict (value_merge_dicts b o)) (RObj r).

(** The state of the merge loop: [result] holds entries that denote [acc]
    through addresses in [T]. *)
Definition holds (result : nat) (T : nat -> Prop) (s : store) (acc : dict) : Prop :=
  exists racc,
    objects s !! result = Some (ODict racc) /\ entries_repr T (objects s) acc racc.

(** [m] succeeds on [s], only adding objects. *)
Definition load_fresh {A} (m : M A) (s : store)
    (post : A -> list obj -> Prop) : Prop :=
  exists a ext,
    m s = (Ok a, mkStore (objects s ++ ext) (cached s))
    /\ post a (objects s ++ ext).

Definition loads_fresh (v : value) : Prop :=
  forall s, load_fresh (load_value v) s
              (fun r h => repr_on (fun l => length (objects s) <= l) h v r).

(** Every cached reference denotes, through addresses in [P], a document
    that resolving its name yields. *)
Definition cache_denotes (P : nat -> Prop) (fs : files) (s : store) : Prop :=
  forall name l, cached s !! name = Some l ->
    exists doc k,
      resolve k fs name = Ok doc /\ repr_on P (objects s) (VDict doc) (RObj l).

(** What a call leaves: the objects it was given, a larger cache whose
    references denote resolved documents, and the cached reference as
    its result. *)
Definition load_post (P : nat -> Prop) (fs : files) (s : store)
    (name : string) (r : result nat) (s' : store) : Prop :=
  preserved (objects s) (objects s')
  /\ cached s ⊆ cached s'
  /\ cache_denotes (grown P (length (objects s))) fs s'
  /\ (forall l, r = Ok l -> cached s' !! name = Some l).

Definition load_spec (fs : files) (load : string -> M nat) : Prop :=
  forall name (P : nat -> Prop) s r s',
    cache_denotes P fs s -> load name s = (r, s') -> load_post P fs s name r s'.

End Store.

(** ** [builder.ComfyUIBuilder.validate_config] *)

(** The records the validator sends to the logger, one constructor per
    message format. *)
Inductive log_record : Type :=
  | ErrConfigNotFound (config_name : string)
      (** [logger.error(f"Config not found: {config_name}")] *)
  | ErrMissingRequiredField (field : string)
      (** [logger.error(f"Missing required field: {field}")] *)
  | ErrNodeMissingURL (node : value)
      (** [logger.error(f"Node missing URL: {node}")] *)
  | ErrModelMissingFields (model : value)
      (** [logger.error(f"Model missing required fields: {model}")] *)
  | ErrValidating (e : exn)
      (** [logger.error(f"Error validating variant: {e}")] *)
  | InfoValid (config_name : string)
      (** [logger.info(f"Config {config_name} is valid")] *).

Definition is_error (r : log_record) : bool :=
  match r with InfoValid _ => false | _ => true end.

Fixpoint chars (s : string) : list value :=
  match s with
  | EmptyString => []
  | String a s' => VStr (String a EmptyString) :: chars s'
  end.

(** [for x in v] *)
Definition py_iter (v : value) : result (list value) :=
  match v with
  | VList items => Ok items
  | VDict items => Ok (map VStr (Dict.keys items))
  | VStr s => Ok (chars s)
  | _ => Raise TypeError
  end.

Definition is_str (key : string) (v : value) : bool :=
  match v with VStr s => String.eqb key s | _ => false end.

(** [key in v], for a [str] key *)
Definition py_in (key : string) (v : value) : result bool :=
  match v with
  | VDict items => Ok (Dict.mem key items)
  | VList items => Ok (existsb (is_str key) items)
  | VStr s => Ok (match String.index 0 key s with Some _ => true | None => false end)
  | _ => Raise TypeError
  end.

(** [v.items()] *)
Definition py_items (v : value) : result dict :=
  match v with
  | VDict items => Ok items
  | _ => Raise AttributeError
  end.

Definition isinstance_dict (v : value) : bool :=
  match v with VDict _ => true | _ => false end.

(** [for field in required_fields]: the first field the document lacks. *)
Fixpoint check_required (required_fields : list string) (config : dict)
    : option string :=
  match required_fields with
  | [] => None
  | field :: rest =>
      if negb (Dict.mem field config) then Some field
      else check_required rest config
  end.

(** [for node in nodes]: the first node at which the loop returns. *)
Fixpoint check_nodes (nodes : list value) : result (option value) :=
  match nodes with
  | [] => Ok None
  | node :: rest =>
      missing <-
        (if isinstance_dict node
         then has_url <- py_in "url" node ;; Ok (negb has_url)
         else Ok false) ;;
      if (missing : bool) then Ok (Some node) else check_nodes rest
  end.

(** [for model in model_list]: the first model at which the loop returns. *)
Fixpoint check_model_list (model_list : list value) : result (option value) :=
  match model_list with
  | [] => Ok None
  | model :: rest =>
      has_url <- py_in "url" model ;;
      missing <-
        (if negb has_url then Ok true
         else has_name <- py_in "name" model ;; Ok (negb has_name)) ;;
      if (missing : bool) then Ok (Some model) else check_model_list rest
  end.

(** [for model_type, model_list in models.items()] *)
Fixpoint check_models (models : dict) : result (option value) :=
  match models with
  | [] => Ok None
  | (model_type, model_list) :: rest =>
      entries <- py_iter model_list ;;
      found <- check_model_list entries ;;
      match found with
      | Some model => Ok (Some model)
      | None => check_models rest
      end
  end.

Definition get_default (key : string) (config : dict) (default : value) : value :=
  match Dict.get key config with Some v => v | None => default end.

(** The checks between [load_config] and the end of the [try] block. *)
Definition validate_checks (config_name : string) (config : dict)
    : result (bool * list log_record) :=
  match check_required ["name"; "version"] config with
  | Some field => Ok (false, [ErrMissingRequiredField field])
  | None =>
      nodes <- py_iter (get_default "nodes" config (VList [])) ;;
      bad_node <- check_nodes nodes ;;
      match bad_node with
      | Some node => Ok (false, [ErrNodeMissingURL node])
      | None =>
          models <- py_items (get_default "models" config (VDict [])) ;;
          bad_model <- check_models models ;;
          match bad_model with
          | Some model => Ok (false, [ErrModelMissingFields model])
          | None => Ok (true, [InfoValid config_name])
          end
      end
  end.

(** [except Exception as e: logger.error(...); return False] *)
Definition catch_all (r : result (bool * list log_record)) : bool * list log_record :=
  match r with
  | Ok outcome => outcome
  | Raise e => (false, [ErrValidating e])
  end.

Definition validate_document (config_name : string) (config : dict)
    : bool * list log_record :=
  catch_all (validate_checks config_name config).

(** [validate_config], over whichever loader the import at the top of
    [builder.py] selected. *)
Definition validate_config
    (loader : files -> cache -> string -> result dict * cache)
    (fs : files) (c : cache) (config_name : string)
    : bool * list log_record * cache :=
  match fs !! config_name with
  | None => (false, [ErrConfigNotFound config_name], c)
  | Some _ =>
      match loader fs c config_name with
      | (Ok config, c) => (validate_document config_name config, c)
      | (Raise e, c) => (false, [ErrValidating e], c)
      end
  end.

(** ** [builder.ComfyUIBuilder.create_config]

    [save_yaml] followed by a later [yaml.safe_load] is taken to give the
    document back. *)
Definition config_data (name base_image : string) : dict :=
  [ ("name", VStr name);
    ("version", VStr "1.0.0");
    ("base_image", VStr base_image);
    ("description", VStr (String.append "ComfyUI configuration: " name));
    ("extends", VStr "config-base.yaml");
    ("nodes", VList [VStr "!include base"]);
    ("requirements", VList [VStr "!include base"]);
    ("workflows", VList []);
    ("models", VDict [ ("checkpoints", VList []);
                       ("loras", VList []);
                       ("vae", VList []);
                       ("controlnet", VList []);
                       ("upscale_models", VList []) ]);
    ("env_vars", VDict [ ("CONFIG_NAME", VStr name);
                         ("COMFYUI_ARGS", VStr "") ]) ].

Definition create_config (fs : files) (name base_image : string) : bool * files :=
  match fs !! name with
  | Some _ => (false, fs)
  | None => (true, <[name := config_data name base_image]> fs)
  end.

Definition include_marker : value := VStr "!include base".

(** ** [variant_builder.ConfigBuilder._process_requirements] *)

Definition newline : string := String (ascii_of_nat 10) EmptyString.

(** ['\n'.join(items)] *)
Definition join_lines (items : list string) : string := String.concat newline items.

(** The lines of a text: the pieces between newline characters. *)
Fixpoint split_lines_aux (cur : string) (s : string) : list string :=
  match s with
  | EmptyString => [cur]
  | String a s' =>
      if Ascii.eqb a (ascii_of_nat 10)
      then cur :: split_lines_aux EmptyString s'
      else split_lines_aux (String.append cur (String a EmptyString)) s'
  end.

Definition split_lines (s : string) : list string := split_lines_aux EmptyString s.

Fixpoint no_newline (s : string) : bool :=
  match s with
  | EmptyString => true
  | String a s' => negb (Ascii.eqb a (ascii_of_nat 10)) && no_newline s'
  end.

Section ProcessRequirements.

(** [list(set(requirements))]: the set is [list_to_set requirements]; the
    order in which a Python set is iterated depends on the hash seed of
    the process, so it is a parameter, constrained only to enumerate the
    set. *)
Variable iteration_order : gset string -> list string.
Hypothesis iteration_order_enumerates :
  forall s, iteration_order s ≡ₚ elements s.

(** Returns the result flag and what was written to [requirements.txt]
    ([None]: the file was not opened). *)
Definition unique_requirements (requirements : list string) : list string :=
  iteration_order (list_to_set requirements).

Definition process_requirements (requirements : list string)
    : bool * option string :=
  match requirements with
  | [] => (true, None)
  | _ => (true, Some (join_lines (unique_requirements requirements)))
  end.

End ProcessRequirements.

(** ** Resolver lifetimes

    The caches a loader can reach from the cache [c0] by further calls over
    a configuration directory [fs]; a lifetime starts from the empty cache
    of [__init__].  [loader] takes the recursion depth available to the
    call. *)
Inductive later_calls
    (loader : nat -> files -> cache -> string -> result dict * cache)
    (fs : files) (c0 : cache) : cache -> Prop :=
  | later_refl : later_calls loader fs c0 c0
  | later_call depth c config_name r c' :
      later_calls loader fs c0 c ->
      loader depth fs c config_name = (r, c') ->
      later_calls loader fs c0 c'.

Definition lifetime
    (loader : nat -> files -> cache -> string -> result dict * cache)
    (fs : files) : cache -> Prop :=
  later_calls loader fs ∅.

(** The two loaders in that form; the HiYaPyCo one does not recurse. *)
Definition simple_loader := load_config.

Definition hiyapyco_loader (hiyapyco_load : list dict -> result dict)
    (depth : nat) := hiyapyco_load_config hiyapyco_load.

(** ** Vocabulary of the statements *)

(** The per-type rules of the deep merge at one key: [b] and [o] are the
    ancestor and descendant mappings, [r] the merged one. *)
Definition merge_rules_at (key : string) (b o r : dict) : Prop :=
  (* keys present in only one side are kept as-is *)
  (Dict.get key o = None -> Dict.get key r = Dict.get key b) /\
  (Dict.get key b = None -> Dict.get key r = Dict.get key o) /\
  forall bv ov,
    Dict.get key b = Some bv -> Dict.get key o = Some ov ->
    (* scalar vs scalar: override wins *)
    (shape_of bv = Scalar -> shape_of ov = Scalar -> Dict.get key r = Some ov) /\
    (* mapping vs mapping: merged key by key *)
    (forall bd od, bv = VDict bd -> ov = VDict od ->
       Dict.get key r = Some (VDict (merge_dicts bd od))) /\
    (* sequence vs sequence: ancestor items, then descendant items *)
    (forall bl ol, bv = VList bl -> ov = VList ol ->
       exists items,
         Dict.get key r = Some (VList items) /\
         items = bl ++ ol /\
         length items = length bl + length ol) /\
    (* mismatched types: the descendant value replaces the ancestor value *)
    (shape_of bv <> shape_of ov -> Dict.get key r = Some ov).

(** The cache of the simple loader holds, for each name, a document that
    resolving the name on the directory yields. *)
Definition cache_coherent (fs : files) (c : cache) : Prop :=
  forall name d, c !! name = Some d -> exists depth, resolve depth fs name = Ok d.

(** The cache of the HiYaPyCo loader holds what a call on an empty cache
    returns. *)
Definition hcache_coherent (hiyapyco_load : list dict -> result dict)
    (fs : files) (c : cache) : Prop :=
  forall name d,
    c !! name = Some d -> (hiyapyco_load_config hiyapyco_load fs ∅ name).1 = Ok d.

Definition no_extends (d : dict) : Prop := Dict.get "extends" d = None.

Definition cache_no_extends (c : cache) : Prop :=
  forall name d, c !! name = Some d -> no_extends d.

Definition is_not_found (e : exn) : bool :=
  match e with FileNotFoundError _ => true | _ => false end.

(** Failing with an error of a kind of its own for a missing ancestor:
    the call fails, and not with the not-found error of a missing source. *)
Definition fails_with_missing_ancestor_error (outcome : result dict) : Prop :=
  match outcome with
  | Raise e => is_not_found e = false
  | Ok _ => False
  end.

Definition missing_ancestor_claim_at
    (loader : files -> cache -> string -> result dict * cache)
    (fs : files) (name : string) : Prop :=
  forall config raw,
    fs !! name = Some config ->
    Dict.get "extends" config = Some (VStr raw) ->
    fs !! normalize_name raw = None ->
    fails_with_missing_ancestor_error (loader fs ∅ name).1.

(** What the specification requires of a valid document. *)
Definition nodes_carry_url (doc : dict) : Prop :=
  forall items d,
    Dict.get "nodes" doc = Some (VList items) ->
    VDict d ∈ items -> Dict.mem "url" d = true.

Definition models_carry_url_and_name (doc : dict) : Prop :=
  forall categories category entries entry,
    Dict.get "models" doc = Some (VDict categories) ->
    (category, VList entries) ∈ categories ->
    entry ∈ entries ->
    exists d, entry = VDict d /\ Dict.mem "url" d = true /\ Dict.mem "name" d = true.

Definition validation_conditions (doc : dict) : Prop :=
  Dict.mem "name" doc = true /\ Dict.mem "version" doc = true
  /\ nodes_carry_url doc /\ models_carry_url_and_name doc.

(** The shape the data model gives [nodes] and [models]: a sequence, and a
    mapping from categories to sequences of mappings. *)
Definition is_list_of (p : value -> bool) (v : value) : bool :=
  match v with VList items => forallb p items | _ => false end.

Definition schema_shaped (doc : dict) : bool :=
  match Dict.get "nodes" doc with
  | None | Some (VList _) => true
  | Some _ => false
  end
  && match Dict.get "models" doc with
     | None => true
     | Some (VDict categories) =>
         forallb (fun kv => is_list_of isinstance_dict kv.2) categories
     | Some _ => false
     end.

(** The claims about validation, at one configuration. *)
Definition validation_iff_at
    (loader : files -> cache -> string -> result dict * cache)
    (fs : files) (name : string) : Prop :=
  forall doc c', loader fs ∅ name = (Ok doc, c') ->
    (validate_config loader fs ∅ name).1.1 = true <-> validation_conditions doc.

Definition missing_version_named_at
    (loader : files -> cache -> string -> result dict * cache)
    (fs : files) (name : string) : Prop :=
  forall doc c', loader fs ∅ name = (Ok doc, c') ->
    Dict.mem "version" doc = false ->
    ErrMissingRequiredField "version" ∈ (validate_config loader fs ∅ name).1.2.

Definition reports_every_offense (offenses log : list log_record) : Prop :=
  forall o, o ∈ offenses -> o ∈ log.

(** ** Sample documents and configuration directories *)

Definition merge_rules_base : dict :=
  [ ("name", VStr "base");
    ("nodes", VList [VStr "repoA"]);
    ("models", VDict [ ("checkpoints", VList [VStr "m0"]);
                       ("loras", VList [VStr "l0"]) ]);
    ("env_vars", VDict [("A", VStr "1")]) ].

Definition merge_rules_override : dict :=
  [ ("name", VStr "child");
    ("models", VDict [("checkpoints", VList [VStr "m1"])]);
    ("env_vars", VList [VStr "B"]);
    ("workflows", VList []) ].

Definition base_doc : dict :=
  [ ("name", VStr "base"); ("version", VStr "1.0");
    ("nodes", VList [VStr "repoA"]) ].

Definition child_doc : dict :=
  [ ("name", VStr "child"); ("extends", VStr "base");
    ("nodes", VList [VStr "repoB"]) ].

Definition orphan_doc : dict :=
  [ ("name", VStr "orphan"); ("version", VStr "2.0");
    ("extends", VStr "config-ghost.yaml") ].

Definition sample_fs : files :=
  <["orphan" := orphan_doc]> (<["child" := child_doc]> {["base" := base_doc]}).

Definition cyclic_fs : files :=
  <["a" := [("name", VStr "a"); ("extends", VStr "b")]]>
    {["b" := [("name", VStr "b"); ("extends", VStr "config-a")]]}.

(** [textual]: a model entry written as a bare string; [blank]: an empty
    mapping; [flawed]: no [version], and a model without [url]. *)
Definition textual_model : value := VStr "https://example.org/url/filename.bin".

Definition nameless_model : value := VDict [("name", VStr "m")].

Definition textual_doc : dict :=
  [ ("name", VStr "textual"); ("version", VStr "1.0");
    ("models", VDict [("checkpoints", VList [textual_model])]) ].

Definition flawed_doc : dict :=
  [ ("name", VStr "flawed");
    ("models", VDict [("checkpoints", VList [nameless_model])]) ].

Definition sound_doc : dict :=
  [ ("name", VStr "sound"); ("version", VStr "1.0");
    ("nodes", VList [VStr "repoA"; VDict [("url", VStr "repoB")]]);
    ("models", VDict [("checkpoints",
       VList [VDict [("url", VStr "u"); ("name", VStr "m")]])]) ].

Definition validation_fs : files :=
  <["textual" := textual_doc]>
    (<["blank" := []]> (<["flawed" := flawed_doc]> {["sound" := sound_doc]})).

Definition three_level_fs : files :=
  <["leaf" := [("name", VStr "leaf"); ("extends", VStr "middle")]]>
    (<["middle" := [("name", VStr "middle"); ("extends", VStr "root")]]>
       {["root" := [("name", VStr "root"); ("from_root", VBool true)]]}).

(** A stand-in for the third-party merge in executable examples. *)
Definition sample_hiyapyco_load (docs : list dict) : result dict :=
  Ok (fold_left merge_dicts docs []).

(** * The rest of the builder *)

(** ** Exceptions and outcomes

    The exceptions the functions below can raise besides those of the
    loaders, and the outcome of a call that may raise any of them. *)
Inductive exception : Type :=
  | ValueError (msg : string)
  | NameError (name : string)
      (** a name that is neither local nor global where it is evaluated *)
  | KeyError (key : string)
  | UnboundLocalError (name : string)
      (** a local variable read before any assignment to it *)
  | Exn (e : exn).

Inductive outcome (A : Type) : Type :=
  | Returns (a : A)
  | Throws (e : exception).

Arguments Returns {A} a.
Arguments Throws {A} e.

Definition of_result {A} (r : result A) : outcome A :=
  match r with Ok a => Returns a | Raise e => Throws (Exn e) end.

(** [bool(v)], as [if v] and [not v] take it *)
Definition truthy (v : value) : bool :=
  match v with
  | VNull => false
  | VBool b => b
  | VInt z => negb (z =? 0)%Z
  | VStr s => negb (String.eqb s "")
  | VList items => match items with [] => false | _ => true end
  | VDict items => match items with [] => false | _ => true end
  end.

(** [len(v)] *)
Definition py_len (v : value) : result nat :=
  match v with
  | VList items => Ok (length items)
  | VDict items => Ok (length items)
  | VStr s => Ok (String.length s)
  | _ => Raise TypeError
  end.

(** ** [config_loader_hiyapyco.ConfigLoader.load_configs_with_hierarchy] *)

(** [for name in config_names: if config_path.exists(): configs.append(...)] *)
Fixpoint existing_configs (fs : files) (config_names : list string) : list dict :=
  match config_names with
  | [] => []
  | name :: rest =>
      match fs !! name with
      | Some doc => doc :: existing_configs fs rest
      | None => existing_configs fs rest
      end
  end.

Section Hierarchy.

(** [hiyapyco.load(configs, method=hiyapyco.METHOD_MERGE,
    interpolate=False, failonmissingfiles=False)], on the documents of the
    files it is given. *)
Variable hiyapyco_load_all : list dict -> result dict.

Definition load_configs_with_hierarchy (fs : files) (config_names : list string)
    : outcome dict :=
  match existing_configs fs config_names with
  | [] => Throws (ValueError "No valid config files found")
  | configs => of_result (hiyapyco_load_all configs)
  end.

End Hierarchy.

(** ** [builder.ComfyUIBuilder.list_configs] *)

(** [s.replace(old, '')] for a non-empty [old]: the occurrences of [old]
    are found from left to right, each search starting where the previous
    occurrence ended, and are left out.  [skip] counts the characters of
    the current occurrence still to be left out. *)
Fixpoint remove_all_aux (old : string) (skip : nat) (s : string) : string :=
  match s with
  | EmptyString => EmptyString
  | String a s' =>
      match skip with
      | S skip' => remove_all_aux old skip' s'
      | O =>
          if String.prefix old s
          then remove_all_aux old (String.length old - 1) s'
          else String a (remove_all_aux old 0 s')
      end
  end.

Definition remove_all (old s : string) : string := remove_all_aux old 0 s.

(** [f.stem] of the path [config-<name>.yaml] *)
Definition stem (config_name : string) : string := String.append "config-" config_name.

Section ListConfigs.

(** [self.configs_dir.glob('config-*.yaml')] enumerates the files of the
    directory, in an order the file system chooses; the names of [fs] are
    names of files in the directory itself.  [sorted] compares strings
    character by character. *)
Variable glob_order : gset string -> list string.

Definition list_configs (fs : files) : list string :=
  merge_sort String.le
    (map (fun f => remove_all "config-" (stem f)) (glob_order (dom fs))).

End ListConfigs.

(** ** [variant_builder.ConfigBuilder]: the steps of [build] *)

(** What a step leaves in the output directory. *)
Inductive event : Type :=
  | WriteJson (file : string) (data : value)
      (** [json.dump(data, f, indent=2)] *)
  | WriteJsonFailed (file : string) (data : value)
      (** [json.dump] raised on [data]: the file was opened for writing and
          holds what was encoded before the failure *)
  | WriteYaml (file : string) (data : dict)
      (** [yaml.dump(data, f, default_flow_style=False, sort_keys=False)] *)
  | WriteText (file : string) (text : string)
      (** [f.write(text)]; the empty text when the file was opened for
          writing and nothing was written *)
  | WriteStartupScript (config_name : string)
      (** [startup.sh], the script text around [config_name] *)
  | CopyWorkflow (workflow : string)
      (** [shutil.copy2(workflow_path, dest_path)] *).

(** A step: what it returns or raises, and what it left behind. *)
Definition step : Type := outcome bool * list event.

(** The strings of a list all of whose members are [str]. *)
Fixpoint strings_of (items : list value) : option (list string) :=
  match items with
  | [] => Some []
  | VStr s :: rest =>
      match strings_of rest with
      | Some l => Some (s :: l)
      | None => None
      end
  | _ :: rest => None
  end.

(** [_generate_config_file]: the document written to [config.yaml] *)
Definition generate_config_data (config : dict) (config_name : string) : dict :=
  [ ("name", VStr config_name);
    ("version", get_default "version" config (VStr "1.0.0"));
    ("base_image", get_default "base_image" config (VStr "effekt/runpod-comfyui:base"));
    ("env_vars", get_default "env_vars" config (VDict []));
    ("nodes", get_default "nodes" config (VList []));
    ("models", get_default "models" config (VDict []));
    ("requirements", get_default "requirements" config (VList []));
    ("workflows", get_default "workflows" config (VList [])) ].

Definition generate_config_file (config : dict) (config_name : string) : step :=
  (Returns true, [WriteYaml "config.yaml" (generate_config_data config config_name)]).

(** [_generate_startup_script] *)
Definition generate_startup_script (config_name : string) : step :=
  (Returns true, [WriteStartupScript config_name]).

(** Steps in sequence: [if not step: return False], an exception ending
    the sequence as well. *)
Definition and_then (s : step) (rest : step) : step :=
  match s with
  | (Returns true, events) => (rest.1, events ++ rest.2)
  | (Returns false, events) => (Returns false, events)
  | (Throws e, events) => (Throws e, events)
  end.

Section Build.

(** [json.dump(data, f, indent=2)]: it raises [TypeError] on a value JSON
    has no encoding for (a YAML timestamp, binary scalar or set, which are
    not among the constructors of [value]), so whether it succeeds is a
    parameter. *)
Variable json_dump : value -> result unit.

(** [_process_nodes]: the file is written, then [len(nodes)] is logged. *)
Definition process_nodes (nodes : value) : step :=
  if negb (truthy nodes) then (Returns true, [])
  else
    match json_dump nodes with
    | Ok _ =>
        (of_result (_ <- py_len nodes ;; Ok true),
         [WriteJson "custom_nodes.json" nodes])
    | Raise e => (Throws (Exn e), [WriteJsonFailed "custom_nodes.json" nodes])
    end.

(** [_process_models]; [models.values()] is there for a dict only. *)
Definition process_models (models : value) : step :=
  if negb (truthy models) then (Returns true, [])
  else
    match json_dump models with
    | Ok _ =>
        (match models with
         | VDict _ => Returns true
         | _ => Throws (Exn AttributeError)
         end,
         [WriteJson "models.json" models])
    | Raise e => (Throws (Exn e), [WriteJsonFailed "models.json" models])
    end.

(** The order in which a set of requirements is iterated. *)
Variable iteration_order : gset string -> list string.

(** [workflow_path.exists()] and [shutil.copy2], on the workflows
    directory. *)
Variable workflow_exists : string -> bool.
Variable copy2 : string -> result unit.

(** [_process_requirements], on whatever the document holds under
    [requirements]: [set(requirements)] needs an iterable of hashable
    members, ['\n'.join] needs them to be [str]; the file is open by
    then. *)
Definition process_requirements_of (requirements : value) : step :=
  if negb (truthy requirements) then (Returns true, [])
  else
    match items <- py_iter requirements ;;
          match strings_of items with
          | Some l => Ok l
          | None => Raise TypeError
          end
    with
    | Ok l =>
        match process_requirements iteration_order l with
        | (b, Some text) => (Returns b, [WriteText "requirements.txt" text])
        | (b, None) => (Returns b, [])
        end
    | Raise e => (Throws (Exn e), [WriteText "requirements.txt" ""])
    end.

(** The loop of [_copy_workflows]: [self.workflows_dir / workflow] needs a
    [str]. *)
Fixpoint copy_each (workflows : list value) : outcome unit * list event :=
  match workflows with
  | [] => (Returns tt, [])
  | VStr workflow :: rest =>
      if workflow_exists workflow
      then
        match copy2 workflow with
        | Ok _ =>
            let '(r, events) := copy_each rest in
            (r, CopyWorkflow workflow :: events)
        | Raise e => (Throws (Exn e), [])
        end
      else copy_each rest
  | _ :: rest => (Throws (Exn TypeError), [])
  end.

(** [_copy_workflows] *)
Definition copy_workflows (config : dict) : step :=
  let workflows := get_default "workflows" config (VList []) in
  if negb (truthy workflows) then (Returns true, [])
  else
    match py_iter workflows with
    | Ok items =>
        match copy_each items with
        | (Returns _, events) => (Returns true, events)
        | (Throws e, events) => (Throws e, events)
        end
    | Raise e => (Throws (Exn e), [])
    end.

(** The block [if config.get('generate_dockerfile', False): ...]: the call
    [self._generate_dockerfile(config, variant_name, output_dir)] evaluates
    [variant_name], a name [build] neither receives nor assigns and the
    module does not define. *)
Definition dockerfile_step (config : dict) : step :=
  if truthy (get_default "generate_dockerfile" config (VBool false))
  then (Throws (NameError "variant_name"), [])
  else (Returns true, []).

(** The body of the [try] block of [build]. *)
Definition build_steps (config : dict) (config_name : string) : step :=
  and_then (process_nodes (get_default "nodes" config (VList [])))
    (and_then (process_models (get_default "models" config (VDict [])))
       (and_then (process_requirements_of (get_default "requirements" config (VList [])))
          (and_then (generate_config_file config config_name)
             (and_then (copy_workflows config)
                (and_then (dockerfile_step config)
                   (generate_startup_script config_name)))))).

(** [build]: [except Exception as e: logger.error(...); return False] *)
Definition build (config : dict) (config_name : string) : bool * list event :=
  match build_steps config config_name with
  | (Returns b, events) => (b, events)
  | (Throws e, events) => (false, events)
  end.

(** [builder.ComfyUIBuilder.build_config]: the result, the cache, and what
    was left in the output directory. *)
Definition build_config
    (loader : files -> cache -> string -> result dict * cache)
    (fs : files) (c : cache) (config_name : string)
    : bool * cache * list event :=
  match validate_config loader fs c config_name with
  | (false, _, c) => (false, c, [])
  | (true, _, c) =>
      match loader fs c config_name with
      | (Ok config, c) =>
          let '(b, events) := build config config_name in (b, c, events)
      | (Raise e, c) => (false, c, [])
      end
  end.

End Build.

(** ** [builder.ComfyUIBuilder.install_nodes] *)

Section InstallNodes.

(** [self.node_installer.install_node(url, branch=branch)]: it runs git on
    the nodes directory, whose states are [W], and returns a flag; it
    catches what is raised inside it. *)
Variable W : Type.
Variable install_node : W -> value -> value -> bool * W.

(** One turn of [for node in nodes]: the value of [success] after the
    [if]/[elif], unassigned ([None]) when no branch has assigned it yet. *)
Definition install_one (node : value) (success : option bool) (w : W)
    : outcome (option bool * W) :=
  match node with
  | VDict items =>
      match Dict.get "url" items with
      | Some url =>
          let '(b, w) := install_node w url (get_default "branch" items VNull) in
          Returns (Some b, w)
      | None => Throws (KeyError "url")
      end
  | VStr _ =>
      let '(b, w) := install_node w node VNull in
      Returns (Some b, w)
  | _ => Returns (success, w)
  end.

(** The loop; the nodes warned about are collected in order. *)
Fixpoint install_each (nodes : list value) (success : option bool) (w : W)
    : outcome unit * W * list value :=
  match nodes with
  | [] => (Returns tt, w, [])
  | node :: rest =>
      match install_one node success w with
      | Throws e => (Throws e, w, [])
      | Returns (None, w) => (Throws (UnboundLocalError "success"), w, [])
      | Returns (Some b, w) =>
          let '(r, w, warned) := install_each rest (Some b) w in
          (r, w, if b then warned else node :: warned)
      end
  end.

Definition install_nodes
    (loader : files -> cache -> string -> result dict * cache)
    (fs : files) (c : cache) (config_name : string) (w : W)
    : bool * cache * W * list value :=
  match fs !! config_name with
  | None => (false, c, w, [])
  | Some _ =>
      match loader fs c config_name with
      | (Raise e, c) => (false, c, w, [])
      | (Ok config, c) =>
          let nodes := get_default "nodes" config (VList []) in
          if negb (truthy nodes) then (true, c, w, [])
          else
            match py_iter nodes with
            | Raise e => (false, c, w, [])
            | Ok items =>
                match install_each items None w with
                | (Returns _, w, warned) => (true, c, w, warned)
                | (Throws e, w, warned) => (false, c, w, warned)
                end
            end
      end
  end.

(** The call [install_node] receives for a node that is a [str] or a
    mapping with a [url]. *)
Definition node_url (node : value) : value :=
  match node with
  | VDict items => get_default "url" items VNull
  | _ => node
  end.

Definition node_branch (node : value) : value :=
  match node with
  | VDict items => get_default "branch" items VNull
  | _ => VNull
  end.

Definition installable (node : value) : bool :=
  match node with
  | VDict items => Dict.mem "url" items
  | VStr _ => true
  | _ => false
  end.

End InstallNodes.

(** ** [model_manager.ModelManager._download_model]: the download method *)

(** [needle in s], for two [str] *)
Definition contains (needle s : string) : bool :=
  match String.index 0 needle s with Some _ => true | None => false end.

(** The branch [_download_model] takes on the [url] of a model, a [str]:
    [NoURL] and [UnknownFormat] are the two branches that log an error and
    return [False]; the others hand over to a downloader, [ViaCivitai]
    with [url[8:]]. *)
Inductive download_method : Type :=
  | NoURL
  | ViaCivitai (model_id : string)
  | ViaPrivateRepository
  | ViaDirect
  | ViaHuggingFace
  | UnknownFormat.

Definition download_method_of (url : string) : download_method :=
  if String.eqb url "" then NoURL
  else if startswith url "civitai:"
  then ViaCivitai (String.substring 8 (String.length url - 8) url)
  else if startswith url "fx1/collection/" || contains "fx1/collection" url
  then ViaPrivateRepository
  else if contains "huggingface.co" url || startswith url "https://"
  then ViaDirect
  else if contains "/" url && negb (startswith url "http")
  then ViaHuggingFace
  else UnknownFormat.

(** ** [node_installer.NodeInstaller.install_node]: the directory of a node *)

(** [s.rstrip('/')] *)
Fixpoint rstrip_slashes (s : string) : string :=
  match s with
  | EmptyString => EmptyString
  | String a s' =>
      match rstrip_slashes s' with
      | EmptyString => if Ascii.eqb a "/" then EmptyString else String a EmptyString
      | rest => String a rest
      end
  end.

(** [s.split(sep)], [cur] being the piece under way *)
Fixpoint split_on (sep : ascii) (cur : string) (s : string) : list string :=
  match s with
  | EmptyString => [cur]
  | String a s' =>
      if Ascii.eqb a sep
      then cur :: split_on sep EmptyString s'
      else split_on sep (String.append cur (String a EmptyString)) s'
  end.

(** [url.rstrip('/').split('/')[-1]], less a final [.git] *)
Definition repo_name (url : string) : string :=
  let repo_name := List.last (split_on "/" EmptyString (rstrip_slashes url)) EmptyString in
  if endswith repo_name ".git"
  then String.substring 0 (String.length repo_name - 4) repo_name
  else repo_name.

(** ** [model_manager.ModelManager._download_huggingface]: repository and file *)

(** What becomes of a model id: the error branch for an id of fewer than
    two parts, the search for a model file in the repository when no file
    path is left, or the download of the file. *)
Inductive huggingface_request : Type :=
  | InvalidModelID
  | ProbeRepository (repo_id : string)
  | DownloadFile (url : string).

Definition huggingface_request_of (model_id : string) : huggingface_request :=
  let parts := split_on "/" EmptyString model_id in
  if (length parts <? 2)%nat then InvalidModelID
  else
    let '(repo_id, file_path) :=
      if (length parts =? 2)%nat then (model_id, None)
      else (String.concat "/" (take 2 parts), Some (String.concat "/" (drop 2 parts))) in
    match file_path with
    | Some file_path =>
        if String.eqb file_path "" then ProbeRepository repo_id
        else DownloadFile
               (String.append "https://huggingface.co/"
                  (String.append repo_id (String.append "/resolve/main/" file_path)))
    | None => ProbeRepository repo_id
    end.

(** [c] does not occur in [s]. *)
Fixpoint free_of (c : ascii) (s : string) : bool :=
  match s with
  | EmptyString => true
  | String a s' => negb (Ascii.eqb a c) && free_of c s'
  end.

(** ** Further vocabulary *)

(** The cache holds, with a name, the ancestor its file names. *)
Definition ancestors_cached (fs : files) (c : cache) : Prop :=
  forall name b,
    is_Some (c !! name) -> parent fs name = Some b -> is_Some (c !! b).

(** The event of writing [startup.sh]. *)
Definition is_startup (e : event) : bool :=
  match e with WriteStartupScript _ => true | _ => false end.

(** A step that does not return [True], and has not written [startup.sh]. *)
Definition stopped (s : step) : Prop :=
  s.1 <> Returns true /\ existsb is_startup s.2 = false.

(** ** Vocabulary of the corrected claims *)

(** How deep mappings are nested in mappings: what a merge with [v] as
    the override can cost in nested calls of [_merge_dicts]. *)
Fixpoint mapping_depth (v : value) : nat :=
  match v with
  | VDict items => S (list_max (map (fun kv => mapping_depth kv.2) items))
  | _ => 0
  end.

(** No document of the chain nests mappings deeper than [height]. *)
Definition chain_nesting_bounded (fs : files) (name : string) (height : nat) : Prop :=
  forall m doc,
    in_chain fs name m -> fs !! m = Some doc -> mapping_depth (VDict doc) <= height.

(** The claim about termination, as stated: on an acyclic chain whose
    sources exist the call returns a document; read with some recursion
    depth, and with a given one. *)
Definition returns_document (depth : nat) (fs : files) (name : string) : Prop :=
  exists doc c', load_config depth fs ∅ name = (Ok doc, c').

Definition termination_claim_at (fs : files) (name : string) : Prop :=
  acyclic_chain fs name -> sources_exist fs name ->
  exists depth, returns_document depth fs name.

Definition termination_claim_within (depth : nat) (fs : files) (name : string) : Prop :=
  acyclic_chain fs name -> sources_exist fs name -> returns_document depth fs name.

(** [odd]: an [extends] that is not a string; a chain of four files. *)
Definition odd_fs : files :=
  {["odd" := [("name", VStr "odd"); ("version", VStr "1.0"); ("extends", VInt 5)]]}.

Definition long_chain_fs : files :=
  <["n0" := [("name", VStr "n0"); ("extends", VStr "n1")]]>
    (<["n1" := [("name", VStr "n1"); ("extends", VStr "n2")]]>
       (<["n2" := [("name", VStr "n2"); ("extends", VStr "n3")]]>
          {["n3" := [("name", VStr "n3")]]})).

(** Two files, the descendant and the ancestor both holding a mapping
    under [models]. *)
Definition nested_fs : files :=
  <["child" := [("name", VStr "child"); ("extends", VStr "base");
                ("models", VDict [("loras", VList [])])]]>
    {["base" := [("name", VStr "base");
                 ("models", VDict [("checkpoints", VList [])])]]}.

(** The claim about the requirements artifact, as stated: the lines of
    the file are the distinct requirements, each once. *)
Definition lines_are_requirements_at
    (iteration_order : gset string -> list string)
    (requirements : list string) : Prop :=
  forall text,
    process_requirements iteration_order requirements = (true, Some text) ->
    (forall r, r ∈ split_lines text <-> r ∈ requirements)
    /\ NoDup (split_lines text).

(** A requirement that holds a newline. *)
Definition two_line_requirement : string :=
  String.append "a" (String.append newline "b").

(** * Properties *)

(** ** Dictionaries and the merge *)

Lemma filter_ext_elem {A} (P Q : A -> Prop)
    `{!forall x, Decision (P x)} `{!forall x, Decision (Q x)} (l : list A) :
  (forall x, x ∈ l -> P x <-> Q x) -> filter P l = filter Q l.
Proof.
  induction l as [|a l IH]; intros Hext; [done|].
  rewrite !filter_cons.
  rewrite IH by (intros x Hx; apply Hext; by right).
  destruct (decide (P a)) as [Hp|Hp], (decide (Q a)) as [Hq|Hq]; try done;
    exfalso; apply (Hext a) in Hp || apply (Hext a) in Hq; try done; by left.
Qed.

Section DictFacts.

Context {A : Type}.

Implicit Types (d : list (string * A)) (k key : string) (v : A).

Lemma get_set_eq k v d : Dict.get k (Dict.set k v d) = Some v.
Proof.
  induction d as [|[k' w] d IH]; simpl.
  - by rewrite String.eqb_refl.
  - destruct (String.eqb k k') eqn:E; simpl; rewrite ?E; auto.
Qed.

Lemma get_set_ne k k' v d :
  k <> k' -> Dict.get k (Dict.set k' v d) = Dict.get k d.
Proof.
  intros Hne. induction d as [|[k2 w] d IH]; simpl.
  - apply String.eqb_neq in Hne. by rewrite Hne.
  - destruct (String.eqb k' k2) eqn:E; simpl.
    + apply String.eqb_eq in E. subst k2.
      apply String.eqb_neq in Hne. by rewrite Hne.
    + destruct (String.eqb k k2); auto.
Qed.

Lemma get_set k k' v d :
  Dict.get k (Dict.set k' v d) = if String.eqb k k' then Some v else Dict.get k d.
Proof.
  destruct (String.eqb k k') eqn:E.
  - apply String.eqb_eq in E. subst. apply get_set_eq.
  - apply String.eqb_neq in E. by apply get_set_ne.
Qed.

Lemma get_del_eq k d : Dict.get k (Dict.del k d) = None.
Proof.
  induction d as [|[k' w] d IH]; simpl; auto.
  destruct (String.eqb k k') eqn:E; simpl; rewrite ?E; auto.
Qed.

Lemma get_del_ne k k' d :
  k <> k' -> Dict.get k (Dict.del k' d) = Dict.get k d.
Proof.
  intros Hne. induction d as [|[k2 w] d IH]; simpl; auto.
  destruct (String.eqb k' k2) eqn:E; simpl.
  - apply String.eqb_eq in E. subst k2.
    apply String.eqb_neq in Hne. by rewrite Hne.
  - destruct (String.eqb k k2); auto.
Qed.

Lemma get_None_keys k d : Dict.get k d = None <-> k ∉ Dict.keys d.
Proof.
  induction d as [|[k' w] d IH]; simpl.
  - split; [intros _; apply not_elem_of_nil | done].
  - rewrite not_elem_of_cons. destruct (String.eqb k k') eqn:E.
    + apply String.eqb_eq in E. split; [done | intros [? _]; done].
    + apply String.eqb_neq in E. rewrite IH. tauto.
Qed.

Lemma get_Some_keys k d : is_Some (Dict.get k d) <-> k ∈ Dict.keys d.
Proof.
  destruct (Dict.get k d) eqn:E.
  - split; [intros _ | eauto].
    destruct (decide (k ∈ Dict.keys d)) as [|Hn]; [done|].
    apply get_None_keys in Hn. congruence.
  - split; [intros [? ?]; done |].
    intros Hin. apply get_None_keys in E. done.
Qed.

Lemma mem_get k d : Dict.mem k d = true <-> is_Some (Dict.get k d).
Proof.
  unfold Dict.mem. destruct (Dict.get k d); split; eauto; try done.
Qed.

(** Keys after an assignment: position kept, or appended. *)
Lemma keys_set k v d :
  Dict.keys (Dict.set k v d) =
  if Dict.mem k d then Dict.keys d else Dict.keys d ++ [k].
Proof.
  unfold Dict.mem. induction d as [|[k' w] d IH]; simpl; auto.
  destruct (String.eqb k k') eqn:E; simpl; auto.
  rewrite IH. by destruct (Dict.get k d).
Qed.

Lemma keys_del k d : Dict.keys (Dict.del k d) = filter (λ x, x ≠ k) (Dict.keys d).
Proof.
  induction d as [|[k' w] d IH]; simpl; auto.
  destruct (String.eqb k k') eqn:E.
  - apply String.eqb_eq in E. subst. rewrite filter_cons_False; auto.
  - apply String.eqb_neq in E. rewrite filter_cons_True by congruence.
    simpl. by rewrite IH.
Qed.

Lemma NoDup_keys_del k d : NoDup (Dict.keys d) -> NoDup (Dict.keys (Dict.del k d)).
Proof. intros H. rewrite keys_del. by apply NoDup_filter. Qed.

End DictFacts.

Section MergeFacts.

Implicit Types (d base override result : dict) (k key : string) (v : value).

Lemma merge_dicts_nil base : merge_dicts base [] = base.
Proof. reflexivity. Qed.

Lemma merge_item_step result key v :
  merge_item merge_into result key v = merge_step result key v.
Proof.
  unfold merge_item, merge_step, Dict.mem.
  destruct (Dict.get key result) as [cur|]; [|done].
  destruct cur, v; reflexivity.
Qed.

(** The defining equation of [_merge_dicts]: process the first item of
    [override] on the running [result], then the remaining items. *)
Lemma merge_dicts_cons base key v override :
  merge_dicts base ((key, v) :: override) =
  merge_dicts (merge_step base key v) override.
Proof. unfold merge_dicts. simpl. by rewrite merge_item_step. Qed.

Lemma merge_step_set result key v :
  merge_step result key v =
  Dict.set key
    (match Dict.get key result with
     | Some cur => merge_values cur v
     | None => v
     end) result.
Proof.
  unfold merge_step, Dict.mem, merge_values.
  destruct (Dict.get key result) as [cur|]; [|done].
  destruct cur, v; reflexivity.
Qed.

Lemma get_merge_step result key v k :
  Dict.get k (merge_step result key v) =
  if String.eqb k key then
    Some (match Dict.get key result with
          | Some cur => merge_values cur v
          | None => v
          end)
  else Dict.get k result.
Proof. rewrite merge_step_set. apply get_set. Qed.

(** A key the override does not bind is left alone. *)
Lemma get_merge_dicts_absent base override k :
  Dict.get k override = None ->
  Dict.get k (merge_dicts base override) = Dict.get k base.
Proof.
  revert base. induction override as [|[key v] override IH]; intros base; simpl.
  - done.
  - destruct (String.eqb k key) eqn:E; [done|]. intros Hnone.
    rewrite merge_dicts_cons, IH by done.
    by rewrite get_merge_step, E.
Qed.

(** A key the override binds (once) is combined with the base binding. *)
Lemma get_merge_dicts_present base override k o :
  NoDup (Dict.keys override) ->
  Dict.get k override = Some o ->
  Dict.get k (merge_dicts base override) =
  Some (match Dict.get k base with
        | Some b => merge_values b o
        | None => o
        end).
Proof.
  revert base. induction override as [|[key v] override IH]; intros base; simpl.
  - done.
  - intros Hnd Hget. apply NoDup_cons in Hnd as [Hnotin Hnd].
    rewrite merge_dicts_cons.
    destruct (String.eqb k key) eqn:E.
    + apply String.eqb_eq in E. subst key. injection Hget as ->.
      rewrite get_merge_dicts_absent by by apply get_None_keys.
      by rewrite get_merge_step, String.eqb_refl.
    + rewrite IH by done. by rewrite get_merge_step, E.
Qed.

Lemma mem_merge_step result key v k :
  Dict.mem k (merge_step result key v) = String.eqb k key || Dict.mem k result.
Proof.
  unfold Dict.mem at 1. rewrite get_merge_step.
  destruct (String.eqb k key); done.
Qed.

(** Key order of the merge: the base's keys in their order, then the keys
    only the override has, in the override's order. *)
Lemma keys_merge_dicts base override :
  NoDup (Dict.keys override) ->
  Dict.keys (merge_dicts base override) =
  Dict.keys base ++ filter (λ k, Dict.mem k base = false) (Dict.keys override).
Proof.
  revert base. induction override as [|[key v] override IH]; intros base Hnd; simpl.
  - by rewrite app_nil_r.
  - apply NoDup_cons in Hnd as [Hnotin Hnd].
    rewrite merge_dicts_cons, IH by done.
    rewrite merge_step_set, keys_set.
    assert (Hf : filter (λ k, Dict.mem k (merge_step base key v) = false) (Dict.keys override)
                 = filter (λ k, Dict.mem k base = false) (Dict.keys override)).
    { apply filter_ext_elem. intros k Hin.
      rewrite mem_merge_step.
      destruct (String.eqb k key) eqn:E; [|done].
      apply String.eqb_eq in E. subst. done. }
    rewrite <- merge_step_set, Hf.
    destruct (Dict.mem key base) eqn:Hm.
    + rewrite filter_cons_False by (simpl; congruence). done.
    + rewrite filter_cons_True by done. by rewrite <- app_assoc.
Qed.

End MergeFacts.

Section WellFormed.

Implicit Types (d base override : dict) (k : string) (v : value).

Lemma wf_dict_unfold d :
  wf_dict d <->
  NoDup (Dict.keys d) /\ forall k v, (k, v) ∈ d -> wf_value v = true.
Proof.
  unfold wf_dict. simpl. rewrite andb_true_iff, bool_decide_eq_true.
  rewrite forallb_forall. split; intros [Hnd Hall]; split; try done.
  - intros k v Hin. apply (Hall (k, v)). by apply list_elem_of_In.
  - intros [k v] Hin. apply (Hall k v). by apply list_elem_of_In.
Qed.

Lemma wf_dict_NoDup d : wf_dict d -> NoDup (Dict.keys d).
Proof. intros H. by apply wf_dict_unfold in H as [? _]. Qed.

Lemma get_Some_elem_of k v d : Dict.get k d = Some v -> (k, v) ∈ d.
Proof.
  induction d as [|[k' w] d IH]; simpl; [done|].
  destruct (String.eqb k k') eqn:E.
  - apply String.eqb_eq in E. intros [= ->]. subst. by left.
  - intros H. right. auto.
Qed.

Lemma wf_dict_get k v d :
  wf_dict d -> Dict.get k d = Some v -> wf_value v = true.
Proof.
  intros Hwf Hget. apply wf_dict_unfold in Hwf as [_ Hall].
  eapply Hall, get_Some_elem_of, Hget.
Qed.

Lemma wf_dict_del k d : wf_dict d -> wf_dict (Dict.del k d).
Proof.
  rewrite !wf_dict_unfold. intros [Hnd Hall]. split.
  - by apply NoDup_keys_del.
  - intros k' v Hin. apply (Hall k' v).
    clear -Hin. induction d as [|[k2 w] d IH]; simpl in *; [done|].
    destruct (String.eqb k k2); [right; auto|].
    apply elem_of_cons in Hin as [->|Hin]; [by left | right; auto].
Qed.

(** The merge reaches every nesting level at which both sides hold a
    mapping: below such a path the result is again the merge of the two
    sub-mappings. *)
Lemma at_path_merge_dicts path : forall base override b o,
  wf_dict override ->
  at_path path base = Some b ->
  at_path path override = Some o ->
  at_path path (merge_dicts base override) = Some (merge_dicts b o) /\ wf_dict o.
Proof.
  induction path as [|k path IH]; intros base override b o Hwf; simpl.
  - intros [= ->] [= ->]. done.
  - destruct (Dict.get k base) as [[| | | | |b1]|] eqn:Hb; try done.
    destruct (Dict.get k override) as [[| | | | |o1]|] eqn:Ho; try done.
    intros Hpb Hpo.
    rewrite (get_merge_dicts_present _ _ _ _ (wf_dict_NoDup _ Hwf) Ho), Hb.
    simpl. apply IH; try done.
    apply (wf_dict_get _ _ _ Hwf Ho).
Qed.

End WellFormed.

Section MergeRules.

Implicit Types (base override b o : dict) (key : string).

Lemma merge_rules_at_merge key b o :
  NoDup (Dict.keys o) -> merge_rules_at key b o (merge_dicts b o).
Proof.
  intros Hnd. unfold merge_rules_at. split; [|split].
  - apply get_merge_dicts_absent.
  - intros Hb. destruct (Dict.get key o) as [ov|] eqn:Ho.
    + by rewrite (get_merge_dicts_present _ _ _ _ Hnd Ho), Hb.
    + by rewrite get_merge_dicts_absent, Hb.
  - intros bv ov Hb Ho.
    rewrite (get_merge_dicts_present _ _ _ _ Hnd Ho), Hb.
    repeat split.
    + intros Hsb Hso. by destruct bv, ov.
    + by intros bd od -> ->.
    + intros bl ol -> ->. exists (bl ++ ol). by rewrite length_app.
    + intros Hne. by destruct bv, ov.
Qed.

(** C1. The deep merge of [_merge_dicts] obeys the per-type rules at every
    nesting level: along any path on which both the ancestor and the
    descendant hold mappings, the merged document holds the merge of the
    two sub-mappings, and at each key of it a scalar pair gives the
    descendant's value, a pair of mappings is merged key by key (with keys
    of only one side kept, the ancestor's first), a pair of sequences gives
    the ancestor's items followed by the descendant's (so the lengths add
    up), and a pair of mismatched types gives the descendant's value. *)
Theorem merge_dicts_obeys_rules base override :
  wf_dict override ->
  forall path b o,
    at_path path base = Some b ->
    at_path path override = Some o ->
    at_path path (merge_dicts base override) = Some (merge_dicts b o)
    /\ Dict.keys (merge_dicts b o)
       = Dict.keys b ++ filter (λ k, Dict.mem k b = false) (Dict.keys o)
    /\ forall key, merge_rules_at key b o (merge_dicts b o).
Proof.
  intros Hwf path b o Hb Ho.
  destruct (at_path_merge_dicts path base override b o Hwf Hb Ho) as [Hp Hwfo].
  apply wf_dict_NoDup in Hwfo.
  split; [done|]. split.
  - by apply keys_merge_dicts.
  - intros key. by apply merge_rules_at_merge.
Qed.

End MergeRules.

(** The second scenario of the specification: [models.checkpoints] gets the
    ancestor's entry and then the descendant's, [models.loras] is kept. *)
Example merge_models_scenario :
  let m0 := VDict [("url", VStr "u0"); ("name", VStr "m0")] in
  let m1 := VDict [("url", VStr "u1"); ("name", VStr "m1")] in
  let l0 := VDict [("url", VStr "u2"); ("name", VStr "l0")] in
  merge_dicts
    [("models", VDict [("checkpoints", VList [m0]); ("loras", VList [l0])])]
    [("models", VDict [("checkpoints", VList [m1])])]
  = [("models", VDict [("checkpoints", VList [m0; m1]); ("loras", VList [l0])])].
Proof. reflexivity. Qed.

Lemma merge_dicts_obeys_rules_witness :
  at_path ["models"] (merge_dicts merge_rules_base merge_rules_override)
  = Some [("checkpoints", VList [VStr "m0"; VStr "m1"]); ("loras", VList [VStr "l0"])].
Proof.
  pose proof (merge_dicts_obeys_rules merge_rules_base merge_rules_override
                eq_refl ["models"] _ _ eq_refl eq_refl) as [H _].
  exact H.
Defined.

(** ** The simple loader and its cache *)

Section SimpleLoader.

Implicit Types (fs : files) (c : cache) (name : string) (d doc config : dict).

Lemma cache_coherent_empty fs : cache_coherent fs ∅.
Proof. intros name d H. by rewrite lookup_empty in H. Qed.

Lemma cache_coherent_insert fs c name d depth :
  cache_coherent fs c -> resolve depth fs name = Ok d ->
  cache_coherent fs (<[name := d]> c).
Proof.
  intros Hc Hr n d'. rewrite lookup_insert.
  case_decide; [intros [= <-]; subst; eauto | apply Hc].
Qed.

(** One call: the cache only grows, a returned document is cached under the
    name, and it is what the cache-free resolver yields. *)
(** The body of [load_config], one call deep. *)
Lemma load_config_S depth fs c name :
  load_config (S depth) fs c name =
  match c !! name with
  | Some cached => (Ok cached, c)
  | None =>
      match fs !! name with
      | None => (Raise (FileNotFoundError name), c)
      | Some config =>
          match Dict.get "extends" config with
          | Some (VStr base_name) =>
              match load_config depth fs c (normalize_name base_name) with
              | (Ok base_config, c1) =>
                  let merged := merge_dicts base_config (Dict.del "extends" config) in
                  (Ok merged, <[name := merged]> c1)
              | (Raise e, c1) => (Raise e, c1)
              end
          | Some _ => (Raise AttributeError, c)
          | None => (Ok config, <[name := config]> c)
          end
      end
  end.
Proof. reflexivity. Qed.

Lemma subseteq_insert_fresh {V} (c c1 : gmap string V) name (x : V) :
  c !! name = None -> c ⊆ c1 -> c ⊆ <[name := x]> c1.
Proof.
  intros Hn Hsub. apply map_subseteq_spec. intros i y Hi.
  destruct (decide (i = name)) as [->|Hne]; [congruence|].
  rewrite lookup_insert_ne by done.
  by eapply lookup_weaken.
Qed.

Lemma load_config_spec depth : forall fs c name r c',
  load_config depth fs c name = (r, c') ->
  c ⊆ c' /\
  (cache_coherent fs c -> cache_coherent fs c') /\
  (forall d, r = Ok d ->
     c' !! name = Some d /\
     (cache_coherent fs c -> exists k, resolve k fs name = Ok d)).
Proof.
  induction depth as [|depth IH]; intros fs c name r c'; simpl.
  { intros [= <- <-]. split; [done|]. split; [done|]. intros d [=]. }
  destruct (c !! name) as [cached|] eqn:Hc.
  { intros [= <- <-]. split; [done|]. split; [done|].
    intros d [= <-]. split; [done|]. intros Hco. by apply Hco. }
  destruct (fs !! name) as [config|] eqn:Hf.
  2:{ intros [= <- <-]. split; [done|]. split; [done|]. intros d [=]. }
  destruct (Dict.get "extends" config) as [ext|] eqn:He.
  2:{ intros [= <- <-].
      assert (Hr : resolve 1 fs name = Ok config) by (simpl; by rewrite Hf, He).
      split; [by apply insert_subseteq|].
      split; [intros Hco; by eapply cache_coherent_insert|].
      intros d [= <-]. rewrite lookup_insert_eq. eauto. }
  destruct ext as [| | |raw| |];
    try (intros [= <- <-]; split; [done|]; split; [done|]; intros d [=]).
  destruct (load_config depth fs c (normalize_name raw)) as [[base|e] c1] eqn:Hb;
    apply IH in Hb as (Hsub & Hco1 & Hok).
  2:{ intros [= <- <-]. split; [done|]. split; [done|]. intros d [=]. }
  intros [= <- <-].
  destruct (Hok base eq_refl) as [_ Hres].
  assert (Hr : cache_coherent fs c -> exists k,
             resolve k fs name = Ok (merge_dicts base (Dict.del "extends" config))).
  { intros Hco. destruct (Hres Hco) as [k Hk]. exists (S k).
    simpl. by rewrite Hf, He, Hk. }
  split; [by apply subseteq_insert_fresh|].
  split.
  - intros Hco. destruct (Hr Hco) as [k Hk].
    eapply cache_coherent_insert; eauto.
  - intros d [= <-]. rewrite lookup_insert_eq. auto.
Qed.

Lemma lifetime_coherent fs c : lifetime simple_loader fs c -> cache_coherent fs c.
Proof.
  unfold lifetime. induction 1 as [|depth c name r c' _ IH Hcall].
  - apply cache_coherent_empty.
  - apply load_config_spec in Hcall as (_ & Hco & _). auto.
Qed.

(** Facts about the cache-free resolver. *)

Lemma resolve_source depth fs name d :
  resolve depth fs name = Ok d -> is_Some (fs !! name).
Proof.
  destruct depth as [|depth]; simpl; [done|].
  destruct (fs !! name); [eauto | done].
Qed.

Lemma resolve_no_extends depth : forall fs name d,
  resolve depth fs name = Ok d -> no_extends d.
Proof.
  induction depth as [|depth IH]; intros fs name d; simpl; [done|].
  destruct (fs !! name) as [config|]; [|done].
  destruct (Dict.get "extends" config) as [[| | |raw| |]|] eqn:He; try done.
  - destruct (resolve depth fs (normalize_name raw)) as [base|] eqn:Hb; [|done].
    simpl. intros [= <-]. unfold no_extends.
    rewrite get_merge_dicts_absent by apply get_del_eq.
    by eapply IH.
  - by intros [= <-].
Qed.

Lemma resolve_missing_ancestor depth fs name config raw :
  fs !! name = Some config ->
  Dict.get "extends" config = Some (VStr raw) ->
  fs !! normalize_name raw = None ->
  resolve (S (S depth)) fs name = Raise (FileNotFoundError (normalize_name raw))
  /\ forall k d, resolve k fs name <> Ok d.
Proof.
  intros Hf He Hb. split.
  - simpl. by rewrite Hf, He, Hb.
  - intros [|k] d; simpl; [done|]. rewrite Hf, He.
    destruct (resolve k fs (normalize_name raw)) as [base|] eqn:Hr; [|done].
    apply resolve_source in Hr as [? ?]. congruence.
Qed.

Lemma resolve_deterministic depth : forall depth' fs name d d',
  resolve depth fs name = Ok d -> resolve depth' fs name = Ok d' -> d = d'.
Proof.
  induction depth as [|depth IH]; intros [|depth'] fs name d d'; simpl; try done.
  destruct (fs !! name) as [config|]; [|done].
  destruct (Dict.get "extends" config) as [[| | |raw| |]|]; try done.
  - destruct (resolve depth fs (normalize_name raw)) as [base|] eqn:Hb; [|done].
    destruct (resolve depth' fs (normalize_name raw)) as [base'|] eqn:Hb'; [|done].
    simpl. intros [= <-] [= <-]. by rewrite (IH _ _ _ _ _ Hb Hb').
  - by intros [= <-] [= <-].
Qed.

Lemma load_config_missing_source depth fs c name :
  cache_coherent fs c -> fs !! name = None ->
  load_config (S depth) fs c name = (Raise (FileNotFoundError name), c).
Proof.
  intros Hco Hf.
  assert (Hc : c !! name = None).
  { destruct (c !! name) as [d|] eqn:E; [|done].
    destruct (Hco _ _ E) as [k Hk].
    apply resolve_source in Hk as [? ?]. congruence. }
  by rewrite load_config_S, Hc, Hf.
Qed.

End SimpleLoader.

(** ** The HiYaPyCo loader and its cache *)

Section HiyapycoLoader.

Variable hiyapyco_load : list dict -> result dict.

Implicit Types (fs : files) (c : cache) (name : string) (d doc config : dict).

Abbreviation hload := (hiyapyco_load_config hiyapyco_load).

Lemma hload_miss fs c name :
  c !! name = None ->
  hload fs c name =
  match (hload fs ∅ name).1 with
  | Ok merged => (Ok merged, <[name := merged]> c)
  | Raise e => (Raise e, c)
  end.
Proof.
  intros Hc. unfold hiyapyco_load_config. rewrite Hc, lookup_empty.
  destruct (fs !! name) as [temp|]; [|done].
  match goal with |- match ?m with _ => _ end = _ => destruct m end; done.
Qed.

Lemma hload_spec fs c name r c' :
  hload fs c name = (r, c') ->
  c ⊆ c' /\
  (hcache_coherent hiyapyco_load fs c -> hcache_coherent hiyapyco_load fs c') /\
  (forall d, r = Ok d ->
     c' !! name = Some d /\
     (hcache_coherent hiyapyco_load fs c -> (hload fs ∅ name).1 = Ok d)).
Proof.
  destruct (c !! name) as [cached|] eqn:Hc.
  - unfold hiyapyco_load_config at 1. rewrite Hc. intros [= <- <-].
    split; [done|]. split; [done|]. intros d [= <-]. split; [done|].
    intros Hco. by apply Hco.
  - rewrite (hload_miss _ _ _ Hc).
    destruct (hload fs ∅ name).1 as [merged|e] eqn:Hfresh; intros [= <- <-].
    + split; [by apply insert_subseteq|]. split.
      * intros Hco n d. rewrite lookup_insert.
        case_decide; [intros [= <-]; by subst | apply Hco].
      * intros d [= <-]. by rewrite lookup_insert_eq.
    + split; [done|]. split; [done|]. intros d [=].
Qed.

Lemma hlifetime_coherent fs c :
  lifetime (hiyapyco_loader hiyapyco_load) fs c -> hcache_coherent hiyapyco_load fs c.
Proof.
  unfold lifetime. induction 1 as [|depth c name r c' _ IH Hcall].
  - intros name d H. by rewrite lookup_empty in H.
  - apply hload_spec in Hcall as (_ & Hco & _). auto.
Qed.

Lemma hload_fresh_source fs name d :
  (hload fs ∅ name).1 = Ok d -> is_Some (fs !! name).
Proof.
  unfold hiyapyco_load_config. rewrite lookup_empty.
  destruct (fs !! name); [eauto | done].
Qed.

Lemma strip_no_extends d :
  no_extends (if Dict.mem "extends" d then Dict.del "extends" d else d).
Proof.
  unfold no_extends, Dict.mem.
  destruct (Dict.get "extends" d) eqn:E; [apply get_del_eq | done].
Qed.

Lemma bind_Ok {A B} (r : result A) (k : A -> result B) b :
  bind r k = Ok b -> exists a, r = Ok a /\ k a = Ok b.
Proof. destruct r; simpl; [eauto | done]. Qed.

Lemma hload_fresh_no_extends fs name d :
  (hload fs ∅ name).1 = Ok d -> no_extends d.
Proof.
  unfold hiyapyco_load_config. rewrite lookup_empty.
  destruct (fs !! name) as [temp|]; [|done].
  match goal with |- (match ?m with _ => _ end).1 = _ -> _ =>
    destruct m as [merged|] eqn:Hm end; [|done].
  simpl. intros [= <-].
  apply bind_Ok in Hm as (cf & _ & Hm).
  apply bind_Ok in Hm as (m & _ & [= <-]).
  apply strip_no_extends.
Qed.

Lemma hload_missing_source fs c name :
  hcache_coherent hiyapyco_load fs c -> fs !! name = None ->
  hload fs c name = (Raise (FileNotFoundError name), c).
Proof.
  intros Hco Hf.
  assert (Hc : c !! name = None).
  { destruct (c !! name) as [d|] eqn:E; [|done].
    apply Hco, hload_fresh_source in E as [? ?]. congruence. }
  unfold hiyapyco_load_config. by rewrite Hc, Hf.
Qed.

(** With the ancestor's file missing the loader takes the single-file
    branch. *)
Lemma hload_fresh_missing_ancestor fs name config raw :
  fs !! name = Some config ->
  Dict.get "extends" config = Some (VStr raw) ->
  fs !! normalize_name raw = None ->
  (hload fs ∅ name).1 = Ok (Dict.del "extends" config).
Proof.
  intros Hf He Hb. unfold hiyapyco_load_config.
  rewrite lookup_empty, Hf, He, Hb. simpl.
  unfold Dict.mem. by rewrite He.
Qed.

End HiyapycoLoader.

(** ** Resolution: errors and the [extends] field *)

Example normalize_decorated : normalize_name "config-base.yaml" = "base".
Proof. reflexivity. Qed.

Example normalize_plain : normalize_name "base" = "base".
Proof. reflexivity. Qed.

(** The first scenario of the specification. *)
Example resolve_child_scenario :
  (load_config 3 sample_fs ∅ "child").1
  = Ok [ ("name", VStr "child"); ("version", VStr "1.0");
         ("nodes", VList [VStr "repoA"; VStr "repoB"]) ].
Proof. vm_compute. reflexivity. Qed.

Lemma sample_lifetime_simple :
  lifetime simple_loader sample_fs (load_config 3 sample_fs ∅ "child").2.
Proof.
  eapply (later_call simple_loader sample_fs ∅ 3 ∅ "child").
  - apply later_refl.
  - apply surjective_pairing.
Defined.

Lemma sample_lifetime_hiyapyco :
  lifetime (hiyapyco_loader sample_hiyapyco_load) sample_fs
    (hiyapyco_load_config sample_hiyapyco_load sample_fs ∅ "child").2.
Proof.
  eapply (later_call (hiyapyco_loader sample_hiyapyco_load) sample_fs ∅ 0 ∅ "child").
  - apply later_refl.
  - apply surjective_pairing.
Defined.

(** C3. Whatever a loader returns during its lifetime has no top-level
    [extends] key; the document cached under the name is that same
    document, and no document in the cache has the key either. *)
Theorem resolved_has_no_extends
    (hiyapyco_load : list dict -> result dict)
    (fs : files) (c : cache) (depth : nat) (name : string)
    (doc : dict) (c' : cache) :
  (lifetime simple_loader fs c /\ load_config depth fs c name = (Ok doc, c'))
  \/ (lifetime (hiyapyco_loader hiyapyco_load) fs c
      /\ hiyapyco_load_config hiyapyco_load fs c name = (Ok doc, c')) ->
  no_extends doc /\ c' !! name = Some doc /\ cache_no_extends c'.
Proof.
  intros [[Hlife Hcall]|[Hlife Hcall]].
  - pose proof (lifetime_coherent _ _ Hlife) as Hco.
    apply load_config_spec in Hcall as (_ & Hco' & Hok).
    destruct (Hok doc eq_refl) as [Hcached Hres].
    destruct (Hres Hco) as [k Hk].
    split; [by eapply resolve_no_extends|]. split; [done|].
    intros n d Hn. destruct (Hco' Hco n d Hn) as [k' Hk'].
    by eapply resolve_no_extends.
  - pose proof (hlifetime_coherent _ _ _ Hlife) as Hco.
    apply hload_spec in Hcall as (_ & Hco' & Hok).
    destruct (Hok doc eq_refl) as [Hcached Hres].
    split; [eapply hload_fresh_no_extends; eauto|]. split; [done|].
    intros n d Hn. eapply hload_fresh_no_extends. by apply Hco'.
Qed.

Lemma resolved_has_no_extends_witness :
  let cached := (load_config 3 sample_fs ∅ "child").2 in
  let resolved := [ ("name", VStr "child"); ("version", VStr "1.0");
                    ("nodes", VList [VStr "repoA"; VStr "repoB"]) ] in
  no_extends resolved /\ cached !! "child" = Some resolved /\ cache_no_extends cached.
Proof.
  intros cached resolved.
  apply (resolved_has_no_extends sample_hiyapyco_load sample_fs
           cached 2 "child" resolved cached).
  left. split.
  - exact sample_lifetime_simple.
  - vm_compute. reflexivity.
Defined.

(** C4. A name without a source file: the call raises the not-found error
    for that name and hands back no document; the cache is left as it
    was.  This holds at any point of a loader's lifetime over the
    directory, for both loaders. *)
Theorem missing_source_raises_not_found
    (hiyapyco_load : list dict -> result dict) (fs : files) (name : string) :
  fs !! name = None ->
  (forall c depth,
     lifetime simple_loader fs c ->
     load_config (S depth) fs c name = (Raise (FileNotFoundError name), c))
  /\ (forall c,
        lifetime (hiyapyco_loader hiyapyco_load) fs c ->
        hiyapyco_load_config hiyapyco_load fs c name
        = (Raise (FileNotFoundError name), c)).
Proof.
  intros Hf. split.
  - intros c depth Hlife. apply lifetime_coherent in Hlife.
    by apply load_config_missing_source.
  - intros c Hlife. apply hlifetime_coherent in Hlife.
    by apply hload_missing_source.
Qed.

Lemma missing_source_raises_not_found_witness :
  load_config 1 sample_fs (load_config 3 sample_fs ∅ "child").2 "ghost"
  = (Raise (FileNotFoundError "ghost"), (load_config 3 sample_fs ∅ "child").2).
Proof.
  apply (proj1 (missing_source_raises_not_found
                  sample_hiyapyco_load sample_fs "ghost" eq_refl)).
  exact sample_lifetime_simple.
Defined.

(** C2, as stated, fails on both loaders: for [orphan], whose [extends]
    names the absent [ghost], the simple loader raises the not-found
    error itself and the HiYaPyCo loader returns a document. *)
Lemma missing_ancestor_error_refuted :
  ~ missing_ancestor_claim_at (load_config 10) sample_fs "orphan"
  /\ ~ missing_ancestor_claim_at
         (hiyapyco_load_config sample_hiyapyco_load) sample_fs "orphan".
Proof.
  split; intros H;
    specialize (H orphan_doc "config-ghost.yaml" eq_refl eq_refl eq_refl);
    vm_compute in H; done.
Qed.

(** C2, amended. With the file of the [extends] target missing, at any
    point of a loader's lifetime over the directory: the simple loader
    raises the not-found error, for the target's normalised name, and
    leaves the cache as it was; the HiYaPyCo loader returns the single
    file's document with its [extends] field removed. *)
Theorem missing_ancestor_behaviour
    (hiyapyco_load : list dict -> result dict)
    (fs : files) (name : string) (config : dict) (raw : string) :
  fs !! name = Some config ->
  Dict.get "extends" config = Some (VStr raw) ->
  fs !! normalize_name raw = None ->
  (forall c depth,
     lifetime simple_loader fs c ->
     load_config (S (S depth)) fs c name
     = (Raise (FileNotFoundError (normalize_name raw)), c))
  /\ (forall c,
        lifetime (hiyapyco_loader hiyapyco_load) fs c ->
        (hiyapyco_load_config hiyapyco_load fs c name).1
        = Ok (Dict.del "extends" config)).
Proof.
  intros Hf He Hb. split.
  - intros c depth Hlife.
    pose proof (lifetime_coherent _ _ Hlife) as Hco.
    destruct (resolve_missing_ancestor 0 fs name config raw Hf He Hb) as [_ Hnever].
    assert (Hc : c !! name = None).
    { destruct (c !! name) as [d|] eqn:E; [|done].
      destruct (Hco _ _ E) as [k Hk]. by apply Hnever in Hk. }
    rewrite load_config_S, Hc, Hf, He. cbv zeta.
    by rewrite (load_config_missing_source depth fs c _ Hco Hb).
  - intros c Hlife. apply hlifetime_coherent in Hlife.
    pose proof (hload_fresh_missing_ancestor hiyapyco_load fs name config raw Hf He Hb)
      as Hfresh.
    destruct (c !! name) as [d|] eqn:Hc.
    + unfold hiyapyco_load_config. rewrite Hc. simpl.
      rewrite <- Hfresh. symmetry. by apply Hlife.
    + rewrite (hload_miss _ _ _ _ Hc), Hfresh. done.
Qed.

Lemma missing_ancestor_behaviour_witness :
  (hiyapyco_load_config sample_hiyapyco_load sample_fs
     (hiyapyco_load_config sample_hiyapyco_load sample_fs ∅ "child").2 "orphan").1
  = Ok [("name", VStr "orphan"); ("version", VStr "2.0")].
Proof.
  apply (proj2 (missing_ancestor_behaviour sample_hiyapyco_load sample_fs "orphan"
                  orphan_doc "config-ghost.yaml" eq_refl eq_refl eq_refl)).
  exact sample_lifetime_hiyapyco.
Defined.

(** ** Termination of the recursion over [extends] *)

Section Termination.

Implicit Types (fs : files) (c : cache) (name : string).

Lemma NoDup_sources_length fs (l : list string) :
  NoDup l -> (forall x, x ∈ l -> is_Some (fs !! x)) -> length l <= size fs.
Proof.
  intros Hnd Hsrc.
  rewrite <- (size_list_to_set (C := gset string) l Hnd), <- (size_dom fs).
  apply subseteq_size. intros x Hx.
  apply elem_of_list_to_set in Hx. by apply elem_of_dom, Hsrc.
Qed.

Lemma extends_step_det fs a b b' :
  extends_step fs a b -> extends_step fs a b' -> b = b'.
Proof. unfold extends_step. congruence. Qed.

Lemma parent_Some fs name b :
  parent fs name = Some b ->
  exists config raw,
    fs !! name = Some config /\ Dict.get "extends" config = Some (VStr raw)
    /\ b = normalize_name raw.
Proof.
  unfold parent, extends_target.
  destruct (fs !! name) as [config|]; [|done].
  destruct (Dict.get "extends" config) as [[| | |raw| |]|] eqn:He; try done.
  intros [= <-]. by exists config, raw.
Qed.

Lemma parent_of_extends fs name config raw :
  fs !! name = Some config -> Dict.get "extends" config = Some (VStr raw) ->
  parent fs name = Some (normalize_name raw).
Proof. intros Hf He. unfold parent, extends_target. by rewrite Hf, He. Qed.

(** While descending from [start], [seen] collects the names already passed;
    on an acyclic chain they are pairwise distinct files, so the descent
    is at most [size fs] calls deep. *)
Lemma load_config_descends fs start
    (Hacyc : acyclic_chain fs start)
    (Hsrc : sources_exist fs start)
    (Hnames : extends_are_names fs start) depth :
  forall seen name c,
    in_chain fs start name ->
    NoDup seen ->
    (forall x, x ∈ seen -> in_chain fs start x /\ tc (extends_step fs) x name) ->
    size fs - length seen <= depth ->
    exists doc c', load_config depth fs c name = (Ok doc, c').
Proof.
  induction depth as [|depth IH]; intros seen name c Hin Hnd Hseen Hdepth.
  all: assert (Hfresh : name ∉ seen)
         by (intros Hx; apply Hseen in Hx as [_ Hcyc]; by apply (Hacyc name)).
  all: assert (Hlen : S (length seen) <= size fs).
  1,3: apply (NoDup_sources_length fs (name :: seen));
       [by apply NoDup_cons
       |intros x [->|Hx]%elem_of_cons; [by apply Hsrc | by apply Hsrc, Hseen]].
  { lia. }
  rewrite load_config_S.
  destruct (c !! name) as [cached|]; [eauto|].
  destruct (Hsrc name Hin) as [config Hf]. rewrite Hf.
  destruct (Dict.get "extends" config) as [v|] eqn:He; [|eauto].
  destruct (Hnames name config v Hin Hf He) as [raw ->].
  pose proof (parent_of_extends _ _ _ _ Hf He) as Hstep.
  destruct (IH (name :: seen) (normalize_name raw) c) as (base & c1 & ->).
  - eapply rtc_r; eauto.
  - by apply NoDup_cons.
  - intros x [->|Hx]%elem_of_cons.
    + split; [done | by apply tc_once].
    + destruct (Hseen x Hx) as [Hx1 Hx2]. split; [done|].
      eapply tc_r; eauto.
  - simpl. lia.
  - eauto.
Qed.

(** On a cycle every name of the chain has an [extends] target. *)
Lemma cycle_closed fs name :
  tc (extends_step fs) name name ->
  forall m, in_chain fs name m -> tc (extends_step fs) m m.
Proof.
  intros Hcyc m Hin. induction Hin as [|a b m Hab _ IH]; [done|].
  apply IH. inversion Hcyc as [? ? Hab'|? b' ? Hab' Hrest]; subst.
  - by rewrite (extends_step_det _ _ _ _ Hab Hab').
  - rewrite (extends_step_det _ _ _ _ Hab Hab'). eapply tc_r; eauto.
Qed.

Lemma tc_has_parent fs m : tc (extends_step fs) m m -> is_Some (parent fs m).
Proof. inversion 1 as [? ? H1|? ? ? H1 _]; subst; rewrite H1; eauto. Qed.

Lemma endless_chain_step fs name b :
  endless_chain fs name -> parent fs name = Some b -> endless_chain fs b.
Proof. intros H Hp m Hm. apply H. eapply rtc_l; eauto. Qed.

Lemma resolve_endless depth : forall fs name d,
  endless_chain fs name -> resolve depth fs name <> Ok d.
Proof.
  induction depth as [|depth IH]; intros fs name d Hend; simpl; [done|].
  destruct (Hend name (rtc_refl _ _)) as [b Hp].
  destruct (parent_Some _ _ _ Hp) as (config & raw & -> & -> & ->).
  destruct (resolve depth fs (normalize_name raw)) as [base|] eqn:Hr; [|done].
  exfalso. eapply IH; [|exact Hr]. by eapply endless_chain_step.
Qed.

Lemma load_config_endless depth : forall fs c name,
  endless_chain fs name -> cache_coherent fs c ->
  load_config depth fs c name = (Raise RecursionError, c).
Proof.
  induction depth as [|depth IH]; intros fs c name Hend Hco; [done|].
  rewrite load_config_S.
  destruct (c !! name) as [cached|] eqn:Hc.
  { destruct (Hco _ _ Hc) as [k Hk]. by apply resolve_endless in Hk. }
  destruct (Hend name (rtc_refl _ _)) as [b Hp].
  destruct (parent_Some _ _ _ Hp) as (config & raw & -> & -> & ->).
  rewrite IH; [done | by eapply endless_chain_step | done].
Qed.

End Termination.

Section SampleChains.

Local Ltac eval_step H :=
  unfold extends_step in H; vm_compute in H;
  first [discriminate H | injection H as <-].

Lemma sample_chain_child m :
  in_chain sample_fs "child" m -> m = "child" \/ m = "base".
Proof.
  intros H. inversion H as [|? b ? Hstep Hrest]; subst; [by left|].
  eval_step Hstep. right.
  inversion Hrest as [|? b ? Hstep' _]; subst; [done|].
  eval_step Hstep'.
Qed.

Lemma sample_acyclic : acyclic_chain sample_fs "child".
Proof.
  intros m [->| ->]%sample_chain_child Hcyc.
  - inversion Hcyc as [? ? H1|? b ? H1 H2]; subst; eval_step H1.
    inversion H2 as [? ? H3|? b ? H3 _]; subst; eval_step H3.
  - inversion Hcyc as [? ? H1|? b ? H1 _]; subst; eval_step H1.
Qed.

Lemma sample_sources : sources_exist sample_fs "child".
Proof. intros m [->| ->]%sample_chain_child; vm_compute; eauto. Qed.

Lemma sample_names : extends_are_names sample_fs "child".
Proof.
  intros m config v [->| ->]%sample_chain_child Hf He;
    vm_compute in Hf; injection Hf as <-;
    vm_compute in He; [injection He as <-; eauto | discriminate He].
Qed.

Lemma cyclic_fs_cycle : tc (extends_step cyclic_fs) "a" "a".
Proof.
  apply (tc_l _ "a" "b" "a"); [|apply tc_once]; vm_compute; reflexivity.
Qed.

End SampleChains.

(** ** The include marker *)

Section IncludeMarker.

Implicit Types (fs : files) (c : cache) (name key : string) (config : dict).

(** A sequence of the descendant reaches the resolved document whole, after
    whatever the ancestor contributes under the same key. *)
Lemma resolve_keeps_list depth fs name config key items d :
  resolve depth fs name = Ok d ->
  fs !! name = Some config ->
  NoDup (Dict.keys config) ->
  key <> "extends" ->
  Dict.get key config = Some (VList items) ->
  exists pre, Dict.get key d = Some (VList (pre ++ items)).
Proof.
  destruct depth as [|depth]; simpl; [done|].
  intros Hr Hf Hnd Hkey Hget. rewrite Hf in Hr.
  destruct (Dict.get "extends" config) as [[| | |raw| |]|] eqn:He; try done.
  - destruct (resolve depth fs (normalize_name raw)) as [base|]; [|done].
    simpl in Hr. injection Hr as <-.
    rewrite (get_merge_dicts_present base _ key (VList items)).
    + destruct (Dict.get key base) as [[| | | |bl|]|];
        first [by exists bl | by exists []].
    + by apply NoDup_keys_del.
    + by rewrite get_del_ne.
  - injection Hr as <-. by exists [].
Qed.

(** C9. [create_config] writes the marker ["!include base"] as the one entry
    of [nodes] and of [requirements]; and resolution does not expand it:
    when a source document binds a key to a sequence holding the marker,
    the resolved document binds that key to a sequence that ends with the
    document's own entries, unchanged and in order, so the marker is
    still a literal entry and nothing was spliced in at its position. *)
Theorem include_marker_not_expanded :
  (forall name base_image,
     Dict.get "nodes" (config_data name base_image) = Some (VList [include_marker])
     /\ Dict.get "requirements" (config_data name base_image)
        = Some (VList [include_marker]))
  /\ (forall fs c depth name config key items resolved c',
        lifetime simple_loader fs c ->
        fs !! name = Some config ->
        NoDup (Dict.keys config) ->
        key <> "extends" ->
        Dict.get key config = Some (VList items) ->
        include_marker ∈ items ->
        load_config depth fs c name = (Ok resolved, c') ->
        exists pre,
          Dict.get key resolved = Some (VList (pre ++ items))
          /\ include_marker ∈ pre ++ items).
Proof.
  split; [done|].
  intros fs c depth name config key items resolved c' Hlife Hf Hnd Hkey Hget Hin Hcall.
  apply lifetime_coherent in Hlife.
  apply load_config_spec in Hcall as (_ & _ & Hok).
  destruct (Hok resolved eq_refl) as [_ Hres].
  destruct (Hres Hlife) as [k Hk].
  destruct (resolve_keeps_list _ _ _ _ _ _ _ Hk Hf Hnd Hkey Hget) as [pre Hpre].
  exists pre. split; [done|]. apply elem_of_app. by right.
Qed.

End IncludeMarker.

Lemma include_marker_not_expanded_witness :
  let fs := (create_config sample_fs "custom" "effekt/runpod-comfyui:base").2 in
  exists resolved c' pre,
    load_config 3 fs ∅ "custom" = (Ok resolved, c')
    /\ Dict.get "nodes" resolved = Some (VList (pre ++ [include_marker])).
Proof.
  intros fs.
  destruct (load_config 3 fs ∅ "custom") as [[resolved|e] c'] eqn:Hcall;
    [|vm_compute in Hcall; discriminate Hcall].
  destruct (proj2 include_marker_not_expanded fs ∅ 3 "custom"
              (config_data "custom" "effekt/runpod-comfyui:base")
              "nodes" [include_marker] resolved c')
    as (pre & Hpre & _).
  - apply later_refl.
  - vm_compute. reflexivity.
  - compute_done.
  - discriminate.
  - reflexivity.
  - by left.
  - exact Hcall.
  - by exists resolved, c', pre.
Defined.

Example created_config_resolves :
  Dict.get "nodes"
    match (load_config 3 (create_config sample_fs "custom" "img").2 ∅ "custom").1 with
    | Ok resolved => resolved
    | Raise _ => []
    end
  = Some (VList [VStr "repoA"; VStr "!include base"]).
Proof. vm_compute. reflexivity. Qed.

(** ** Validation *)

Section Validation.

Implicit Types (doc config : dict) (nodes entries : list value).

Lemma check_required_spec doc :
  check_required ["name"; "version"] doc =
  if negb (Dict.mem "name" doc) then Some "name"
  else if negb (Dict.mem "version" doc) then Some "version"
  else None.
Proof. reflexivity. Qed.

Lemma check_nodes_total nodes : exists found, check_nodes nodes = Ok found.
Proof.
  induction nodes as [|node nodes [found IH]]; simpl; [eauto|].
  destruct node as [| | | | |d]; simpl; eauto.
  destruct (Dict.mem "url" d); simpl; eauto.
Qed.

Lemma check_nodes_None nodes :
  check_nodes nodes = Ok None <->
  forall d, VDict d ∈ nodes -> Dict.mem "url" d = true.
Proof.
  induction nodes as [|node nodes IH]; simpl.
  - split; [intros _ d Hd; by apply not_elem_of_nil in Hd | done].
  - assert (Hrest : forall P : dict -> Prop,
              (forall d, VDict d ∈ node :: nodes -> P d) <->
              (forall d, node = VDict d -> P d) /\ (forall d, VDict d ∈ nodes -> P d)).
    { intros P. split.
      - intros H. split; intros d Hd; apply H; [subst; by left | by right].
      - intros [H1 H2] d [Hd|Hd]%elem_of_cons; [by apply H1 | by apply H2]. }
    rewrite Hrest, <- IH.
    destruct node as [| | | | |d]; simpl;
      try (split; [intros H; split; [intros ? [=] | done] | by intros [_ H]]).
    destruct (Dict.mem "url" d) eqn:E; simpl.
    + split; [intros H; split; [by intros ? [= <-] | done] | by intros [_ H]].
    + split; [done | intros [H _]]. specialize (H d eq_refl). congruence.
Qed.

Lemma check_model_list_dicts entries :
  forallb isinstance_dict entries = true ->
  exists found,
    check_model_list entries = Ok found /\
    (found = None <->
     forall entry, entry ∈ entries ->
       exists d, entry = VDict d /\ Dict.mem "url" d = true /\ Dict.mem "name" d = true).
Proof.
  induction entries as [|entry entries IH]; simpl.
  - intros _. exists None. split; [done|]. split; [|done].
    intros _ e He. by apply not_elem_of_nil in He.
  - intros [Hd Hrest]%andb_true_iff. destruct entry as [| | | | |d]; try done.
    destruct (IH Hrest) as (found & Hfound & Hiff). simpl.
    destruct (Dict.mem "url" d) eqn:Eu; simpl;
      [destruct (Dict.mem "name" d) eqn:En; simpl|].
    + exists found. split; [done|]. rewrite Hiff. split.
      * intros H e [->|He]%elem_of_cons; [by exists d | by apply H].
      * intros H e He. apply H. by right.
    + exists (Some (VDict d)). split; [done|]. split; [done|].
      intros H. destruct (H (VDict d)) as (d' & [= <-] & _ & Hn); [by left|].
      congruence.
    + exists (Some (VDict d)). split; [done|]. split; [done|].
      intros H. destruct (H (VDict d)) as (d' & [= <-] & Hu & _); [by left|].
      congruence.
Qed.

Lemma check_models_shaped (categories : dict) :
  forallb (fun kv => is_list_of isinstance_dict kv.2) categories = true ->
  exists found,
    check_models categories = Ok found /\
    (found = None <->
     forall category entries entry,
       (category, VList entries) ∈ categories -> entry ∈ entries ->
       exists d, entry = VDict d /\ Dict.mem "url" d = true /\ Dict.mem "name" d = true).
Proof.
  induction categories as [|[category v] categories IH]; simpl.
  - intros _. exists None. split; [done|]. split; [|done].
    intros _ ? ? ? H. by apply not_elem_of_nil in H.
  - intros [Hv Hrest]%andb_true_iff. destruct v as [| | | |entries|]; try done.
    simpl in Hv. destruct (IH Hrest) as (found & Hfound & Hiff).
    destruct (check_model_list_dicts entries Hv) as (found0 & Hfound0 & Hiff0).
    simpl. rewrite Hfound0. simpl. destruct found0 as [model|].
    + exists (Some model). split; [done|]. split; [done|].
      intros H. apply Hiff0. intros e He. eapply H; [by left | done].
    + exists found. split; [done|]. rewrite Hiff. split.
      * intros H cat es e [[= <- <-]|Hin]%elem_of_cons He.
        -- by apply Hiff0.
        -- by eapply H.
      * intros H cat es e Hin He. eapply H; [by right | done].
Qed.

(** On a document of the expected shape no check raises, and the checks
    pass exactly when the document meets the requirements. *)
Lemma validate_document_shaped name doc :
  schema_shaped doc = true ->
  ((validate_document name doc).1 = true <-> validation_conditions doc)
  /\ (Dict.mem "name" doc = false ->
      validate_document name doc = (false, [ErrMissingRequiredField "name"]))
  /\ (Dict.mem "name" doc = true -> Dict.mem "version" doc = false ->
      validate_document name doc = (false, [ErrMissingRequiredField "version"])).
Proof.
  intros [Hnodes Hmodels]%andb_true_iff.
  unfold validate_document, validate_checks, validation_conditions.
  rewrite check_required_spec.
  destruct (Dict.mem "name" doc) eqn:En; simpl;
    [|split; [split; [done | by intros [? _]] | done]].
  destruct (Dict.mem "version" doc) eqn:Ev; simpl;
    [|split; [split; [done | by intros (_ & ? & _)] | done]].
  split; [|split; done].
  unfold get_default, nodes_carry_url, models_carry_url_and_name.
  assert (Hn : exists nodes,
            py_iter (match Dict.get "nodes" doc with Some v => v | None => VList [] end)
            = Ok nodes
            /\ ((forall items d, Dict.get "nodes" doc = Some (VList items) ->
                   VDict d ∈ items -> Dict.mem "url" d = true)
                <-> check_nodes nodes = Ok None)).
  { destruct (Dict.get "nodes" doc) as [[| | | |items|]|]; try done.
    - exists items. split; [done|]. rewrite check_nodes_None. split.
      + intros H d. by apply H.
      + intros H items' d [= <-]. apply H.
    - exists []. split; [done|]. split; [done|]. intros _ ? ? [=]. }
  destruct Hn as (nodes & -> & Hniff). simpl.
  destruct (check_nodes_total nodes) as [bad_node Hbad]. rewrite Hbad in *. simpl.
  destruct bad_node as [node|]; simpl.
  { split; [done|]. intros (_ & _ & H & _). apply Hniff in H. congruence. }
  assert (Hm : exists found,
            (models <- py_items (match Dict.get "models" doc with
                                 | Some v => v | None => VDict [] end) ;;
             check_models models) = Ok found
            /\ (found = None <->
                forall categories category entries entry,
                  Dict.get "models" doc = Some (VDict categories) ->
                  (category, VList entries) ∈ categories -> entry ∈ entries ->
                  exists d, entry = VDict d /\ Dict.mem "url" d = true
                            /\ Dict.mem "name" d = true)).
  { destruct (Dict.get "models" doc) as [[| | | | |categories]|]; try done.
    - destruct (check_models_shaped categories Hmodels) as (found & Hf & Hiff).
      exists found. split; [done|]. rewrite Hiff. split.
      + intros H cats cat es e [= <-]. apply H.
      + intros H cat es e. by apply H.
    - exists None. split; [done|]. split; [|done]. intros _ ? ? ? ? [=]. }
  destruct Hm as (found & Hfound & Hfiff).
  destruct (py_items _) as [models|]; simpl in *; [|done].
  rewrite Hfound. simpl. destruct found as [model|]; simpl.
  - split; [done|]. intros (_ & _ & _ & H). apply Hfiff in H. done.
  - split; [|done]. intros _. repeat split; try done.
    + by apply Hniff.
    + by apply Hfiff.
Qed.

(** Each run of the checks emits one record, the outcome going with it. *)
Lemma validate_document_one_record name config :
  exists record,
    validate_document name config = (negb (is_error record), [record])
    /\ (forall field, check_required ["name"; "version"] config = Some field ->
          record = ErrMissingRequiredField field).
Proof.
  unfold validate_document, validate_checks.
  destruct (check_required _ config) as [field|].
  { exists (ErrMissingRequiredField field). split; [done|]. by intros ? [= <-]. }
  destruct (py_iter _) as [nodes|e]; simpl;
    [|exists (ErrValidating e); split; done].
  destruct (check_nodes nodes) as [[node|]|e]; simpl;
    [exists (ErrNodeMissingURL node); split; done | |
     exists (ErrValidating e); split; done].
  destruct (py_items _) as [models|e]; simpl;
    [|exists (ErrValidating e); split; done].
  destruct (check_models models) as [[model|]|e]; simpl.
  - exists (ErrModelMissingFields model). split; done.
  - exists (InfoValid name). split; done.
  - exists (ErrValidating e). split; done.
Qed.

(** The loop over the nodes returns at the first mapping without [url]. *)
Lemma check_nodes_first pre d rest :
  (forall d', VDict d' ∈ pre -> Dict.mem "url" d' = true) ->
  Dict.mem "url" d = false ->
  check_nodes (pre ++ VDict d :: rest) = Ok (Some (VDict d)).
Proof.
  intros Hpre Hd. induction pre as [|node pre IH]; simpl.
  - by rewrite Hd.
  - assert (Hnode : (if isinstance_dict node
                     then has_url <- py_in "url" node ;; Ok (negb has_url)
                     else Ok false) = Ok false).
    { destruct node as [| | | | |d']; try done. simpl.
      by rewrite (Hpre d' (list_elem_of_here _ _)). }
    rewrite Hnode. simpl. apply IH. intros d' Hd'. apply Hpre. by right.
Qed.

(** The order of the checks: the required fields, then the nodes, then
    the models; the record is that of the first check that fails. *)
Lemma validate_document_order name config :
  exists record,
    validate_document name config = (negb (is_error record), [record])
    /\ (forall field, check_required ["name"; "version"] config = Some field ->
          record = ErrMissingRequiredField field)
    /\ (check_required ["name"; "version"] config = None ->
        forall nodes node,
          py_iter (get_default "nodes" config (VList [])) = Ok nodes ->
          check_nodes nodes = Ok (Some node) ->
          record = ErrNodeMissingURL node)
    /\ (check_required ["name"; "version"] config = None ->
        forall nodes models model,
          py_iter (get_default "nodes" config (VList [])) = Ok nodes ->
          check_nodes nodes = Ok None ->
          py_items (get_default "models" config (VDict [])) = Ok models ->
          check_models models = Ok (Some model) ->
          record = ErrModelMissingFields model).
Proof.
  unfold validate_document, validate_checks.
  destruct (check_required _ config) as [field|].
  { exists (ErrMissingRequiredField field).
    split; [done|]. split; [by intros ? [= <-]|]. split; done. }
  destruct (py_iter _) as [nodes|e]; simpl;
    [|exists (ErrValidating e); split; [done|]; split; [done|]; split;
      [by intros _ ? ? [=] | by intros _ ? ? ? [=]]].
  destruct (check_nodes nodes) as [[node|]|e] eqn:Hn; simpl.
  - exists (ErrNodeMissingURL node). split; [done|]. split; [done|]. split.
    + intros _ nodes' node' [= <-]. rewrite Hn. by intros [= <-].
    + intros _ nodes' models model [= <-]. by rewrite Hn.
  - destruct (py_items _) as [models|e]; simpl;
      [|exists (ErrValidating e); split; [done|]; split; [done|]; split;
        [intros _ nodes' node' [= <-]; by rewrite Hn
        |by intros _ ? ? ? _ _ [=]]].
    destruct (check_models models) as [[model|]|e] eqn:Hm; simpl.
    + exists (ErrModelMissingFields model). split; [done|]. split; [done|]. split.
      * intros _ nodes' node' [= <-]. by rewrite Hn.
      * intros _ nodes' models' model' _ _ [= <-]. rewrite Hm. by intros [= <-].
    + exists (InfoValid name). split; [done|]. split; [done|]. split.
      * intros _ nodes' node' [= <-]. by rewrite Hn.
      * intros _ nodes' models' model' _ _ [= <-]. by rewrite Hm.
    + exists (ErrValidating e). split; [done|]. split; [done|]. split.
      * intros _ nodes' node' [= <-]. by rewrite Hn.
      * intros _ nodes' models' model' _ _ [= <-]. by rewrite Hm.
  - exists (ErrValidating e). split; [done|]. split; [done|]. split.
    + intros _ nodes' node' [= <-]. by rewrite Hn.
    + intros _ nodes' models model [= <-]. by rewrite Hn.
Qed.

End Validation.

Section ValidationClaims.

Variable loader : files -> cache -> string -> result dict * cache.

Implicit Types (fs : files) (c : cache) (name : string) (doc : dict).

Lemma validate_config_resolved fs c name doc c' :
  is_Some (fs !! name) -> loader fs c name = (Ok doc, c') ->
  validate_config loader fs c name = (validate_document name doc, c').
Proof.
  intros [config Hf] Hcall. unfold validate_config. by rewrite Hf, Hcall.
Qed.

(** C5, amended. For a configuration that resolves to a document in which
    [nodes], when present, is a sequence and [models], when present, maps
    each category to a sequence of mappings: validation returns [True]
    exactly when the document has [name] and [version], every mapping
    under [nodes] has a [url], and every entry of every [models] category
    has [url] and [name]; a document without [name] fails with the one
    error naming [name], a document with [name] and without [version]
    fails with the one error naming [version]; and validation leaves the
    cache as resolution left it. *)
Theorem validation_decides_requirements fs c name doc c' :
  is_Some (fs !! name) ->
  loader fs c name = (Ok doc, c') ->
  schema_shaped doc = true ->
  ((validate_config loader fs c name).1.1 = true <-> validation_conditions doc)
  /\ (Dict.mem "name" doc = false ->
      (validate_config loader fs c name).1
      = (false, [ErrMissingRequiredField "name"]))
  /\ (Dict.mem "name" doc = true -> Dict.mem "version" doc = false ->
      (validate_config loader fs c name).1
      = (false, [ErrMissingRequiredField "version"]))
  /\ (validate_config loader fs c name).2 = c'.
Proof.
  intros Hf Hcall Hshape.
  rewrite (validate_config_resolved _ _ _ _ _ Hf Hcall). simpl.
  destruct (validate_document_shaped name doc Hshape) as (H1 & H2 & H3).
  done.
Qed.


End ValidationClaims.

Example sound_config_is_valid :
  (validate_config (load_config 3) validation_fs ∅ "sound").1
  = (true, [InfoValid "sound"]).
Proof. vm_compute. reflexivity. Qed.

(** C5, as stated, fails.  [textual] passes validation although its model
    entry, a string, carries neither field: the test ['url' not in model]
    is a substring test there.  [blank] lacks [version], and the error
    names [name] only. *)
Lemma validation_claim_refuted :
  ~ validation_iff_at (load_config 3) validation_fs "textual"
  /\ ~ missing_version_named_at (load_config 3) validation_fs "blank".
Proof.
  split; intros H.
  - assert (Hcall : load_config 3 validation_fs ∅ "textual"
                    = (Ok textual_doc, (load_config 3 validation_fs ∅ "textual").2))
      by (vm_compute; reflexivity).
    apply H in Hcall as [Hcond _].
    assert (Hvalid : (validate_config (load_config 3) validation_fs ∅ "textual").1.1
                     = true) by (vm_compute; reflexivity).
    apply Hcond in Hvalid as (_ & _ & _ & Hm).
    destruct (Hm _ "checkpoints" [textual_model] textual_model eq_refl)
      as (d & Hd & _); [by left | by left | discriminate Hd].
  - assert (Hcall : load_config 3 validation_fs ∅ "blank"
                    = (Ok [], (load_config 3 validation_fs ∅ "blank").2))
      by (vm_compute; reflexivity).
    specialize (H [] _ Hcall eq_refl).
    assert (Hlog : (validate_config (load_config 3) validation_fs ∅ "blank").1.2
                   = [ErrMissingRequiredField "name"]) by (vm_compute; reflexivity).
    rewrite Hlog in H. apply list_elem_of_singleton in H. discriminate H.
Qed.

Lemma validation_decides_requirements_witness :
  (validate_config (load_config 3) validation_fs ∅ "flawed").1
  = (false, [ErrMissingRequiredField "version"]).
Proof.
  destruct (validation_decides_requirements (load_config 3) validation_fs ∅
              "flawed" flawed_doc (load_config 3 validation_fs ∅ "flawed").2)
    as (_ & _ & H & _).
  - vm_compute. eauto.
  - vm_compute. reflexivity.
  - reflexivity.
  - apply H; reflexivity.
Defined.



(** ** The requirements artifact *)

Section Lines.

Lemma append_cons a (s t : string) :
  String.append (String a s) t = String a (String.append s t).
Proof. reflexivity. Qed.

Lemma append_nil_r (s : string) : String.append s EmptyString = s.
Proof. induction s as [|a s IH]; [done|]. by rewrite append_cons, IH. Qed.

Lemma append_assoc (s t u : string) :
  String.append (String.append s t) u = String.append s (String.append t u).
Proof. induction s as [|a s IH]; [done|]. by rewrite !append_cons, IH. Qed.

Lemma split_lines_aux_append s : forall cur rest,
  no_newline s = true ->
  split_lines_aux cur (String.append s rest)
  = split_lines_aux (String.append cur s) rest.
Proof.
  induction s as [|a s IH]; intros cur rest.
  - intros _. by rewrite append_nil_r.
  - intros [Ha Hs]%andb_true_iff. apply negb_true_iff in Ha.
    rewrite append_cons. cbn [split_lines_aux]. rewrite Ha.
    rewrite IH by done. by rewrite append_assoc.
Qed.

Lemma split_lines_aux_join items : forall cur first,
  Forall (fun r => no_newline r = true) (first :: items) ->
  split_lines_aux cur (join_lines (first :: items))
  = String.append cur first :: items.
Proof.
  induction items as [|second items IH]; intros cur first Hall.
  - apply Forall_cons in Hall as [Hfirst _].
    change (join_lines [first]) with first.
    rewrite <- (append_nil_r first) at 1.
    by rewrite split_lines_aux_append.
  - apply Forall_cons in Hall as [Hfirst Hrest].
    change (join_lines (first :: second :: items))
      with (String.append first
              (String.append newline (join_lines (second :: items)))).
    rewrite split_lines_aux_append by done.
    change (String.append newline ?s) with (String (ascii_of_nat 10) s).
    cbn [split_lines_aux]. rewrite Ascii.eqb_refl.
    by rewrite IH.
Qed.

(** Reading back the lines of a joined text. *)
Lemma split_lines_join items :
  items <> [] -> Forall (fun r => no_newline r = true) items ->
  split_lines (join_lines items) = items.
Proof.
  destruct items as [|first items]; [done|]. intros _ Hall.
  unfold split_lines. by rewrite split_lines_aux_join.
Qed.

End Lines.

Example lines_round_trip :
  split_lines (join_lines ["torch>=2.0"; "numpy"; "pillow"])
  = ["torch>=2.0"; "numpy"; "pillow"].
Proof. reflexivity. Qed.




(** ** The object store: what a call may change *)

Module StoreFacts.

Import Store.

(** Nested induction on values. *)
Lemma value_ind' (P : value -> Prop)
    (Hnull : P VNull) (Hbool : forall b, P (VBool b))
    (Hint : forall z, P (VInt z)) (Hstr : forall s, P (VStr s))
    (Hlist : forall items, Forall P items -> P (VList items))
    (Hdict : forall items, Forall (fun kv => P kv.2) items -> P (VDict items)) :
  forall v, P v.
Proof.
  fix IH 1. intros [| b | z | s | items | items].
  - exact Hnull.
  - apply Hbool.
  - apply Hint.
  - apply Hstr.
  - apply Hlist. induction items as [|x items IHitems]; constructor.
    + apply IH.
    + exact IHitems.
  - apply Hdict. induction items as [|[k x] items IHitems]; constructor.
    + apply IH.
    + exact IHitems.
Qed.

Section Monad.

Context {A B : Type}.

Lemma bind_eq (m : M A) (k : A -> M B) s a s1 :
  m s = (Ok a, s1) -> bind m k s = k a s1.
Proof. intros H. unfold bind. by rewrite H. Qed.

Lemma bind_inv (m : M A) (k : A -> M B) s r s' :
  bind m k s = (r, s') ->
  (exists a s1, m s = (Ok a, s1) /\ k a s1 = (r, s'))
  \/ (exists e, m s = (Raise e, s') /\ r = Raise e).
Proof.
  unfold bind. destruct (m s) as [[a|e] s1]; [eauto|].
  intros [= <- <-]. eauto.
Qed.

Lemma bind_inv_ok (m : M A) (k : A -> M B) s b s' :
  bind m k s = (Ok b, s') ->
  exists a s1, m s = (Ok a, s1) /\ k a s1 = (Ok b, s').
Proof.
  intros [H|(e & _ & [=])]%bind_inv. exact H.
Qed.

End Monad.

Lemma keeps_refl P s : keeps P s s.
Proof. split; auto. Qed.

Lemma keeps_trans P s1 s2 s3 : keeps P s1 s2 -> keeps P s2 s3 -> keeps P s1 s3.
Proof. intros [H1 C1] [H2 C2]. split; [auto | congruence]. Qed.

Lemma keeps_weaken (P Q : nat -> Prop) s s' :
  (forall l, Q l -> P l) -> keeps P s s' -> keeps Q s s'.
Proof. intros HPQ [H C]. split; auto. Qed.

Lemma keeps_length s s' :
  keeps (fun _ => True) s s' -> length (objects s) <= length (objects s').
Proof.
  intros [H _].
  destruct (decide (length (objects s) <= length (objects s'))) as [|Hgt]; [done|].
  destruct (lookup_lt_is_Some_2 (objects s) (length (objects s) - 1)) as [o Ho];
    [lia|].
  apply H, lookup_lt_Some in Ho; [lia | done].
Qed.

Section Stability.

Context (P : nat -> Prop).

Lemma stable_ret {A} (a : A) : stable (keeps P) (ret a).
Proof. intros s r s' [= <- <-]. apply keeps_refl. Qed.

Lemma stable_raise {A} e : stable (keeps P) (raise (A := A) e).
Proof. intros s r s' [= <- <-]. apply keeps_refl. Qed.

Lemma stable_bind {A B} (m : M A) (k : A -> M B) :
  stable (keeps P) m -> (forall a, stable (keeps P) (k a)) ->
  stable (keeps P) (bind m k).
Proof.
  intros Hm Hk s r s' [(a & s1 & H1 & H2)|(e & H1 & _)]%bind_inv.
  - eapply keeps_trans; [eapply Hm | eapply Hk]; eauto.
  - eapply Hm; eauto.
Qed.

Lemma stable_read l : stable (keeps P) (read l).
Proof.
  intros s r s'. unfold read.
  destruct (objects s !! l); intros [= <- <-]; apply keeps_refl.
Qed.

Lemma stable_alloc o : stable (keeps P) (alloc o).
Proof.
  intros s r s' [= <- <-]. split; [|done]. simpl.
  intros l o' _ Hl. by apply lookup_app_l_Some.
Qed.

Lemma stable_write l o : ~ P l -> stable (keeps P) (write l o).
Proof.
  intros Hl s r s' [= <- <-]. split; [|done]. simpl.
  intros l' o' HP Hl'. rewrite list_lookup_insert_ne; [done|].
  intros ->. done.
Qed.

Lemma stable_read_dict l : stable (keeps P) (read_dict l).
Proof.
  apply stable_bind; [apply stable_read|].
  intros [items|items]; [apply stable_raise | apply stable_ret].
Qed.

Lemma stable_read_list l : stable (keeps P) (read_list l).
Proof.
  apply stable_bind; [apply stable_read|].
  intros [items|items]; [apply stable_ret | apply stable_raise].
Qed.

Lemma stable_shape_of r : stable (keeps P) (shape_of r).
Proof.
  destruct r; try apply stable_ret.
  apply stable_bind; [apply stable_read | intros o; apply stable_ret].
Qed.

Lemma stable_setitem d key v : ~ P d -> stable (keeps P) (setitem d key v).
Proof.
  intros Hd. apply stable_bind; [apply stable_read_dict|].
  intros items. by apply stable_write.
Qed.

Lemma stable_delitem d key : ~ P d -> stable (keeps P) (delitem d key).
Proof.
  intros Hd. apply stable_bind; [apply stable_read_dict|].
  intros items. by apply stable_write.
Qed.

Lemma stable_merge_lists base override : stable (keeps P) (merge_lists base override).
Proof.
  apply stable_bind; [apply stable_read_list|]. intros b.
  apply stable_bind; [apply stable_read_list|]. intros o.
  apply stable_alloc.
Qed.

Lemma stable_merge_entry rec result key value :
  (forall lc lv, stable (keeps P) (rec lc lv)) -> ~ P result ->
  stable (keeps P) (merge_entry rec result key value).
Proof.
  intros Hrec Hres.
  apply stable_bind; [apply stable_read_dict|]. intros current.
  destruct (Dict.get key current) as [cur|]; [|by apply stable_setitem].
  apply stable_bind; [apply stable_shape_of|]. intros cs.
  apply stable_bind; [apply stable_shape_of|]. intros vs.
  destruct cs, vs, cur, value; try by apply stable_setitem.
  - apply stable_bind; [apply stable_merge_lists|].
    intros m. by apply stable_setitem.
  - apply stable_bind; [apply Hrec|].
    intros m. by apply stable_setitem.
Qed.

Lemma stable_merge_items rec result items :
  (forall lc lv, stable (keeps P) (rec lc lv)) -> ~ P result ->
  stable (keeps P) (merge_items rec result items).
Proof.
  intros Hrec Hres. induction items as [|[key value] items IH]; simpl.
  - apply stable_ret.
  - apply stable_bind; [by apply stable_merge_entry | intros _; exact IH].
Qed.

End Stability.

(** [_merge_dicts] leaves every object it was given as it is: its
    updates in place go to the copy it made. *)
Lemma stable_merge_dicts depth : forall base override,
  stable (keeps (fun _ => True)) (merge_dicts depth base override).
Proof.
  induction depth as [|depth IH]; intros base override; simpl.
  { apply stable_raise. }
  intros s r s' Hrun.
  apply bind_inv in Hrun as [(bitems & s0 & H0 & Hrun)|(e & H0 & _)];
    [|by eapply stable_read_dict].
  apply stable_read_dict with (P := fun _ => True) in H0.
  eapply keeps_trans; [exact H0|]. clear H0 s.
  apply bind_inv in Hrun as [(result & s1 & H1 & Hrun)|(e & [=] & _)].
  injection H1 as <- <-.
  assert (Hrest : keeps (fun l => l <> length (objects s0))
            (mkStore (objects s0 ++ [ODict bitems]) (cached s0)) s').
  { revert Hrun. apply stable_bind; [apply stable_read_dict|]. intros oitems.
    apply stable_bind; [|intros _; apply stable_ret].
    apply stable_merge_items; [|by intros H].
    intros lc lv. intros s2 r2 s2' H2.
    eapply keeps_weaken; [|eapply IH; eauto]. done. }
  destruct Hrest as [Hobj Hcache]. split; [|done].
  intros l o _ Hl. apply Hobj.
  - apply lookup_lt_Some in Hl. lia.
  - simpl. by apply lookup_app_l_Some.
Qed.

(** *** Denotation of references *)

Lemma repr_on_transfer (P Q : nat -> Prop) h h' :
  (forall l o, P l -> h !! l = Some o -> Q l /\ h' !! l = Some o) ->
  forall v r, repr_on P h v r -> repr_on Q h' v r.
Proof.
  intros HT v. induction v as [| | | |items IH|items IH] using value_ind';
    intros r Hr; inversion Hr as [| | | |l rs ? HP Hl Hitems|l rs ? HP Hl Hitems];
    subst; try constructor.
  - destruct (HT _ _ HP Hl) as [HQ Hl']. econstructor; [done | exact Hl' |].
    clear -IH Hitems. induction Hitems as [|x r items rs Hx _ IHrest];
      constructor; apply Forall_cons in IH as [IHx IH]; auto.
  - destruct (HT _ _ HP Hl) as [HQ Hl']. econstructor; [done | exact Hl' |].
    clear -IH Hitems. induction Hitems as [|x r items rs [Hk Hx] _ IHrest];
      constructor; apply Forall_cons in IH as [IHx IH]; auto.
Qed.

Lemma entries_repr_transfer (P Q : nat -> Prop) h h' d rs :
  (forall l o, P l -> h !! l = Some o -> Q l /\ h' !! l = Some o) ->
  entries_repr P h d rs -> entries_repr Q h' d rs.
Proof.
  intros HT H. induction H as [|kv kr d rs [Hk Hv] _ IH]; constructor; [|done].
  split; [done|]. by eapply repr_on_transfer.
Qed.

Lemma repr_on_keeps P s s' v r :
  keeps P s s' -> repr_on P (objects s) v r -> repr_on P (objects s') v r.
Proof. intros [Hk _]. apply repr_on_transfer. auto. Qed.

Lemma entries_repr_keeps P s s' d rs :
  keeps P s s' -> entries_repr P (objects s) d rs -> entries_repr P (objects s') d rs.
Proof. intros [Hk _]. apply entries_repr_transfer. auto. Qed.

Lemma entries_get P h d rs key :
  entries_repr P h d rs ->
  match Dict.get key d, Dict.get key rs with
  | Some v, Some r => repr_on P h v r
  | None, None => True
  | _, _ => False
  end.
Proof.
  induction 1 as [|[k v] [k' r] d rs [Hk Hv] _ IH]; simpl; [done|].
  simpl in Hk, Hv. subst k'. by destruct (String.eqb key k).
Qed.

Lemma entries_set P h d rs key v r :
  entries_repr P h d rs -> repr_on P h v r ->
  entries_repr P h (Dict.set key v d) (Dict.set key r rs).
Proof.
  intros H Hv. induction H as [|[k w] [k' r'] d rs [Hk Hw] Hrest IH]; simpl.
  - by repeat constructor.
  - simpl in Hk, Hw. subst k'. destruct (String.eqb key k); by constructor.
Qed.

Lemma entries_del P h d rs key :
  entries_repr P h d rs -> entries_repr P h (Dict.del key d) (Dict.del key rs).
Proof.
  induction 1 as [|[k w] [k' r'] d rs [Hk Hw] Hrest IH]; simpl; [constructor|].
  simpl in Hk, Hw. subst k'. destruct (String.eqb key k); [done | by constructor].
Qed.

(** *** The primitives on a known store *)

Lemma read_dict_ok s l items :
  objects s !! l = Some (ODict items) -> read_dict l s = (Ok items, s).
Proof. intros H. unfold read_dict, bind, read. by rewrite H. Qed.

Lemma read_list_ok s l items :
  objects s !! l = Some (OList items) -> read_list l s = (Ok items, s).
Proof. intros H. unfold read_list, bind, read. by rewrite H. Qed.

Lemma shape_of_repr P s v r :
  repr_on P (objects s) v r -> shape_of r s = (Ok (value_shape_of v), s).
Proof.
  inversion 1 as [| | | |l rs ? _ Hl _|l rs ? _ Hl _]; subst; try done.
  - unfold shape_of, bind, read. by rewrite Hl.
  - unfold shape_of, bind, read. by rewrite Hl.
Qed.

Lemma setitem_ok s d key v items :
  objects s !! d = Some (ODict items) ->
  setitem d key v s
  = (Ok tt, mkStore (<[d := ODict (Dict.set key v items)]> (objects s)) (cached s)).
Proof. intros H. unfold setitem. by rewrite (bind_eq _ _ _ _ _ (read_dict_ok _ _ _ H)). Qed.

Lemma delitem_ok s d key items :
  objects s !! d = Some (ODict items) ->
  delitem d key s
  = (Ok tt, mkStore (<[d := ODict (Dict.del key items)]> (objects s)) (cached s)).
Proof. intros H. unfold delitem. by rewrite (bind_eq _ _ _ _ _ (read_dict_ok _ _ _ H)). Qed.

Lemma merge_lists_ok s lb lo b o :
  objects s !! lb = Some (OList b) -> objects s !! lo = Some (OList o) ->
  merge_lists lb lo s
  = (Ok (length (objects s)), mkStore (objects s ++ [OList (b ++ o)]) (cached s)).
Proof.
  intros Hb Ho. unfold merge_lists.
  rewrite (bind_eq _ _ _ _ _ (read_list_ok _ _ _ Hb)).
  by rewrite (bind_eq _ _ _ _ _ (read_list_ok _ _ _ Ho)).
Qed.

(** *** The merge on the store computes the merge of the values *)

Section MergeLoop.

Variable rec : nat -> nat -> M nat.
Variable result : nat.
Variable T : nat -> Prop.

Hypothesis Hrec : merge_spec rec.
Hypothesis Hrec_keeps : forall lc lv, stable (keeps (fun _ => True)) (rec lc lv).
Hypothesis HTres : ~ T result.
Hypothesis HTabove : forall l, result < l -> T l.

Lemma finish_setitem s s1 acc key v x :
  holds result T s acc ->
  repr_on T (objects s) v x ->
  setitem result key x s = (Ok tt, s1) ->
  holds result T s1 (Dict.set key v acc) /\ keeps T s s1.
Proof.
  intros (racc & Hres & Hacc) Hv Hrun.
  rewrite (setitem_ok _ _ _ _ _ Hres) in Hrun. injection Hrun as <-.
  assert (Hk : keeps T s
            (mkStore (<[result := ODict (Dict.set key x racc)]> (objects s)) (cached s))).
  { split; [|done]. simpl. intros l o HT Hl.
    rewrite list_lookup_insert_ne; [done|]. by intros <-. }
  split; [|done]. eexists. split.
  - simpl. apply list_lookup_insert_eq. by eapply lookup_lt_Some.
  - apply entries_set; [eapply entries_repr_keeps | eapply repr_on_keeps]; eauto.
Qed.

Lemma holds_keeps s s' acc :
  keeps (fun _ => True) s s' -> holds result T s acc -> holds result T s' acc.
Proof.
  intros Hk (racc & Hres & Hacc). exists racc. split.
  - by apply Hk.
  - eapply entries_repr_keeps; [|exact Hacc].
    eapply (keeps_weaken (fun _ => True)); [done | exact Hk].
Qed.

Lemma merge_entry_spec s s1 acc key v value :
  holds result T s acc ->
  repr_on T (objects s) v value ->
  merge_entry rec result key value s = (Ok tt, s1) ->
  holds result T s1 (merge_step acc key v) /\ keeps T s s1.
Proof.
  intros Hholds Hv Hrun. pose proof Hholds as (racc & Hres & Hacc).
  unfold merge_entry in Hrun.
  rewrite (bind_eq _ _ _ _ _ (read_dict_ok _ _ _ Hres)) in Hrun.
  rewrite merge_step_set.
  pose proof (entries_get T _ _ _ key Hacc) as Hcur.
  destruct (Dict.get key acc) as [cur_v|], (Dict.get key racc) as [cur|];
    try done; [|by eapply finish_setitem].
  rewrite (bind_eq _ _ _ _ _ (shape_of_repr _ _ _ _ Hcur)) in Hrun.
  rewrite (bind_eq _ _ _ _ _ (shape_of_repr _ _ _ _ Hv)) in Hrun.
  assert (Hlen : result < length (objects s)) by by eapply lookup_lt_Some.
  inversion Hcur as [| | | |lc rcs citems HPc Hlc Hcitems|lc rcs citems HPc Hlc Hcitems];
    subst;
    inversion Hv as [| | | |lv rvs vitems HPv Hlv Hvitems|lv rvs vitems HPv Hlv Hvitems];
    subst; cbn in Hrun |- *;
    try (by eapply finish_setitem).
  - (* two lists *)
    rewrite (bind_eq _ _ _ _ _ (merge_lists_ok _ _ _ _ _ Hlc Hlv)) in Hrun.
    match type of Hrun with setitem _ _ _ ?s0 = _ => set (s0' := s0) in * end.
    assert (Hk0 : keeps (fun _ => True) s s0').
    { split; [|done]. simpl. intros l o _ Hl. by apply lookup_app_l_Some. }
    assert (HkT : keeps T s s0')
      by (eapply (keeps_weaken (fun _ => True)); [done | exact Hk0]).
    destruct (finish_setitem s0' s1 acc key (VList (citems ++ vitems))
                (RObj (length (objects s)))) as [Hh Hk1].
    + by eapply holds_keeps.
    + econstructor.
      * apply HTabove, Hlen.
      * simpl. by apply list_lookup_middle.
      * apply Forall2_app; (eapply Forall2_impl; [eassumption|]);
          intros ? ? ?; by eapply repr_on_keeps.
    + exact Hrun.
    + split; [done | by eapply keeps_trans].
  - (* two dicts *)
    apply bind_inv_ok in Hrun as (m & s0 & Hm & Hrun).
    pose proof (Hrec T s lc lv citems vitems m s0 Hcur Hv Hm) as Hmerged.
    pose proof (Hrec_keeps lc lv _ _ _ Hm) as Hk0.
    assert (HkT : keeps T s s0)
      by (eapply (keeps_weaken (fun _ => True)); [done | exact Hk0]).
    destruct (finish_setitem s0 s1 acc key
                (VDict (value_merge_dicts citems vitems)) (RObj m)) as [Hh Hk1].
    + by eapply holds_keeps.
    + eapply repr_on_transfer; [|exact Hmerged].
      intros l o [[HT _]|Hge] Hl; split; auto. apply HTabove. lia.
    + exact Hrun.
    + split; [done | by eapply keeps_trans].
Qed.

Lemma merge_items_spec items : forall oitems acc s s',
  holds result T s acc ->
  entries_repr T (objects s) oitems items ->
  merge_items rec result items s = (Ok tt, s') ->
  holds result T s' (value_merge_dicts acc oitems).
Proof.
  induction items as [|[key value] items IH]; intros oitems acc s s' Hh Hover Hrun.
  - inversion Hover; subst. by injection Hrun as <-.
  - inversion Hover as [|[k v] kr orest ? [Hk Hv] Hrest]; subst.
    simpl in Hk, Hv. subst k.
    cbn [merge_items] in Hrun.
    apply bind_inv_ok in Hrun as ([] & s1 & Hentry & Hrun).
    destruct (merge_entry_spec _ _ _ _ _ _ Hh Hv Hentry) as [Hh1 Hk1].
    rewrite merge_dicts_cons.
    eapply IH; [exact Hh1 | | exact Hrun].
    by eapply entries_repr_keeps.
Qed.

End MergeLoop.

Lemma merge_dicts_spec depth : merge_spec (merge_dicts depth).
Proof.
  induction depth as [|depth IH]; intros P s lb lo b o r s' Hb Ho Hrun; [done|].
  inversion Hb as [| | | | |? rb ? HPb Hlb Hbitems]; subst.
  inversion Ho as [| | | | |? ro ? HPo Hlo Hoitems]; subst.
  cbn [merge_dicts] in Hrun.
  rewrite (bind_eq _ _ _ _ _ (read_dict_ok _ _ _ Hlb)) in Hrun.
  unfold bind at 1 in Hrun. cbn [alloc] in Hrun.
  set (n := length (objects s)) in *.
  set (s1 := mkStore (objects s ++ [ODict rb]) (cached s)) in *.
  assert (Hlo1 : objects s1 !! lo = Some (ODict ro)) by by apply lookup_app_l_Some.
  rewrite (bind_eq _ _ _ _ _ (read_dict_ok _ _ _ Hlo1)) in Hrun.
  apply bind_inv_ok in Hrun as ([] & s2 & Hloop & [= <- <-]).
  set (T := fun l => (P l /\ l < n) \/ n < l).
  assert (Hin : forall l o', P l -> objects s !! l = Some o' ->
                  T l /\ objects s1 !! l = Some o').
  { intros l o' HP Hl. split.
    - left. split; [done|]. by eapply lookup_lt_Some.
    - by apply lookup_app_l_Some. }
  destruct (merge_items_spec (merge_dicts depth) n T IH
              (stable_merge_dicts depth)) with (items := ro) (oitems := o)
              (acc := b) (s := s1) (s' := s2) as (racc' & Hres & Hentries).
  - unfold T. lia.
  - intros l Hl. right. done.
  - exists rb. split; [by apply list_lookup_middle|].
    by eapply entries_repr_transfer.
  - by eapply entries_repr_transfer.
  - exact Hloop.
  - econstructor; [right; done | exact Hres |].
    eapply entries_repr_transfer; [|exact Hentries].
    intros l o' [[HP Hlt]|Hgt] Hl; split; auto; [by left | right; lia].
Qed.

(** *** [yaml.safe_load] builds the document out of new objects *)

Lemma store_app_nil s : mkStore (objects s ++ []) (cached s) = s.
Proof. destruct s. simpl. by rewrite app_nil_r. Qed.

Lemma load_value_list items :
  load_value (VList items)
  = (let* rs := load_list items in let* l := alloc (OList rs) in ret (RObj l)).
Proof. reflexivity. Qed.

Lemma load_value_dict items :
  load_value (VDict items)
  = (let* rs := load_entries items in let* l := alloc (ODict rs) in ret (RObj l)).
Proof. reflexivity. Qed.

Lemma load_list_spec items :
  Forall loads_fresh items ->
  forall s, load_fresh (load_list items) s
              (fun rs h => Forall2 (repr_on (fun l => length (objects s) <= l) h) items rs).
Proof.
  induction 1 as [|v items Hv _ IH]; intros s.
  - exists [], []. rewrite store_app_nil. split; [done | constructor].
  - destruct (Hv s) as (r & ext1 & Hr & Hrepr).
    destruct (IH (mkStore (objects s ++ ext1) (cached s)))
      as (rs & ext2 & Hrs & Hreprs). simpl in *.
    exists (r :: rs), (ext1 ++ ext2). rewrite app_assoc. split.
    + cbn [load_list].
      by rewrite (bind_eq _ _ _ _ _ Hr), (bind_eq _ _ _ _ _ Hrs).
    + constructor.
      * eapply repr_on_transfer; [|exact Hrepr].
        intros l o Hl Hlook. split; [done | by apply lookup_app_l_Some].
      * eapply Forall2_impl; [exact Hreprs|]. intros x y Hxy.
        eapply repr_on_transfer; [|exact Hxy].
        intros l o Hl Hlook. split; [rewrite length_app in Hl; lia | done].
Qed.

Lemma load_entries_spec items :
  Forall (fun kv => loads_fresh kv.2) items ->
  forall s, load_fresh (load_entries items) s
              (fun rs h => entries_repr (fun l => length (objects s) <= l) h items rs).
Proof.
  induction 1 as [|[k v] items Hv _ IH]; intros s.
  - exists [], []. rewrite store_app_nil. split; [done | constructor].
  - destruct (Hv s) as (r & ext1 & Hr & Hrepr).
    destruct (IH (mkStore (objects s ++ ext1) (cached s)))
      as (rs & ext2 & Hrs & Hreprs). simpl in *.
    exists ((k, r) :: rs), (ext1 ++ ext2). rewrite app_assoc. split.
    + cbn [load_entries]. simpl.
      by rewrite (bind_eq _ _ _ _ _ Hr), (bind_eq _ _ _ _ _ Hrs).
    + constructor.
      * split; [done|]. simpl. eapply repr_on_transfer; [|exact Hrepr].
        intros l o Hl Hlook. split; [done | by apply lookup_app_l_Some].
      * eapply entries_repr_transfer; [|exact Hreprs].
        intros l o Hl Hlook. split; [rewrite length_app in Hl; lia | done].
Qed.

Lemma load_value_spec v : loads_fresh v.
Proof.
  induction v as [|b|z|str|items IH|items IH] using value_ind'; intros s.
  1-4: eexists _, []; rewrite store_app_nil; split; [reflexivity | constructor].
  - destruct (load_list_spec items IH s) as (rs & ext & Hrs & Hrepr).
    exists (RObj (length (objects s ++ ext))), (ext ++ [OList rs]).
    rewrite app_assoc. split.
    + by rewrite load_value_list, (bind_eq _ _ _ _ _ Hrs).
    + econstructor.
      * rewrite length_app. lia.
      * by apply list_lookup_middle.
      * eapply Forall2_impl; [exact Hrepr|]. intros x y Hxy.
        eapply repr_on_transfer; [|exact Hxy].
        intros l o Hl Hlook. split; [done | by apply lookup_app_l_Some].
  - destruct (load_entries_spec items IH s) as (rs & ext & Hrs & Hrepr).
    exists (RObj (length (objects s ++ ext))), (ext ++ [ODict rs]).
    rewrite app_assoc. split.
    + by rewrite load_value_dict, (bind_eq _ _ _ _ _ Hrs).
    + econstructor.
      * rewrite length_app. lia.
      * by apply list_lookup_middle.
      * eapply entries_repr_transfer; [|exact Hrepr].
        intros l o Hl Hlook. split; [done | by apply lookup_app_l_Some].
Qed.

(** The document is a new dict object, the last one allocated, over
    entries that were allocated before it. *)
Lemma safe_load_spec document s :
  exists rs ext,
    safe_load document s
    = (Ok (length (objects s ++ ext)),
       mkStore ((objects s ++ ext) ++ [ODict rs]) (cached s))
    /\ entries_repr (fun l => length (objects s) <= l) (objects s ++ ext) document rs.
Proof.
  destruct (load_entries_spec document) with (s := s) as (rs & ext & Hrs & Hrepr).
  { apply Forall_forall. intros kv _. apply load_value_spec. }
  exists rs, ext. split; [|done].
  unfold safe_load. by rewrite (bind_eq _ _ _ _ _ Hrs).
Qed.

(** *** [load_config] on the store *)

Lemma cache_denotes_transfer (P Q : nat -> Prop) fs s s' :
  (forall l o, P l -> objects s !! l = Some o -> Q l /\ objects s' !! l = Some o) ->
  cached s' = cached s ->
  cache_denotes P fs s -> cache_denotes Q fs s'.
Proof.
  intros HT Hc Hden name l Hl. rewrite Hc in Hl.
  destruct (Hden name l Hl) as (doc & k & Hk & Hrepr).
  exists doc, k. split; [done|]. by eapply repr_on_transfer.
Qed.

Lemma cache_denotes_insert (Q : nat -> Prop) fs h c name m doc k :
  cache_denotes Q fs (mkStore h c) ->
  resolve k fs name = Ok doc ->
  repr_on Q h (VDict doc) (RObj m) ->
  cache_denotes Q fs (mkStore h (<[name := m]> c)).
Proof.
  intros Hden Hk Hrepr n l. simpl. rewrite lookup_insert.
  case_decide; [intros [= <-]; subst; eauto | apply Hden].
Qed.

Section Inherit.

Variable fs : files.
Variable load_base : string -> M nat.
Variable merge : nat -> nat -> M nat.

Hypothesis Hload : load_spec fs load_base.
Hypothesis Hmerge : merge_spec merge.
Hypothesis Hmerge_keeps : forall lb lo, stable (keeps (fun _ => True)) (merge lb lo).

Lemma inherit_spec (P : nat -> Prop) s name document rs ext ri s4 :
  let n0 := length (objects s) in
  let config := length (objects s ++ ext) in
  let s1 := mkStore ((objects s ++ ext) ++ [ODict rs]) (cached s) in
  cache_denotes P fs s ->
  fs !! name = Some document ->
  entries_repr (fun l => n0 <= l) (objects s ++ ext) document rs ->
  inherit load_base merge config s1 = (ri, s4) ->
  preserved (objects s) (objects s4)
  /\ cached s ⊆ cached s4
  /\ cache_denotes (grown P n0) fs s4
  /\ (forall cfg, ri = Ok cfg ->
        exists doc k,
          resolve k fs name = Ok doc
          /\ repr_on (grown P n0) (objects s4) (VDict doc) (RObj cfg)).
Proof.
  intros n0 config s1 Hden Hf Hrs Hrun.
  assert (Hn0 : n0 <= config) by (unfold config; rewrite length_app; lia).
  assert (Hpres1 : preserved (objects s) (objects s1)).
  { intros l o Hl. simpl. by do 2 apply lookup_app_l_Some. }
  assert (Hconfig1 : objects s1 !! config = Some (ODict rs))
    by by apply list_lookup_middle.
  assert (Hlen1 : length (objects s1) = S config).
  { simpl. rewrite length_app. simpl. unfold config. lia. }
  assert (Hold : forall l o, P l -> objects s !! l = Some o ->
                   grown P n0 l /\ objects s1 !! l = Some o).
  { intros l o HP Hl. split; [|by apply Hpres1].
    left. split; [done|]. by eapply lookup_lt_Some. }
  assert (Hden1 : cache_denotes (grown P n0) fs s1)
    by by eapply cache_denotes_transfer.
  assert (Hconfig_repr : forall h,
            (forall l o, (objects s ++ ext) !! l = Some o -> h !! l = Some o) ->
            forall d rs', h !! config = Some (ODict rs') ->
              entries_repr (fun l => n0 <= l) (objects s ++ ext) d rs' ->
              repr_on (grown P n0) h (VDict d) (RObj config)).
  { intros h Hh d rs' Hl Hd. econstructor; [by right | exact Hl |].
    eapply entries_repr_transfer; [|exact Hd].
    intros l o Hge Hlook. split; [by right | by apply Hh]. }
  unfold inherit in Hrun.
  rewrite (bind_eq _ _ _ _ _ (read_dict_ok _ _ _ Hconfig1)) in Hrun.
  pose proof (entries_get _ _ _ _ "extends" Hrs) as Hext.
  destruct (Dict.get "extends" rs) as [ext_r|] eqn:Er.
  2:{ (* no [extends]: the document itself *)
      destruct (Dict.get "extends" document) eqn:Ed; [done|].
      injection Hrun as <- <-.
      split; [done|]. split; [done|]. split; [done|].
      intros cfg [= <-]. exists document, 1. split.
      - simpl. by rewrite Hf, Ed.
      - eapply Hconfig_repr; [|exact Hconfig1|exact Hrs].
        intros l o Hl. simpl. by apply lookup_app_l_Some. }
  destruct (Dict.get "extends" document) as [ext_v|] eqn:Ed; [|done].
  destruct ext_r as [| | |raw|];
    try (injection Hrun as <- <-;
         split; [done|]; split; [done|]; split; [done|]; by intros cfg [=]).
  inversion Hext; subst. cbv zeta in Hrun.
  (* the recursive call runs on the store that holds [config] *)
  set (P1 := fun l => P l /\ l < n0).
  assert (Hden_rec : cache_denotes P1 fs s1).
  { eapply (cache_denotes_transfer P P1 fs s s1); [|done|exact Hden].
    intros l o HP Hl. split; [|by apply Hpres1].
    split; [done|]. by eapply lookup_lt_Some. }
  set (G := grown P1 (length (objects s1))).
  assert (HG : forall l, G l -> grown P n0 l /\ l <> config).
  { intros l [[[HP Hlt] _]|Hge].
    - split; [by left | lia].
    - rewrite Hlen1 in Hge. split; [right|]; lia. }
  apply bind_inv in Hrun as [(lb & s2 & Hbase & Hrun)|(e & Hbase & ->)];
    destruct (Hload _ P1 s1 _ _ Hden_rec Hbase) as (Hpres2 & Hsub2 & Hden2 & Hres2).
  2:{ (* the ancestor did not resolve *)
      split; [intros l o Hl; by apply Hpres2, Hpres1|].
      split; [done|]. split; [|by intros cfg [=]].
      eapply cache_denotes_transfer; [|reflexivity|exact Hden2].
      intros l o HGl Hl. split; [by apply HG | done]. }
  destruct (Hden2 _ _ (Hres2 lb eq_refl)) as (bd & k & Hk & Hbd).
  assert (Hconfig2 : objects s2 !! config = Some (ODict rs)) by by apply Hpres2.
  rewrite (bind_eq _ _ _ _ _ (delitem_ok _ _ "extends" _ Hconfig2)) in Hrun.
  match type of Hrun with merge _ _ ?s0 = _ => set (s3 := s0) in * end.
  assert (Hstep3 : forall l o, l <> config -> objects s2 !! l = Some o ->
                     objects s3 !! l = Some o).
  { intros l o Hne Hl. simpl. by rewrite list_lookup_insert_ne. }
  pose proof (Hmerge_keeps _ _ _ _ _ Hrun) as [Hpres4 Hcache4].
  assert (HG4 : forall l o, G l -> objects s2 !! l = Some o ->
                  grown P n0 l /\ objects s4 !! l = Some o).
  { intros l o HGl Hl. destruct (HG l HGl) as [Hgr Hne].
    split; [done|]. apply Hpres4; [done|]. by apply Hstep3. }
  split.
  { intros l o Hl. apply Hpres4; [done|]. apply Hstep3.
    - apply lookup_lt_Some in Hl. fold n0 in Hl. lia.
    - by apply Hpres2, Hpres1. }
  split; [by rewrite Hcache4|].
  split; [by eapply cache_denotes_transfer|].
  intros cfg ->.
  exists (value_merge_dicts bd (Dict.del "extends" document)), (S k).
  split; [simpl; by rewrite Hf, Ed, Hk|].
  eapply repr_on_transfer; cycle 1.
  - eapply (Hmerge (grown P n0) s3 lb config); [| |exact Hrun].
    + eapply repr_on_transfer; [|exact Hbd].
      intros l o HGl Hl. destruct (HG l HGl) as [Hgr Hne]. auto.
    + eapply Hconfig_repr.
      * intros l o Hl. apply Hstep3.
        -- apply lookup_lt_Some in Hl. fold config in Hl. lia.
        -- apply Hpres2. simpl. by apply lookup_app_l_Some.
      * simpl. apply list_lookup_insert_eq. by eapply lookup_lt_Some.
      * by apply entries_del.
  - intros l o [[Hgr _]|Hge] Hl; split; try done.
    right. simpl in Hge. rewrite length_insert in Hge.
    apply lookup_lt_Some in Hconfig2. lia.
Qed.

End Inherit.

Lemma store_load_config_spec depth fs : load_spec fs (load_config depth fs).
Proof.
  induction depth as [|depth IH]; intros name P s r s' Hden Hrun.
  all: assert (Hsame : forall l o, P l -> objects s !! l = Some o ->
                 grown P (length (objects s)) l /\ objects s !! l = Some o)
         by (intros l o HP Hl; split; [left; split; [done|by eapply lookup_lt_Some]|done]).
  { injection Hrun as <- <-.
    split; [by intros ? ?|]. split; [done|].
    split; [by eapply (cache_denotes_transfer P _ fs s s) | by intros l [=]]. }
  cbn [load_config] in Hrun. unfold bind at 1, cache_get in Hrun.
  destruct (cached s !! name) as [l0|] eqn:Hc.
  { injection Hrun as <- <-.
    split; [by intros ? ?|]. split; [done|].
    split; [by eapply (cache_denotes_transfer P _ fs s s) | by intros l [= <-]]. }
  destruct (fs !! name) as [document|] eqn:Hf.
  2:{ injection Hrun as <- <-.
      split; [by intros ? ?|]. split; [done|].
      split; [by eapply (cache_denotes_transfer P _ fs s s) | by intros l [=]]. }
  destruct (safe_load_spec document s) as (rs & ext & Hsafe & Hrs).
  rewrite (bind_eq _ _ _ _ _ Hsafe) in Hrun.
  apply bind_inv in Hrun as [(cfg & s4 & Hinh & Hrun)|(e & Hinh & ->)];
    destruct (inherit_spec fs (load_config depth fs) (merge_dicts depth) IH
                (merge_dicts_spec depth) (stable_merge_dicts depth)
                P s name document rs ext _ _ Hden Hf Hrs Hinh)
      as (Hpres & Hsub & Hden4 & Hres).
  2:{ split; [done|]. split; [done|]. split; [done | by intros l [=]]. }
  injection Hrun as <- <-. unfold load_post. cbn [cached objects].
  destruct (Hres cfg eq_refl) as (doc & k & Hk & Hdoc).
  split; [done|].
  split; [by apply subseteq_insert_fresh|].
  split; [|intros l [= <-]; by rewrite lookup_insert_eq].
  eapply cache_denotes_insert; [|exact Hk|exact Hdoc]. by destruct s4.
Qed.

(** *** A lifetime on the store *)

Lemma repr_preserved h h' v r : preserved h h' -> repr h v r -> repr h' v r.
Proof. intros Hp. apply repr_on_transfer. auto. Qed.

Lemma later_calls_spec fs s0 s :
  cache_denotes (fun _ => True) fs s0 ->
  later_calls fs s0 s ->
  cache_denotes (fun _ => True) fs s
  /\ preserved (objects s0) (objects s)
  /\ cached s0 ⊆ cached s.
Proof.
  intros Hden0. induction 1 as [|depth s name r s' _ (Hden & Hpres & Hsub) Hcall].
  - split; [done|]. split; [by intros ? ? | done].
  - destruct (store_load_config_spec depth fs name _ s r s' Hden Hcall)
      as (Hpres' & Hsub' & Hden' & _).
    split; [|split].
    + eapply cache_denotes_transfer; [|reflexivity|exact Hden']. auto.
    + intros l o Hl. by apply Hpres', Hpres.
    + by etrans.
Qed.

Lemma lifetime_denotes fs s :
  lifetime fs s -> cache_denotes (fun _ => True) fs s.
Proof.
  intros Hlife. apply (later_calls_spec fs (mkStore [] ∅) s); [|done].
  intros name l H. simpl in H. by rewrite lookup_empty in H.
Qed.

(** A call made during a lifetime returns a reference that is cached and
    that denotes the document resolving the name yields. *)
Lemma load_config_denotes fs s depth name l s1 :
  lifetime fs s ->
  load_config depth fs name s = (Ok l, s1) ->
  cached s1 !! name = Some l
  /\ cache_denotes (fun _ => True) fs s1
  /\ exists doc k, resolve k fs name = Ok doc /\ denotes s1 l doc.
Proof.
  intros Hlife Hcall. apply lifetime_denotes in Hlife.
  destruct (store_load_config_spec depth fs name _ s _ s1 Hlife Hcall)
    as (_ & _ & Hden & Hres).
  specialize (Hres l eq_refl).
  assert (Hden1 : cache_denotes (fun _ => True) fs s1)
    by (eapply cache_denotes_transfer; [|reflexivity|exact Hden]; auto).
  split; [done|]. split; [done|]. by apply Hden1.
Qed.

End StoreFacts.

(** ** The object store: when a call returns *)

Module StoreProgress.

Import Store StoreFacts.

Lemma mapping_depth_dict items :
  mapping_depth (VDict items)
  = S (list_max (map (fun kv => mapping_depth kv.2) items)).
Proof. reflexivity. Qed.

Lemma mapping_depth_entries items d :
  mapping_depth (VDict items) <= S d ->
  Forall (fun kv => mapping_depth kv.2 <= d) items.
Proof.
  rewrite mapping_depth_dict. intros H. apply le_S_n in H.
  apply list_max_le in H. by apply Forall_map in H.
Qed.

Lemma Forall_del {A} (P : string * A -> Prop) key (d : list (string * A)) :
  Forall P d -> Forall P (Dict.del key d).
Proof.
  induction 1 as [|[k v] d Hx _ IH]; simpl; [constructor|].
  destruct (String.eqb key k); [done | by constructor].
Qed.

Lemma mapping_depth_del key items :
  mapping_depth (VDict (Dict.del key items)) <= mapping_depth (VDict items).
Proof.
  assert (Hall : Forall (fun kv => mapping_depth kv.2
                           <= list_max (map (fun kv => mapping_depth kv.2) items))
                   items)
    by (apply mapping_depth_entries; by rewrite mapping_depth_dict).
  rewrite !mapping_depth_dict. apply le_n_S.
  by apply list_max_le, Forall_map, Forall_del.
Qed.

(** *** The merge returns, given room for the nesting of the override *)

Section ProgressLoop.

Variable rec : nat -> nat -> M nat.
Variable result : nat.
Variable T : nat -> Prop.
Variable d : nat.

Hypothesis Hrec : merge_spec rec.
Hypothesis Hrec_keeps : forall lc lv, stable (keeps (fun _ => True)) (rec lc lv).
Hypothesis HTres : ~ T result.
Hypothesis HTabove : forall l, result < l -> T l.
Hypothesis Hrec_returns :
  forall (P : nat -> Prop) s lc lv c v,
    repr_on P (objects s) (VDict c) (RObj lc) ->
    repr_on P (objects s) (VDict v) (RObj lv) ->
    mapping_depth (VDict v) <= d ->
    exists r s', rec lc lv s = (Ok r, s').

Lemma merge_entry_returns s acc key v value :
  holds result T s acc ->
  repr_on T (objects s) v value ->
  mapping_depth v <= d ->
  exists s1, merge_entry rec result key value s = (Ok tt, s1).
Proof.
  intros Hholds Hv Hd. pose proof Hholds as (racc & Hres & Hacc).
  unfold merge_entry.
  rewrite (bind_eq _ _ _ _ _ (read_dict_ok _ _ _ Hres)).
  pose proof (entries_get T _ _ _ key Hacc) as Hcur.
  destruct (Dict.get key acc) as [cur_v|], (Dict.get key racc) as [cur|];
    try done; [|rewrite (setitem_ok _ _ _ _ _ Hres); eauto].
  rewrite (bind_eq _ _ _ _ _ (shape_of_repr _ _ _ _ Hcur)).
  rewrite (bind_eq _ _ _ _ _ (shape_of_repr _ _ _ _ Hv)).
  inversion Hcur as [| | | |lc rcs citems HPc Hlc Hcitems|lc rcs citems HPc Hlc Hcitems];
    subst;
    inversion Hv as [| | | |lv rvs vitems HPv Hlv Hvitems|lv rvs vitems HPv Hlv Hvitems];
    subst; cbn;
    try (rewrite (setitem_ok _ _ _ _ _ Hres); by eauto).
  - (* two lists *)
    rewrite (bind_eq _ _ _ _ _ (merge_lists_ok _ _ _ _ _ Hlc Hlv)).
    erewrite setitem_ok; [eauto|]. simpl. by apply lookup_app_l_Some.
  - (* two dicts *)
    destruct (Hrec_returns T s lc lv citems vitems Hcur Hv Hd) as (m & s0 & Hm).
    rewrite (bind_eq _ _ _ _ _ Hm).
    destruct (Hrec_keeps lc lv _ _ _ Hm) as [Hk0 _].
    erewrite setitem_ok; [eauto|]. by apply Hk0.
Qed.

Lemma merge_items_returns items : forall oitems acc s,
  holds result T s acc ->
  entries_repr T (objects s) oitems items ->
  Forall (fun kv => mapping_depth kv.2 <= d) oitems ->
  exists s', merge_items rec result items s = (Ok tt, s').
Proof.
  induction items as [|[key value] items IH]; intros oitems acc s Hh Hover Hd.
  - by eexists.
  - inversion Hover as [|[k v] kr orest ? [Hk Hv] Hrest]; subst.
    simpl in Hk, Hv. subst k.
    apply Forall_cons in Hd as [Hdv Hd]. simpl in Hdv.
    destruct (merge_entry_returns s acc key v value Hh Hv Hdv) as [s1 Hentry].
    destruct (merge_entry_spec rec result T Hrec Hrec_keeps HTres HTabove
                _ _ _ _ _ _ Hh Hv Hentry) as [Hh1 Hk1].
    cbn [merge_items]. rewrite (bind_eq _ _ _ _ _ Hentry).
    eapply IH; [exact Hh1 | by eapply entries_repr_keeps | exact Hd].
Qed.

End ProgressLoop.

Lemma merge_dicts_returns depth : forall (P : nat -> Prop) s lb lo b o,
  repr_on P (objects s) (VDict b) (RObj lb) ->
  repr_on P (objects s) (VDict o) (RObj lo) ->
  mapping_depth (VDict o) <= depth ->
  exists r s', merge_dicts depth lb lo s = (Ok r, s').
Proof.
  induction depth as [|depth IH]; intros P s lb lo b o Hb Ho Hd.
  { rewrite mapping_depth_dict in Hd. lia. }
  inversion Hb as [| | | | |? rb ? HPb Hlb Hbitems]; subst.
  inversion Ho as [| | | | |? ro ? HPo Hlo Hoitems]; subst.
  cbn [merge_dicts].
  rewrite (bind_eq _ _ _ _ _ (read_dict_ok _ _ _ Hlb)).
  unfold bind at 1. cbn [alloc].
  set (n := length (objects s)) in *.
  set (s1 := mkStore (objects s ++ [ODict rb]) (cached s)) in *.
  assert (Hlo1 : objects s1 !! lo = Some (ODict ro)) by by apply lookup_app_l_Some.
  rewrite (bind_eq _ _ _ _ _ (read_dict_ok _ _ _ Hlo1)).
  set (T := fun l => (P l /\ l < n) \/ n < l).
  assert (Hin : forall l o', P l -> objects s !! l = Some o' ->
                  T l /\ objects s1 !! l = Some o').
  { intros l o' HP Hl. split.
    - left. split; [done|]. by eapply lookup_lt_Some.
    - by apply lookup_app_l_Some. }
  destruct (merge_items_returns (merge_dicts depth) n T depth
              (merge_dicts_spec depth) (stable_merge_dicts depth))
    with (items := ro) (oitems := o) (acc := b) (s := s1) as [s2 Hloop].
  - unfold T. lia.
  - intros l Hl. right. done.
  - exact IH.
  - exists rb. split; [by apply list_lookup_middle|].
    by eapply entries_repr_transfer.
  - by eapply entries_repr_transfer.
  - by apply mapping_depth_entries.
  - rewrite (bind_eq _ _ _ _ _ Hloop). by eexists _, _.
Qed.

(** *** [load_config] returns on an acyclic chain *)

Section Descent.

Variable fs : files.
Variable start : string.
Variable height : nat.

Hypothesis Hacyc : acyclic_chain fs start.
Hypothesis Hsrc : sources_exist fs start.
Hypothesis Hnames : extends_are_names fs start.
Hypothesis Hheight : chain_nesting_bounded fs start height.

(** While descending from [start], [seen] collects the names already
    passed; each call keeps, of the depth it is given, one level for
    itself and hands the rest to the ancestor's call and then to the
    merge, which needs as many levels as the document nests mappings. *)
Lemma store_load_config_descends depth : forall seen name (P : nat -> Prop) s,
  in_chain fs start name ->
  NoDup seen ->
  (forall x, x ∈ seen -> in_chain fs start x /\ tc (extends_step fs) x name) ->
  cache_denotes P fs s ->
  size fs - length seen + height <= depth ->
  exists l s', load_config depth fs name s = (Ok l, s').
Proof.
  induction depth as [|depth IH]; intros seen name P s Hin Hnd Hseen Hden Hdepth.
  all: assert (Hfresh : name ∉ seen)
         by (intros Hx; apply Hseen in Hx as [_ Hcyc]; by apply (Hacyc name)).
  all: assert (Hlen : S (length seen) <= size fs).
  1,3: apply (NoDup_sources_length fs (name :: seen));
       [by apply NoDup_cons
       |intros x [->|Hx]%elem_of_cons; [by apply Hsrc | by apply Hsrc, Hseen]].
  { lia. }
  cbn [load_config]. unfold bind at 1, cache_get.
  destruct (cached s !! name) as [l0|] eqn:Hc; [by eexists _, _|].
  destruct (Hsrc name Hin) as [document Hf]. rewrite Hf.
  destruct (safe_load_spec document s) as (rs & ext & Hsafe & Hrs).
  rewrite (bind_eq _ _ _ _ _ Hsafe).
  set (n0 := length (objects s)) in *.
  set (config := length (objects s ++ ext)) in *.
  set (s1 := mkStore ((objects s ++ ext) ++ [ODict rs]) (cached s)) in *.
  assert (Hinherit : exists cfg s4,
            inherit (load_config depth fs) (merge_dicts depth) config s1
            = (Ok cfg, s4)).
  { assert (Hn0 : n0 <= config) by (unfold config; rewrite length_app; lia).
    assert (Hpres1 : preserved (objects s) (objects s1)).
    { intros l o Hl. simpl. by do 2 apply lookup_app_l_Some. }
    assert (Hconfig1 : objects s1 !! config = Some (ODict rs))
      by by apply list_lookup_middle.
    assert (Hlen1 : length (objects s1) = S config).
    { simpl. rewrite length_app. simpl. unfold config. lia. }
    unfold inherit.
    rewrite (bind_eq _ _ _ _ _ (read_dict_ok _ _ _ Hconfig1)).
    pose proof (entries_get _ _ _ _ "extends" Hrs) as Hext.
    destruct (Dict.get "extends" rs) as [ext_r|] eqn:Er;
      destruct (Dict.get "extends" document) as [ext_v|] eqn:Ed; try done;
      [|by eexists _, _].
    destruct (Hnames name document ext_v Hin Hf Ed) as [raw ->].
    inversion Hext; subst. cbv zeta.
    pose proof (parent_of_extends _ _ _ _ Hf Ed) as Hstep.
    set (P1 := fun l => P l /\ l < n0).
    assert (Hden_rec : cache_denotes P1 fs s1).
    { eapply (cache_denotes_transfer P P1 fs s s1); [|done|exact Hden].
      intros l o HP Hl. split; [|by apply Hpres1].
      split; [done|]. by eapply lookup_lt_Some. }
    destruct (IH (name :: seen) (normalize_name raw) P1 s1) as (lb & s2 & Hbase).
    - eapply rtc_r; eauto.
    - by apply NoDup_cons.
    - intros x [->|Hx]%elem_of_cons.
      + split; [done | by apply tc_once].
      + destruct (Hseen x Hx) as [Hx1 Hx2]. split; [done|].
        eapply tc_r; eauto.
    - exact Hden_rec.
    - simpl. lia.
    - rewrite (bind_eq _ _ _ _ _ Hbase).
      destruct (store_load_config_spec depth fs _ P1 s1 _ _ Hden_rec Hbase)
        as (Hpres2 & Hsub2 & Hden2 & Hres2).
      destruct (Hden2 _ _ (Hres2 lb eq_refl)) as (bd & k & Hk & Hbd).
      assert (Hconfig2 : objects s2 !! config = Some (ODict rs)) by by apply Hpres2.
      rewrite (bind_eq _ _ _ _ _ (delitem_ok _ _ "extends" _ Hconfig2)).
      assert (Hstep3 : forall l o, l <> config -> objects s2 !! l = Some o ->
                <[config := ODict (Dict.del "extends" rs)]> (objects s2) !! l = Some o).
      { intros l o Hne Hl. by rewrite list_lookup_insert_ne. }
      eapply (merge_dicts_returns depth (fun _ => True) _ lb config bd
                (Dict.del "extends" document)).
      + eapply repr_on_transfer; [|exact Hbd].
        intros l o HG Hl. split; [done|]. simpl. apply Hstep3; [|done].
        destruct HG as [[[_ Hlt] _]|Hge]; [lia|]. rewrite Hlen1 in Hge. lia.
      + econstructor; [done | |].
        * simpl. apply list_lookup_insert_eq. by eapply lookup_lt_Some.
        * eapply entries_repr_transfer; [|apply entries_del; exact Hrs].
          intros l o _ Hl. split; [done|]. simpl. apply Hstep3.
          -- apply lookup_lt_Some in Hl. fold config in Hl. lia.
          -- apply Hpres2. simpl. by apply lookup_app_l_Some.
      + etrans; [apply mapping_depth_del|].
        pose proof (Hheight name document Hin Hf). lia. }
  destruct Hinherit as (cfg & s4 & Hinherit).
  rewrite (bind_eq _ _ _ _ _ Hinherit). by eexists _, _.
Qed.

End Descent.

End StoreProgress.

(** ** Termination *)

Section CounterChains.

Local Ltac eval_step H :=
  unfold extends_step in H; vm_compute in H;
  first [discriminate H | injection H as <-].

Lemma odd_chain m : in_chain odd_fs "odd" m -> m = "odd".
Proof.
  intros H. inversion H as [|? b ? Hstep _]; subst; [done|]. eval_step Hstep.
Qed.

Lemma odd_acyclic : acyclic_chain odd_fs "odd".
Proof.
  intros m ->%odd_chain Hcyc.
  inversion Hcyc as [? ? H1|? b ? H1 _]; subst; eval_step H1.
Qed.

Lemma odd_sources : sources_exist odd_fs "odd".
Proof. intros m ->%odd_chain. vm_compute. eauto. Qed.

Lemma long_chain_step a b :
  extends_step long_chain_fs a b ->
  (a, b) ∈ [("n0", "n1"); ("n1", "n2"); ("n2", "n3")].
Proof.
  unfold extends_step, parent, long_chain_fs.
  destruct (_ !! a) as [config|] eqn:E; [|done].
  apply lookup_insert_Some in E as [[<- <-]|[_ E]];
    [intros [= <-]; compute_done|].
  apply lookup_insert_Some in E as [[<- <-]|[_ E]];
    [intros [= <-]; compute_done|].
  apply lookup_insert_Some in E as [[<- <-]|[_ E]];
    [intros [= <-]; compute_done|].
  apply lookup_singleton_Some in E as [<- <-]. done.
Qed.

Local Ltac members H :=
  repeat (apply elem_of_cons in H as [H|H]);
  try (apply elem_of_nil in H; contradiction).

Lemma long_chain_tc a b :
  tc (extends_step long_chain_fs) a b ->
  (a, b) ∈ [("n0", "n1"); ("n0", "n2"); ("n0", "n3");
            ("n1", "n2"); ("n1", "n3"); ("n2", "n3")].
Proof.
  induction 1 as [a b Hab|a b c Hab _ IH];
    apply long_chain_step in Hab; members Hab.
  all: try (members IH).
  all: simplify_eq; try compute_done.
Qed.

Lemma long_chain_members m :
  in_chain long_chain_fs "n0" m -> m ∈ ["n0"; "n1"; "n2"; "n3"].
Proof.
  intros [<-|Htc]%rtc_tc; [compute_done|].
  apply long_chain_tc in Htc. members Htc; simplify_eq; compute_done.
Qed.

Lemma long_chain_acyclic : acyclic_chain long_chain_fs "n0".
Proof. intros m _ Hcyc%long_chain_tc. members Hcyc; simplify_eq. Qed.

Lemma long_chain_sources : sources_exist long_chain_fs "n0".
Proof.
  intros m Hm%long_chain_members. members Hm; subst; vm_compute; eauto.
Qed.

Lemma long_chain_names : extends_are_names long_chain_fs "n0".
Proof.
  intros m config v Hm%long_chain_members Hf He.
  members Hm; subst; vm_compute in Hf; injection Hf as <-; vm_compute in He;
    first [discriminate He | injection He as <-; eauto].
Qed.

Lemma sample_nesting : chain_nesting_bounded sample_fs "child" 1.
Proof.
  intros m doc [->| ->]%sample_chain_child Hf;
    vm_compute in Hf; injection Hf as <-; vm_compute; lia.
Qed.

End CounterChains.




(** The merge takes its share of the depth: with two files, room for two
    nested calls is not enough when both hold a mapping under one key;
    the bound of the theorem, here four, is. *)
Example nesting_costs_depth :
  (Store.load_config 2 nested_fs "child" (Store.mkStore [] ∅)).1
  = Raise RecursionError
  /\ (load_config 2 nested_fs ∅ "child").1
     = Ok [("name", VStr "child");
           ("models", VDict [("checkpoints", VList []); ("loras", VList [])])]
  /\ exists l, (Store.load_config 4 nested_fs "child" (Store.mkStore [] ∅)).1 = Ok l.
Proof. split; [|split; [|eexists]]; vm_compute; reflexivity. Qed.

(** The two embeddings of the simple loader agree: during their lifetimes
    over one directory, the reference returned on the store denotes the
    document returned on values. *)
Lemma store_agrees_with_values fs c s depth depth' name doc c' l s' :
  lifetime simple_loader fs c ->
  Store.lifetime fs s ->
  load_config depth fs c name = (Ok doc, c') ->
  Store.load_config depth' fs name s = (Ok l, s') ->
  Store.denotes s' l doc.
Proof.
  intros Hlife Hslife Hcall Hscall.
  apply lifetime_coherent in Hlife.
  apply load_config_spec in Hcall as (_ & _ & Hok).
  destruct (Hok doc eq_refl) as [_ Hres]. destruct (Hres Hlife) as [k Hk].
  destruct (StoreFacts.load_config_denotes _ _ _ _ _ _ Hslife Hscall)
    as (_ & _ & doc' & k' & Hk' & Hdoc').
  by rewrite (resolve_deterministic _ _ _ _ _ _ Hk Hk').
Qed.

(** ** The cache *)

Lemma hiyapyco_later_calls hiyapyco_load fs c1 c2 :
  later_calls (hiyapyco_loader hiyapyco_load) fs c1 c2 -> c1 ⊆ c2.
Proof.
  induction 1 as [|depth c name r c' _ IH Hcall]; [done|].
  apply hload_spec in Hcall as (Hsub & _). by etrans.
Qed.

(** C7. Resolving a name twice yields the same document.  On the object
    store of the simple loader: a call that returns a reference returns
    one that denotes a document; a second call for the name is a cache hit
    that returns the same reference and changes nothing; and after any
    further calls the name is still cached under that reference, which
    still denotes the same document, every object that existed being left
    as it was (the merge updates only the copy it makes).  For the
    HiYaPyCo loader, whose cached documents are handed to no other code:
    the second call returns the cached document and changes nothing, and
    further calls leave the cache entry as it is. *)
Theorem resolve_twice_same_document
    (hiyapyco_load : list dict -> result dict) (fs : files) (name : string) :
  (forall s depth l s1,
     Store.lifetime fs s ->
     Store.load_config depth fs name s = (Ok l, s1) ->
     exists doc,
       Store.denotes s1 l doc
       /\ (forall depth' fs',
             Store.load_config (S depth') fs' name s1 = (Ok l, s1))
       /\ (forall s2,
             Store.later_calls fs s1 s2 ->
             Store.cached s2 !! name = Some l
             /\ Store.denotes s2 l doc
             /\ Store.preserved (Store.objects s1) (Store.objects s2)))
  /\ (forall c doc c1,
        hiyapyco_load_config hiyapyco_load fs c name = (Ok doc, c1) ->
        (forall fs', hiyapyco_load_config hiyapyco_load fs' c1 name = (Ok doc, c1))
        /\ (forall c2,
              later_calls (hiyapyco_loader hiyapyco_load) fs c1 c2 ->
              c2 !! name = Some doc)).
Proof.
  split.
  - intros s depth l s1 Hlife Hcall.
    destruct (StoreFacts.load_config_denotes _ _ _ _ _ _ Hlife Hcall)
      as (Hcached & Hden1 & doc & k & _ & Hdoc).
    exists doc. split; [done|]. split.
    + intros depth' fs'. cbn [Store.load_config].
      unfold Store.bind at 1, Store.cache_get. by rewrite Hcached.
    + intros s2 Hlater.
      destruct (StoreFacts.later_calls_spec fs s1 s2 Hden1 Hlater)
        as (_ & Hpres & Hsub).
      split; [by eapply lookup_weaken|]. split; [|done].
      by eapply StoreFacts.repr_preserved.
  - intros c doc c1 Hcall.
    apply hload_spec in Hcall as (_ & _ & Hok).
    destruct (Hok doc eq_refl) as [Hcached _]. split.
    + intros fs'. unfold hiyapyco_load_config. by rewrite Hcached.
    + intros c2 Hlater. apply hiyapyco_later_calls in Hlater.
      by eapply lookup_weaken.
Qed.

Lemma resolve_twice_same_document_witness :
  let s1 := (Store.load_config 3 sample_fs "child" (Store.mkStore [] ∅)).2 in
  exists doc,
    Store.denotes s1 4 doc
    /\ Store.load_config 1 ∅ "child" s1 = (Ok 4, s1).
Proof.
  intros s1.
  destruct (proj1 (resolve_twice_same_document sample_hiyapyco_load sample_fs "child")
              (Store.mkStore [] ∅) 3 4 s1) as (doc & Hdoc & Hagain & _).
  - apply Store.later_refl.
  - vm_compute. reflexivity.
  - exists doc. split; [exact Hdoc | exact (Hagain 0 ∅)].
Defined.

(** The store after resolving [child]: the parsed documents (the child's
    with its [extends] entry deleted in place), and the merged document
    with its own [nodes] list. *)
Example store_after_child :
  Store.load_config 3 sample_fs "child" (Store.mkStore [] ∅)
  = (Ok 4,
     Store.mkStore
       [ Store.OList [Store.RStr "repoB"];
         Store.ODict [("name", Store.RStr "child"); ("nodes", Store.RObj 0)];
         Store.OList [Store.RStr "repoA"];
         Store.ODict [ ("name", Store.RStr "base"); ("version", Store.RStr "1.0");
                       ("nodes", Store.RObj 2) ];
         Store.ODict [ ("name", Store.RStr "child"); ("version", Store.RStr "1.0");
                       ("nodes", Store.RObj 5) ];
         Store.OList [Store.RStr "repoA"; Store.RStr "repoB"] ]
       (<["child" := 4]> {["base" := 3]})).
Proof. vm_compute. reflexivity. Qed.

(** * Further properties of the code *)

(** ** The merge: well-formedness and disjoint documents *)

Section MergeWellFormed.

Implicit Types (d base override : dict) (k key : string) (v : value).

Lemma set_fresh {A} key (x : A) (d : list (string * A)) :
  Dict.get key d = None -> Dict.set key x d = d ++ [(key, x)].
Proof.
  induction d as [|[k w] d IH]; simpl; [done|].
  destruct (String.eqb key k); [done|]. intros H. by rewrite IH.
Qed.

Lemma elem_of_set {A} key (x : A) (d : list (string * A)) k w :
  (k, w) ∈ Dict.set key x d -> (k, w) ∈ d \/ w = x.
Proof.
  induction d as [|[k' w'] d IH]; simpl.
  - intros [[= -> ->]|[]%not_elem_of_nil]%elem_of_cons. by right.
  - destruct (String.eqb key k').
    + intros [[= -> ->]|H]%elem_of_cons; [by right | left; by right].
    + intros [[= -> ->]|H]%elem_of_cons; [left; by left|].
      destruct (IH H) as [?|?]; [left; by right | by right].
Qed.

Lemma NoDup_keys_set {A} key (x : A) (d : list (string * A)) :
  NoDup (Dict.keys d) -> NoDup (Dict.keys (Dict.set key x d)).
Proof.
  intros Hnd. rewrite keys_set. unfold Dict.mem.
  destruct (Dict.get key d) eqn:E; [done|].
  apply NoDup_app. split; [done|]. split; [|apply NoDup_singleton].
  intros k Hk ->%list_elem_of_singleton. by apply get_None_keys in E.
Qed.

Lemma wf_dict_set key v d :
  wf_dict d -> wf_value v = true -> wf_dict (Dict.set key v d).
Proof.
  rewrite !wf_dict_unfold. intros [Hnd Hall] Hv. split.
  - by apply NoDup_keys_set.
  - intros k w [Hin| ->]%elem_of_set; [by eapply Hall | done].
Qed.

Lemma wf_value_app (b o : list value) :
  wf_value (VList b) = true -> wf_value (VList o) = true ->
  wf_value (VList (b ++ o)) = true.
Proof. simpl. rewrite forallb_app. by intros -> ->. Qed.

Lemma merge_into_wf ov : forall base,
  wf_value ov = true -> wf_dict base -> wf_dict (merge_into ov base).
Proof.
  induction ov as [| | | |items IH|items IH] using StoreFacts.value_ind';
    intros base Hov Hbase; try done.
  change (wf_dict (merge_dicts base items)).
  apply wf_dict_unfold in Hov as [_ Hitems].
  revert base Hbase. induction items as [|[key v] items IHitems]; intros base Hbase.
  - done.
  - apply Forall_cons in IH as [IHv IH].
    rewrite merge_dicts_cons. apply IHitems; [done | |].
    + intros k w Hin. apply (Hitems k w). by right.
    + assert (Hv : wf_value v = true) by (apply (Hitems key v); by left).
      rewrite merge_step_set. apply wf_dict_set; [done|].
      destruct (Dict.get key base) as [cur|] eqn:Hcur; [|done].
      pose proof (wf_dict_get _ _ _ Hbase Hcur) as Hcurwf.
      destruct cur as [| | | |bl|bd], v as [| | | |ol|od]; try done.
      * by apply wf_value_app.
      * apply (IHv bd); done.
Qed.

Lemma merge_dicts_wf base override :
  wf_dict base -> wf_dict override -> wf_dict (merge_dicts base override).
Proof. intros Hb Ho. by apply merge_into_wf. Qed.

Lemma resolve_wf depth : forall fs name d,
  (forall n doc, fs !! n = Some doc -> wf_dict doc) ->
  resolve depth fs name = Ok d -> wf_dict d.
Proof.
  induction depth as [|depth IH]; intros fs name d Hfs; simpl; [done|].
  destruct (fs !! name) as [config|] eqn:Hf; [|done].
  apply Hfs in Hf.
  destruct (Dict.get "extends" config) as [[| | |raw| |]|]; try done.
  - destruct (resolve depth fs (normalize_name raw)) as [base|] eqn:Hb; [|done].
    simpl. intros [= <-]. apply merge_dicts_wf; [by eapply IH | by apply wf_dict_del].
  - by intros [= <-].
Qed.

(** X1. The merge keeps documents well formed: if neither side repeats a
    key, at any nesting level, neither does the merged document; so when
    no source document repeats a key, no document the simple loader
    returns does. *)
Theorem merge_dicts_well_formed :
  (forall base override,
     wf_dict base -> wf_dict override -> wf_dict (merge_dicts base override))
  /\ (forall fs c depth name doc c',
        (forall n d, fs !! n = Some d -> wf_dict d) ->
        lifetime simple_loader fs c ->
        load_config depth fs c name = (Ok doc, c') ->
        wf_dict doc).
Proof.
  split; [apply merge_dicts_wf|].
  intros fs c depth name doc c' Hfs Hlife Hcall.
  apply lifetime_coherent in Hlife.
  apply load_config_spec in Hcall as (_ & _ & Hok).
  destruct (Hok doc eq_refl) as [_ Hres]. destruct (Hres Hlife) as [k Hk].
  by eapply resolve_wf.
Qed.

Lemma merge_dicts_disjoint_app override : forall base,
  NoDup (Dict.keys override) ->
  (forall k, k ∈ Dict.keys override -> Dict.get k base = None) ->
  merge_dicts base override = base ++ override.
Proof.
  induction override as [|[key v] override IH]; intros base Hnd Hdisj.
  - by rewrite app_nil_r.
  - apply NoDup_cons in Hnd as [Hfresh Hnd].
    assert (Hkey : Dict.get key base = None) by (apply Hdisj; by left).
    rewrite merge_dicts_cons, merge_step_set, Hkey, (set_fresh _ _ _ Hkey).
    rewrite IH; [by rewrite <- app_assoc | done |].
    intros k Hk.
    assert (k <> key) by (intros ->; done).
    rewrite <- (set_fresh key v base Hkey), get_set_ne by done.
    apply Hdisj. by right.
Qed.

(** X2. Documents that share no key are merged by juxtaposition: the
    ancestor's entries, then the descendant's, all unchanged; in
    particular merging into an empty ancestor gives the descendant. *)
Theorem merge_dicts_disjoint base override :
  NoDup (Dict.keys override) ->
  (forall k, k ∈ Dict.keys override -> Dict.get k base = None) ->
  merge_dicts base override = base ++ override
  /\ merge_dicts [] override = override.
Proof.
  intros Hnd Hdisj. split; [by apply merge_dicts_disjoint_app|].
  by apply (merge_dicts_disjoint_app override []).
Qed.

End MergeWellFormed.

Lemma merge_dicts_well_formed_witness :
  wf_dict (merge_dicts merge_rules_base merge_rules_override).
Proof. apply (proj1 merge_dicts_well_formed); reflexivity. Defined.

Lemma merge_dicts_disjoint_witness :
  merge_dicts [("name", VStr "base")] [("nodes", VList [])]
  = [("name", VStr "base"); ("nodes", VList [])].
Proof.
  apply (merge_dicts_disjoint [("name", VStr "base")] [("nodes", VList [])]).
  - compute_done.
  - intros k ->%list_elem_of_singleton. reflexivity.
Defined.

(** ** Documents without [extends], and how far each loader looks *)

Section PlainDocuments.

Variable hiyapyco_load : list dict -> result dict.

Implicit Types (fs : files) (c : cache) (name : string) (doc : dict).

Lemma hload_result_fresh fs c name :
  hcache_coherent hiyapyco_load fs c ->
  (hiyapyco_load_config hiyapyco_load fs c name).1
  = (hiyapyco_load_config hiyapyco_load fs ∅ name).1.
Proof.
  intros Hco. destruct (c !! name) as [d|] eqn:Hc.
  - rewrite (Hco _ _ Hc). unfold hiyapyco_load_config. by rewrite Hc.
  - rewrite (hload_miss _ _ _ _ Hc).
    by destruct (hiyapyco_load_config hiyapyco_load fs ∅ name).1.
Qed.

(** X3. A document without [extends] resolves to itself, unchanged, with
    either loader, at any point of a loader's lifetime. *)
Theorem plain_document_resolves_to_itself fs name doc :
  fs !! name = Some doc ->
  Dict.get "extends" doc = None ->
  (forall c depth,
     lifetime simple_loader fs c ->
     (load_config (S depth) fs c name).1 = Ok doc)
  /\ (forall c,
        lifetime (hiyapyco_loader hiyapyco_load) fs c ->
        (hiyapyco_load_config hiyapyco_load fs c name).1 = Ok doc).
Proof.
  intros Hf He. split.
  - intros c depth Hlife. apply lifetime_coherent in Hlife.
    rewrite load_config_S. destruct (c !! name) as [d|] eqn:Hc.
    + destruct (Hlife _ _ Hc) as [[|k] Hk]; [done|].
      simpl in Hk. rewrite Hf, He in Hk. by injection Hk as ->.
    + by rewrite Hf, He.
  - intros c Hlife. apply hlifetime_coherent in Hlife.
    rewrite (hload_result_fresh _ _ _ Hlife).
    unfold hiyapyco_load_config. rewrite lookup_empty, Hf, He. simpl.
    unfold Dict.mem. by rewrite He.
Qed.

(** X4. The HiYaPyCo loader looks one level up and no further: what it
    returns for a name is fixed by the file of the name and the file its
    [extends] names, so an [extends] in the ancestor's file is never
    followed. *)
Theorem hiyapyco_reads_one_ancestor fs fs' name :
  fs !! name = fs' !! name ->
  (forall config b,
     fs !! name = Some config -> extends_target config = Some b ->
     fs !! b = fs' !! b) ->
  forall c c',
    lifetime (hiyapyco_loader hiyapyco_load) fs c ->
    lifetime (hiyapyco_loader hiyapyco_load) fs' c' ->
    (hiyapyco_load_config hiyapyco_load fs c name).1
    = (hiyapyco_load_config hiyapyco_load fs' c' name).1.
Proof.
  intros Hname Hbase c c' Hlife Hlife'.
  apply hlifetime_coherent in Hlife, Hlife'.
  rewrite (hload_result_fresh _ _ _ Hlife), (hload_result_fresh _ _ _ Hlife').
  unfold hiyapyco_load_config. rewrite !lookup_empty, <- Hname.
  destruct (fs !! name) as [config|] eqn:Hf; [|done].
  specialize (Hbase config). unfold extends_target in Hbase.
  destruct (Dict.get "extends" config) as [[| | |raw| |]|]; try done.
  by rewrite <- (Hbase _ eq_refl eq_refl).
Qed.

End PlainDocuments.

Lemma plain_document_resolves_to_itself_witness :
  (load_config 1 sample_fs (load_config 3 sample_fs ∅ "child").2 "base").1
  = Ok base_doc.
Proof.
  apply (proj1 (plain_document_resolves_to_itself sample_hiyapyco_load
                  sample_fs "base" base_doc eq_refl eq_refl)).
  exact sample_lifetime_simple.
Defined.

Lemma hiyapyco_reads_one_ancestor_witness :
  (hiyapyco_load_config sample_hiyapyco_load three_level_fs ∅ "leaf").1
  = (hiyapyco_load_config sample_hiyapyco_load
       (<["root" := [("name", VStr "other")]]> three_level_fs) ∅ "leaf").1.
Proof.
  apply (hiyapyco_reads_one_ancestor sample_hiyapyco_load three_level_fs
           (<["root" := [("name", VStr "other")]]> three_level_fs) "leaf").
  - vm_compute. reflexivity.
  - intros config b Hf Hb. vm_compute in Hf. injection Hf as <-.
    vm_compute in Hb. injection Hb as <-. vm_compute. reflexivity.
  - apply later_refl.
  - apply later_refl.
Defined.

(** On [three_level_fs] the simple loader follows the chain to [root];
    the HiYaPyCo loader stops at [middle]. *)
Example loaders_differ_on_grandparents :
  (exists doc, (load_config 4 three_level_fs ∅ "leaf").1 = Ok doc
               /\ Dict.get "from_root" doc = Some (VBool true))
  /\ (exists doc,
        (hiyapyco_load_config sample_hiyapyco_load three_level_fs ∅ "leaf").1 = Ok doc
        /\ Dict.get "from_root" doc = None).
Proof. split; eexists; split; vm_compute; reflexivity. Qed.

(** ** Names of configurations and names of files *)

Section Names.

Implicit Types (s t n p : string) (a c : ascii).

Lemma length_append s t :
  String.length (String.append s t) = String.length s + String.length t.
Proof. induction s as [|a s IH]; [done|]. rewrite append_cons. simpl. by rewrite IH. Qed.

Lemma substring_0_append s t :
  String.substring 0 (String.length s) (String.append s t) = s.
Proof.
  induction s as [|a s IH]; [by destruct t|].
  rewrite append_cons. simpl. by rewrite IH.
Qed.

Lemma substring_0_length s : String.substring 0 (String.length s) s = s.
Proof. rewrite <- (append_nil_r s) at 2. apply substring_0_append. Qed.

Lemma substring_length_append s t m :
  String.substring (String.length s) m (String.append s t) = String.substring 0 m t.
Proof. induction s as [|a s IH]; [done|]. rewrite append_cons. simpl. exact IH. Qed.

Lemma startswith_append p t : startswith (String.append p t) p = true.
Proof.
  unfold startswith. apply String.prefix_correct. apply substring_0_append.
Qed.

Lemma endswith_append n p : endswith (String.append n p) p = true.
Proof.
  unfold endswith. rewrite length_append.
  replace (String.length n + String.length p - String.length p)
    with (String.length n) by lia.
  rewrite substring_length_append, substring_0_length, String.eqb_refl.
  rewrite andb_true_r. apply Nat.leb_le. lia.
Qed.

(** A prefix test that succeeds on [n] extended by a character foreign to
    the prefix succeeds on [n]. *)
Lemma prefix_before_foreign p : forall n c t,
  c ∉ list_ascii_of_string p ->
  String.prefix p (String.append n (String c t)) = true ->
  String.prefix p n = true.
Proof.
  induction p as [|a p IH]; intros n c t Hc; simpl; [by destruct n|].
  simpl in Hc. apply not_elem_of_cons in Hc as [Hca Hc].
  destruct n as [|b n].
  - change (String.append EmptyString (String c t)) with (String c t).
    simpl. destruct (ascii_dec a c) as [->|]; [by destruct Hca | done].
  - rewrite append_cons. simpl.
    destruct (ascii_dec a b); [by apply IH | done].
Qed.

Lemma strip_prefix n :
  String.substring 7 (String.length (String.append "config-" n) - 7)
    (String.append "config-" n) = n.
Proof.
  rewrite length_append.
  change (String.length "config-") with 7.
  replace (7 + String.length n - 7) with (String.length n) by lia.
  change 7 with (String.length "config-") at 1.
  by rewrite substring_length_append, substring_0_length.
Qed.

Lemma strip_suffix n :
  String.substring 0 (String.length (String.append n ".yaml") - 5)
    (String.append n ".yaml") = n.
Proof.
  rewrite length_append. change (String.length ".yaml") with 5.
  replace (String.length n + 5 - 5) with (String.length n) by lia.
  apply substring_0_append.
Qed.

(** X5. The name of a configuration file normalises to the name of the
    configuration: [config-<n>.yaml] gives [n], whatever [n] is.  When [n]
    itself carries neither the prefix nor the suffix, [n], [config-<n>],
    [<n>.yaml] and [config-<n>.yaml] all name the configuration [n]. *)
Theorem normalize_name_of_file_name n :
  normalize_name (String.append "config-" (String.append n ".yaml")) = n
  /\ (startswith n "config-" = false -> endswith n ".yaml" = false ->
      normalize_name n = n
      /\ normalize_name (String.append "config-" n) = n
      /\ normalize_name (String.append n ".yaml") = n).
Proof.
  split.
  - unfold normalize_name.
    rewrite startswith_append, strip_prefix, endswith_append.
    apply strip_suffix.
  - intros Hpre Hsuf. repeat split.
    + unfold normalize_name. by rewrite Hpre, Hsuf.
    + unfold normalize_name. by rewrite startswith_append, strip_prefix, Hsuf.
    + unfold normalize_name.
      assert (Hpre' : startswith (String.append n ".yaml") "config-" = false).
      { destruct (startswith (String.append n ".yaml") "config-") eqn:E; [|done].
        unfold startswith in E, Hpre.
        apply prefix_before_foreign in E; [congruence|].
        compute_done. }
      rewrite Hpre', endswith_append. apply strip_suffix.
Qed.

End Names.

Lemma normalize_name_of_file_name_witness :
  normalize_name "base" = "base"
  /\ normalize_name "config-base" = "base"
  /\ normalize_name "base.yaml" = "base".
Proof.
  apply (proj2 (normalize_name_of_file_name "base")); reflexivity.
Defined.

(** ** Creating a configuration, then resolving it *)

Section CreatedConfigs.

Variable hiyapyco_load : list dict -> result dict.

Implicit Types (fs : files) (c : cache) (name img : string).

(** From the empty cache the loader computes what the cache-free resolver
    does, at the same depth. *)
Lemma load_config_fresh depth : forall fs name,
  (load_config depth fs ∅ name).1 = resolve depth fs name.
Proof.
  induction depth as [|depth IH]; intros fs name; [done|].
  rewrite load_config_S, lookup_empty. simpl.
  destruct (fs !! name) as [config|]; [|done].
  destruct (Dict.get "extends" config) as [[| | |raw| |]|]; try done.
  rewrite <- IH.
  by destruct (load_config depth fs ∅ (normalize_name raw)) as [[base|e] c1].
Qed.

(** A new file changes nothing for the names that resolved without it. *)
Lemma resolve_insert_fresh depth : forall fs name d x v,
  fs !! x = None -> resolve depth fs name = Ok d ->
  resolve depth (<[x := v]> fs) name = Ok d.
Proof.
  induction depth as [|depth IH]; intros fs name d x v Hx; simpl; [done|].
  destruct (fs !! name) as [config|] eqn:Hf; [|done].
  rewrite lookup_insert_ne by congruence. rewrite Hf.
  destruct (Dict.get "extends" config) as [[| | |raw| |]|]; try done.
  destruct (resolve depth fs (normalize_name raw)) as [base|] eqn:Hb; [|done].
  by rewrite (IH _ _ _ x v Hx Hb).
Qed.

(** X6. Creating a configuration under a name with no file succeeds and
    adds the template; a second creation under that name is refused and
    changes nothing.  Every configuration that resolved before resolves to
    the same document afterwards, and when [base] resolves, the new
    configuration resolves to [base] merged with the template less its
    [extends] field. *)
Theorem created_config_inherits_base fs name img :
  fs !! name = None ->
  let fs' := <[name := config_data name img]> fs in
  create_config fs name img = (true, fs')
  /\ (forall img', create_config fs' name img' = (false, fs'))
  /\ (forall depth other d,
        (load_config depth fs ∅ other).1 = Ok d ->
        (load_config depth fs' ∅ other).1 = Ok d)
  /\ (forall depth b,
        (load_config depth fs ∅ "base").1 = Ok b ->
        (load_config (S depth) fs' ∅ name).1
        = Ok (merge_dicts b (Dict.del "extends" (config_data name img)))).
Proof.
  intros Hnew fs'. repeat split.
  - unfold create_config. by rewrite Hnew.
  - intros img'. unfold create_config, fs'. by rewrite lookup_insert_eq.
  - intros depth other d. rewrite !load_config_fresh.
    by apply resolve_insert_fresh.
  - intros depth b. rewrite !load_config_fresh. intros Hb.
    apply (resolve_insert_fresh _ _ _ _ name (config_data name img) Hnew) in Hb.
    cbn [resolve]. unfold fs'. rewrite lookup_insert_eq.
    change (Dict.get "extends" (config_data name img))
      with (Some (VStr "config-base.yaml")).
    cbv iota beta.
    change (normalize_name "config-base.yaml") with "base".
    by rewrite Hb.
Qed.

(** X7. A configuration created where no [base] exists: the simple
    loader cannot resolve it, so its validation fails on the missing
    [base]; the HiYaPyCo loader passes over the missing ancestor, and the
    template validates on its own.  Created under the name [base] itself,
    the template extends itself and the simple loader uses up any
    recursion depth. *)
Theorem created_config_without_base fs name img :
  fs !! name = None -> fs !! "base" = None ->
  let fs' := (create_config fs name img).2 in
  (name <> "base" ->
     (forall depth,
        validate_config (load_config (S (S depth))) fs' ∅ name
        = (false, [ErrValidating (FileNotFoundError "base")], ∅))
     /\ validate_config (hiyapyco_load_config hiyapyco_load) fs' ∅ name
        = (true, [InfoValid name],
           {[name := Dict.del "extends" (config_data name img)]}))
  /\ (name = "base" ->
      forall depth c, lifetime simple_loader fs' c ->
        load_config depth fs' c name = (Raise RecursionError, c)).
Proof.
  intros Hnew Hbase fs'.
  assert (Hfs' : fs' = <[name := config_data name img]> fs)
    by (unfold fs', create_config; by rewrite Hnew).
  assert (Hf : fs' !! name = Some (config_data name img))
    by (rewrite Hfs'; apply lookup_insert_eq).
  split.
  - intros Hne.
    assert (Hb : fs' !! "base" = None)
      by (rewrite Hfs', lookup_insert_ne by done; exact Hbase).
    split.
    + intros depth. unfold validate_config. rewrite Hf.
      rewrite load_config_S, lookup_empty, Hf. simpl.
      change (normalize_name "config-base.yaml") with "base".
      by rewrite lookup_empty, Hb.
    + unfold validate_config. rewrite Hf.
      unfold hiyapyco_load_config. rewrite lookup_empty, Hf. simpl.
      change (normalize_name "config-base.yaml") with "base".
      rewrite Hb. reflexivity.
  - intros -> depth c Hlife. apply load_config_endless.
    + intros m Hm. apply tc_has_parent.
      apply (cycle_closed fs' "base"); [|done].
      apply tc_once. unfold extends_step, parent. by rewrite Hf.
    + by apply lifetime_coherent.
Qed.

End CreatedConfigs.

Lemma created_config_inherits_base_witness :
  create_config sample_fs "fresh" "image"
  = (true, <["fresh" := config_data "fresh" "image"]> sample_fs).
Proof.
  apply (created_config_inherits_base sample_fs "fresh" "image").
  vm_compute. reflexivity.
Defined.

Lemma created_config_without_base_witness :
  validate_config (load_config 2) (create_config ∅ "fresh" "image").2 ∅ "fresh"
  = (false, [ErrValidating (FileNotFoundError "base")], ∅).
Proof.
  assert (Hnone : (∅ : files) !! "fresh" = None) by reflexivity.
  assert (Hbase : (∅ : files) !! "base" = None) by reflexivity.
  apply (proj1 (created_config_without_base sample_hiyapyco_load
                  ∅ "fresh" "image" Hnone Hbase)).
  done.
Defined.

(** ** The cache across calls *)

Section CacheAcrossCalls.

Variable hiyapyco_load : list dict -> result dict.

Implicit Types (fs : files) (c : cache) (name : string).

Lemma load_config_raise depth : forall fs c name e c',
  load_config depth fs c name = (Raise e, c') -> c' = c.
Proof.
  induction depth as [|depth IH]; intros fs c name e c'; [by intros [= _ <-]|].
  rewrite load_config_S.
  destruct (c !! name) as [cached|]; [done|].
  destruct (fs !! name) as [config|]; [|by intros [= _ <-]].
  destruct (Dict.get "extends" config) as [[| | |raw| |]|];
    try by intros [= _ <-].
  - destruct (load_config depth fs c (normalize_name raw)) as [[base|e1] c1] eqn:Hb;
      [done|].
    intros [= _ <-]. by eapply IH.
Qed.

(** X8. A call that fails for a missing file, for an [extends] value that
    is not a string, or inside the library, leaves the cache as it was,
    with either loader: the failure comes before anything is cached.
    (The recursion limit is left aside: it can also be met in the merge,
    after the ancestor has been cached.) *)
Theorem failed_call_leaves_cache depth fs c name e c' :
  e <> RecursionError ->
  (load_config depth fs c name = (Raise e, c') -> c' = c)
  /\ (hiyapyco_load_config hiyapyco_load fs c name = (Raise e, c') -> c' = c).
Proof.
  intros _. split; [apply load_config_raise|].
  unfold hiyapyco_load_config.
  destruct (c !! name) as [cached|]; [done|].
  destruct (fs !! name) as [config|]; [|by intros [= _ <-]].
  match goal with |- context [match ?m with Ok _ => _ | Raise _ => _ end] =>
    destruct m end; [done | by intros [= _ <-]].
Qed.

Lemma load_config_ancestors_cached depth : forall fs c name r c',
  load_config depth fs c name = (r, c') ->
  ancestors_cached fs c -> ancestors_cached fs c'.
Proof.
  induction depth as [|depth IH]; intros fs c name r c'; [by intros [= _ <-]|].
  rewrite load_config_S.
  destruct (c !! name) as [cached|] eqn:Hc; [by intros [= _ <-]|].
  destruct (fs !! name) as [config|] eqn:Hf; [|by intros [= _ <-]].
  destruct (Dict.get "extends" config) as [[| | |raw| |]|] eqn:He;
    try by intros [= _ <-].
  - destruct (load_config depth fs c (normalize_name raw)) as [[base|e1] c1] eqn:Hb.
    + intros [= _ <-] Hclosed.
      pose proof (IH _ _ _ _ _ Hb Hclosed) as Hclosed1.
      apply load_config_spec in Hb as (_ & _ & Hok).
      destruct (Hok base eq_refl) as [Hbase _].
      intros n b Hn Hp. destruct (decide (n = name)) as [->|Hne].
      * rewrite (parent_of_extends _ _ _ _ Hf He) in Hp. injection Hp as <-.
        destruct (decide (normalize_name raw = name)) as [->|Hne'].
        -- rewrite lookup_insert_eq. eauto.
        -- rewrite lookup_insert_ne by done. rewrite Hbase. eauto.
      * rewrite lookup_insert_ne in Hn by done.
        destruct (Hclosed1 n b Hn Hp) as [x Hx].
        destruct (decide (b = name)) as [->|Hne'].
        -- rewrite lookup_insert_eq. eauto.
        -- rewrite lookup_insert_ne by done. eauto.
    + intros [= _ <-] Hclosed. by eapply IH.
  - intros [= _ <-] Hclosed n b Hn Hp.
    destruct (decide (n = name)) as [->|Hne].
    + unfold parent, extends_target in Hp. by rewrite Hf, He in Hp.
    + rewrite lookup_insert_ne in Hn by done.
      destruct (Hclosed n b Hn Hp) as [x Hx].
      destruct (decide (b = name)) as [->|Hne'].
      * rewrite lookup_insert_eq. eauto.
      * rewrite lookup_insert_ne by done. eauto.
Qed.

(** X9. During a lifetime of the simple loader the cache holds, with every
    name, the whole of its ancestor chain: whatever a cached name reaches
    through [extends] is cached too. *)
Theorem cached_names_have_cached_ancestors fs c name m :
  lifetime simple_loader fs c ->
  is_Some (c !! name) -> in_chain fs name m -> is_Some (c !! m).
Proof.
  intros Hlife Hname Hchain.
  assert (Hclosed : ancestors_cached fs c).
  { clear Hname Hchain. unfold lifetime in Hlife.
    induction Hlife as [|depth c n r c' _ IH Hcall].
    - intros n b [x Hx]. by rewrite lookup_empty in Hx.
    - by eapply load_config_ancestors_cached. }
  induction Hchain as [|a b m Hab _ IH]; [done|].
  apply IH. by apply (Hclosed a b).
Qed.

End CacheAcrossCalls.

Lemma failed_call_leaves_cache_witness :
  (load_config 3 sample_fs ∅ "orphan").2 = ∅.
Proof.
  apply (proj1 (failed_call_leaves_cache sample_hiyapyco_load 3 sample_fs ∅
                  "orphan" (FileNotFoundError "ghost")
                  (load_config 3 sample_fs ∅ "orphan").2 ltac:(discriminate))).
  vm_compute. reflexivity.
Defined.

Lemma cached_names_have_cached_ancestors_witness :
  is_Some ((load_config 3 sample_fs ∅ "child").2 !! "base").
Proof.
  apply (cached_names_have_cached_ancestors sample_fs _ "child" "base").
  - exact sample_lifetime_simple.
  - vm_compute. eauto.
  - eapply rtc_l; [|apply rtc_refl]. vm_compute. reflexivity.
Defined.

(** ** The merge on the store: what the result shares with the ancestor *)

Section StoreSharing.

Implicit Types (s : Store.store) (result : nat) (key : string).

Lemma setitem_others s s1 result key x cur :
  Store.objects s !! result = Some (Store.ODict cur) ->
  Store.setitem result key x s = (Ok tt, s1) ->
  Store.objects s1 !! result = Some (Store.ODict (Dict.set key x cur)).
Proof.
  intros Hres Hrun. rewrite (StoreFacts.setitem_ok _ _ _ _ _ Hres) in Hrun.
  injection Hrun as <-. simpl.
  apply list_lookup_insert_eq. by eapply lookup_lt_Some.
Qed.

Lemma merge_entry_others rec result key value s s1 cur :
  (forall lc lv, Store.stable (Store.keeps (fun _ => True)) (rec lc lv)) ->
  Store.objects s !! result = Some (Store.ODict cur) ->
  Store.merge_entry rec result key value s = (Ok tt, s1) ->
  exists x, Store.objects s1 !! result = Some (Store.ODict (Dict.set key x cur)).
Proof.
  intros Hrec Hres Hrun. unfold Store.merge_entry in Hrun.
  rewrite (StoreFacts.bind_eq _ _ _ _ _ (StoreFacts.read_dict_ok _ _ _ Hres)) in Hrun.
  destruct (Dict.get key cur) as [c|];
    [|eexists; by eapply setitem_others].
  apply StoreFacts.bind_inv_ok in Hrun as (cs & s0 & Hcs & Hrun).
  apply (StoreFacts.stable_shape_of (fun _ => True)) in Hcs as [Hk0 _].
  apply StoreFacts.bind_inv_ok in Hrun as (vs & s2 & Hvs & Hrun).
  apply (StoreFacts.stable_shape_of (fun _ => True)) in Hvs as [Hk2 _].
  assert (Hres2 : Store.objects s2 !! result = Some (Store.ODict cur)) by auto.
  destruct cs, vs, c, value;
    try (eexists; by eapply setitem_others).
  - apply StoreFacts.bind_inv_ok in Hrun as (m & s3 & Hm & Hrun).
    apply (StoreFacts.stable_merge_lists (fun _ => True)) in Hm as [Hk3 _].
    eexists. eapply setitem_others; [|exact Hrun]. auto.
  - apply StoreFacts.bind_inv_ok in Hrun as (m & s3 & Hm & Hrun).
    apply Hrec in Hm as [Hk3 _].
    eexists. eapply setitem_others; [|exact Hrun]. auto.
Qed.

Lemma merge_items_others rec result items : forall s s' cur,
  (forall lc lv, Store.stable (Store.keeps (fun _ => True)) (rec lc lv)) ->
  Store.objects s !! result = Some (Store.ODict cur) ->
  Store.merge_items rec result items s = (Ok tt, s') ->
  exists cur',
    Store.objects s' !! result = Some (Store.ODict cur')
    /\ forall k, Dict.get k items = None -> Dict.get k cur' = Dict.get k cur.
Proof.
  induction items as [|[key value] items IH]; intros s s' cur Hrec Hres Hrun.
  - injection Hrun as <-. eauto.
  - cbn [Store.merge_items] in Hrun.
    apply StoreFacts.bind_inv_ok in Hrun as ([] & s1 & Hentry & Hrun).
    destruct (merge_entry_others _ _ _ _ _ _ _ Hrec Hres Hentry) as [x Hres1].
    destruct (IH _ _ _ Hrec Hres1 Hrun) as (cur' & Hres' & Hsame).
    exists cur'. split; [done|]. intros k Hk. simpl in Hk.
    destruct (String.eqb k key) eqn:E; [done|].
    apply String.eqb_neq in E.
    rewrite (Hsame k Hk). by apply get_set_ne.
Qed.

(** X10. On the store, [_merge_dicts] returns a new dict object and
    leaves every object it was given, and the cache, as they were.  Under
    every key the override does not bind, the new dict holds the very
    reference the ancestor holds: nested lists and dicts of the ancestor
    are shared with the result, not copied. *)
Theorem store_merge_shares_with_base depth base override s r s' bitems oitems :
  Store.objects s !! base = Some (Store.ODict bitems) ->
  Store.objects s !! override = Some (Store.ODict oitems) ->
  Store.merge_dicts depth base override s = (Ok r, s') ->
  r = length (Store.objects s)
  /\ Store.preserved (Store.objects s) (Store.objects s')
  /\ Store.cached s' = Store.cached s
  /\ exists ritems,
       Store.objects s' !! r = Some (Store.ODict ritems)
       /\ forall key, Dict.get key oitems = None ->
            Dict.get key ritems = Dict.get key bitems.
Proof.
  intros Hb Ho Hrun.
  pose proof (StoreFacts.stable_merge_dicts depth base override s _ s' Hrun)
    as [Hkeep Hcache].
  destruct depth as [|depth]; [done|].
  cbn [Store.merge_dicts] in Hrun.
  rewrite (StoreFacts.bind_eq _ _ _ _ _ (StoreFacts.read_dict_ok _ _ _ Hb)) in Hrun.
  unfold Store.bind at 1 in Hrun. cbn [Store.alloc] in Hrun.
  set (s1 := Store.mkStore (Store.objects s ++ [Store.ODict bitems])
               (Store.cached s)) in *.
  assert (Ho1 : Store.objects s1 !! override = Some (Store.ODict oitems))
    by by apply lookup_app_l_Some.
  rewrite (StoreFacts.bind_eq _ _ _ _ _ (StoreFacts.read_dict_ok _ _ _ Ho1)) in Hrun.
  apply StoreFacts.bind_inv_ok in Hrun as ([] & s2 & Hloop & [= <- <-]).
  split; [done|]. split; [intros l o Hl; by apply Hkeep|]. split; [done|].
  eapply merge_items_others; [apply StoreFacts.stable_merge_dicts| |exact Hloop].
  simpl. by apply list_lookup_middle.
Qed.

End StoreSharing.

Lemma store_merge_shares_with_base_witness :
  let s := Store.mkStore
             [Store.ODict [("nodes", Store.RObj 2)];
              Store.ODict [("name", Store.RStr "child")];
              Store.OList [Store.RStr "repoA"]] ∅ in
  exists ritems,
    Store.objects (Store.merge_dicts 1 0 1 s).2 !! 3 = Some (Store.ODict ritems)
    /\ forall key,
         Dict.get key [("name", Store.RStr "child")] = None ->
         Dict.get key ritems = Dict.get key [("nodes", Store.RObj 2)].
Proof.
  intros s.
  apply (store_merge_shares_with_base 1 0 1 s 3 (Store.merge_dicts 1 0 1 s).2
           [("nodes", Store.RObj 2)] [("name", Store.RStr "child")]);
    reflexivity.
Defined.

(** ** Merging a list of configurations *)

Section HierarchyFacts.

Variable hiyapyco_load_all : list dict -> result dict.

Implicit Types (fs : files) (names : list string).

Lemma existing_configs_app fs names1 names2 :
  existing_configs fs (names1 ++ names2)
  = existing_configs fs names1 ++ existing_configs fs names2.
Proof.
  induction names1 as [|n names1 IH]; [done|]. simpl.
  destruct (fs !! n); [by rewrite IH | done].
Qed.

Lemma existing_configs_nil fs names :
  existing_configs fs names = [] <-> forall n, n ∈ names -> fs !! n = None.
Proof.
  induction names as [|n names IH]; simpl.
  - split; [intros _ n Hn; by apply elem_of_nil in Hn | done].
  - destruct (fs !! n) eqn:Hn.
    + split; [done|]. intros H. specialize (H n (list_elem_of_here _ _)). congruence.
    + rewrite IH. split.
      * intros H m [->|Hm]%elem_of_cons; auto.
      * intros H m Hm. apply H. by right.
Qed.

Lemma existing_configs_all fs names docs :
  Forall2 (fun n d => fs !! n = Some d) names docs ->
  existing_configs fs names = docs.
Proof. induction 1 as [|n d names docs Hn _ IH]; simpl; [done|]. by rewrite Hn, IH. Qed.

(** X11. [load_configs_with_hierarchy] passes over the names that have no
    file: it raises [ValueError] exactly when none of the names has one,
    a name without a file can be left out of the list wherever it stands,
    and when every name has a file the result is that of the library on
    their documents, in the order of the names. *)
Theorem hierarchy_skips_missing_names fs :
  (forall names,
     load_configs_with_hierarchy hiyapyco_load_all fs names
     = Throws (ValueError "No valid config files found")
     <-> forall n, n ∈ names -> fs !! n = None)
  /\ (forall names1 names2 missing,
        fs !! missing = None ->
        load_configs_with_hierarchy hiyapyco_load_all fs (names1 ++ missing :: names2)
        = load_configs_with_hierarchy hiyapyco_load_all fs (names1 ++ names2))
  /\ (forall names docs,
        names <> [] ->
        Forall2 (fun n d => fs !! n = Some d) names docs ->
        load_configs_with_hierarchy hiyapyco_load_all fs names
        = of_result (hiyapyco_load_all docs)).
Proof.
  repeat split.
  - intros H. apply existing_configs_nil.
    unfold load_configs_with_hierarchy in H.
    destruct (existing_configs fs names) as [|d docs]; [done|].
    by destruct (hiyapyco_load_all (d :: docs)).
  - intros H. apply existing_configs_nil in H.
    unfold load_configs_with_hierarchy. by rewrite H.
  - intros names1 names2 missing Hm. unfold load_configs_with_hierarchy.
    rewrite !existing_configs_app. simpl. by rewrite Hm.
  - intros names docs Hne Hall. unfold load_configs_with_hierarchy.
    rewrite (existing_configs_all _ _ _ Hall).
    destruct Hall; [done | done].
Qed.

End HierarchyFacts.

(** ** Listing the configurations *)

Section ListConfigsFacts.

Implicit Types (fs : files) (old s p : string).

Lemma remove_all_aux_skip old p : forall s,
  remove_all_aux old (String.length p) (String.append p s) = remove_all_aux old 0 s.
Proof. induction p as [|a p IH]; intros s; [done|]. rewrite append_cons. simpl. apply IH. Qed.

(** The two equations of [replace(old, '')]. *)
Lemma remove_all_prefix old s :
  old <> EmptyString ->
  remove_all old (String.append old s) = remove_all old s.
Proof.
  intros Hold. destruct old as [|a old]; [done|].
  unfold remove_all. rewrite append_cons.
  cbn [remove_all_aux].
  rewrite <- append_cons.
  assert (Hp : String.prefix (String a old) (String.append (String a old) s) = true)
    by (apply String.prefix_correct, substring_0_append).
  rewrite Hp.
  replace (String.length (String a old) - 1) with (String.length old)
    by (simpl; lia).
  apply remove_all_aux_skip.
Qed.

Lemma remove_all_other old a s :
  String.prefix old (String a s) = false ->
  remove_all old (String a s) = String a (remove_all old s).
Proof. intros H. unfold remove_all. cbn [remove_all_aux]. by rewrite H. Qed.

Lemma remove_all_absent old s :
  String.index 0 old s = None -> remove_all old s = s.
Proof.
  induction s as [|a s IH]; [done|].
  cbn [String.index].
  destruct (String.prefix old (String a s)) eqn:Hp; [done|].
  destruct (String.index 0 old s); [done|]. intros _.
  rewrite remove_all_other by done. by rewrite IH.
Qed.

Lemma list_configs_Permutation glob_order fs :
  (forall g : gset string, glob_order g ≡ₚ elements g) ->
  list_configs glob_order fs
  ≡ₚ map (remove_all "config-") (elements (dom fs)).
Proof.
  intros Henum. unfold list_configs. rewrite merge_sort_Permutation.
  rewrite (Henum (dom fs)).
  apply Permutation_refl'. apply map_ext. intros f.
  unfold stem. by apply remove_all_prefix.
Qed.


End ListConfigsFacts.


(** A file whose name holds [config-] is listed under a name that has no
    file. *)
Example list_configs_misnames :
  let fs : files := {["my-config-x" := base_doc]} in
  list_configs elements fs = ["my-x"] /\ fs !! "my-x" = None.
Proof. split; vm_compute; reflexivity. Qed.

Lemma hierarchy_skips_missing_names_witness :
  load_configs_with_hierarchy sample_hiyapyco_load sample_fs ["base"; "ghost"; "child"]
  = load_configs_with_hierarchy sample_hiyapyco_load sample_fs ["base"; "child"].
Proof.
  apply (proj1 (proj2 (hierarchy_skips_missing_names sample_hiyapyco_load sample_fs))
           ["base"] ["child"] "ghost").
  reflexivity.
Defined.

(** ** The configuration file a build writes *)

Section GeneratedConfig.

Implicit Types (config : dict) (config_name name : string).

Lemma wf_get_default key config default :
  wf_dict config -> wf_value default = true ->
  wf_value (get_default key config default) = true.
Proof.
  intros Hwf Hd. unfold get_default.
  destruct (Dict.get key config) as [v|] eqn:E; [by eapply wf_dict_get | done].
Qed.

(** X13. The document written to [config.yaml] passes validation whenever
    the configuration it is generated from does; generating from it again,
    under the same name, gives the same document; and it repeats no key
    when the configuration repeats none. *)
Theorem generated_config_is_valid config config_name :
  (forall name,
     (validate_document name config).1 = true ->
     validate_document config_name (generate_config_data config config_name)
     = (true, [InfoValid config_name]))
  /\ generate_config_data (generate_config_data config config_name) config_name
     = generate_config_data config config_name
  /\ (wf_dict config -> wf_dict (generate_config_data config config_name)).
Proof.
  split; [|split].
  - intros name. unfold validate_document, validate_checks.
    destruct (check_required ["name"; "version"] config); [done|].
    change (check_required ["name"; "version"]
              (generate_config_data config config_name)) with (@None string).
    change (get_default "nodes" (generate_config_data config config_name) (VList []))
      with (get_default "nodes" config (VList [])).
    change (get_default "models" (generate_config_data config config_name) (VDict []))
      with (get_default "models" config (VDict [])).
    destruct (py_iter (get_default "nodes" config (VList []))) as [nodes|]; [|done].
    simpl. destruct (check_nodes nodes) as [[node|]|]; try done.
    simpl. destruct (py_items (get_default "models" config (VDict []))) as [models|];
      [|done].
    simpl. by destruct (check_models models) as [[model|]|].
  - reflexivity.
  - intros Hwf. unfold wf_dict. cbn [wf_value generate_config_data].
    apply andb_true_iff. split; [by apply bool_decide_eq_true; compute_done|].
    cbn -[get_default].
    rewrite !wf_get_default by done. done.
Qed.

End GeneratedConfig.

Lemma generated_config_is_valid_witness :
  validate_document "copy" (generate_config_data sound_doc "copy")
  = (true, [InfoValid "copy"]).
Proof.
  apply (proj1 (generated_config_is_valid sound_doc "copy") "sound").
  reflexivity.
Defined.

(** ** Building a configuration *)

Section BuildFacts.

Variable json_dump : value -> result unit.
Variable iteration_order : gset string -> list string.
Variable workflow_exists : string -> bool.
Variable copy2 : string -> result unit.

Implicit Types (config : dict) (config_name name : string) (s rest : step).

Local Abbreviation copy_workflows_ := (copy_workflows workflow_exists copy2).
Local Abbreviation process_requirements_ := (process_requirements_of iteration_order).
Local Abbreviation process_nodes_ := (process_nodes json_dump).
Local Abbreviation process_models_ := (process_models json_dump).
Local Abbreviation build_ := (build json_dump iteration_order workflow_exists copy2).
Local Abbreviation build_config_ :=
  (build_config json_dump iteration_order workflow_exists copy2).

Lemma and_then_stopped s rest :
  existsb is_startup s.2 = false -> stopped rest -> stopped (and_then s rest).
Proof.
  intros Hs [Hr He]. destruct s as [[[|]|e] events];
    unfold stopped, and_then; cbn [fst snd] in *; split; try done.
  by rewrite existsb_app, Hs, He.
Qed.

Lemma and_then_true s rest :
  (and_then s rest).1 = Returns true ->
  s.1 = Returns true /\ rest.1 = Returns true
  /\ (and_then s rest).2 = s.2 ++ rest.2.
Proof. destruct s as [[[|]|e] events]; simpl; intros H; try done. Qed.

Lemma and_then_both s rest :
  s.1 = Returns true -> rest.1 = Returns true ->
  (and_then s rest).1 = Returns true.
Proof. destruct s as [[[|]|e] events]; simpl; intros H; try done. Qed.

Lemma process_nodes_events nodes :
  existsb is_startup (process_nodes_ nodes).2 = false.
Proof.
  unfold process_nodes. destruct (truthy nodes); [|done]. simpl.
  by destruct (json_dump nodes).
Qed.

Lemma process_models_events models :
  existsb is_startup (process_models_ models).2 = false.
Proof.
  unfold process_models. destruct (truthy models); [|done]. simpl.
  by destruct (json_dump models).
Qed.

Lemma process_requirements_events requirements :
  existsb is_startup (process_requirements_ requirements).2 = false.
Proof.
  unfold process_requirements_of.
  destruct (truthy requirements); [|done]. simpl.
  destruct (py_iter requirements) as [items|]; [|done]. simpl.
  destruct (strings_of items) as [l|]; [|done].
  by destruct l.
Qed.

Lemma copy_each_events items :
  existsb is_startup (copy_each workflow_exists copy2 items).2 = false.
Proof.
  induction items as [|[| | |w| |] items IH]; simpl; try done.
  destruct (workflow_exists w); [|done].
  destruct (copy2 w); [|done].
  by destruct (copy_each workflow_exists copy2 items).
Qed.

Lemma copy_workflows_events config :
  existsb is_startup (copy_workflows_ config).2 = false.
Proof.
  unfold copy_workflows.
  destruct (truthy _); [|done]. simpl.
  destruct (py_iter _) as [items|]; [|done].
  pose proof (copy_each_events items) as H.
  by destruct (copy_each workflow_exists copy2 items) as [[|] events].
Qed.

(** X14. A configuration with a true [generate_dockerfile] cannot be
    built: [build] returns [False], and [startup.sh] is not written,
    whatever the rest of the configuration holds. *)
Theorem build_stops_at_dockerfile config config_name :
  truthy (get_default "generate_dockerfile" config (VBool false)) = true ->
  (build_ config config_name).1 = false
  /\ existsb is_startup (build_ config config_name).2 = false.
Proof.
  intros Hflag.
  assert (Hstop : stopped (build_steps json_dump iteration_order workflow_exists copy2
                             config config_name)).
  { unfold build_steps.
    apply and_then_stopped; [apply process_nodes_events|].
    apply and_then_stopped; [apply process_models_events|].
    apply and_then_stopped; [apply process_requirements_events|].
    apply and_then_stopped; [done|].
    apply and_then_stopped; [apply copy_workflows_events|].
    unfold dockerfile_step. rewrite Hflag. by split. }
  destruct Hstop as [Hr He]. unfold build.
  destruct (build_steps _ _ _ _ config config_name) as [[[|]|e] events]; done.
Qed.

(** X15. What a build that returns [True] has done: the configuration
    has no true [generate_dockerfile], and the output directory received,
    in this order, what the steps for nodes, models and requirements
    wrote, [config.yaml] with the generated document, the workflows
    copied, and [startup.sh]. *)
Theorem build_success config config_name :
  (build_ config config_name).1 = true ->
  truthy (get_default "generate_dockerfile" config (VBool false)) = false
  /\ (build_ config config_name).2
     = (process_nodes_ (get_default "nodes" config (VList []))).2
       ++ (process_models_ (get_default "models" config (VDict []))).2
       ++ (process_requirements_ (get_default "requirements" config (VList []))).2
       ++ [WriteYaml "config.yaml" (generate_config_data config config_name)]
       ++ (copy_workflows_ config).2
       ++ [WriteStartupScript config_name].
Proof.
  unfold build, build_steps.
  match goal with |- context [and_then ?a ?b] => set (steps := and_then a b) end.
  intros H.
  assert (Htrue : steps.1 = Returns true).
  { destruct steps as [[[|]|e] events]; done. }
  assert (Hevents : (let (o, events) := steps in
                     match o with Returns b => (b, events) | Throws _ => (false, events) end).2
                    = steps.2) by (by destruct steps as [[|] events]).
  rewrite Hevents. clear H Hevents. subst steps.
  apply and_then_true in Htrue as (_ & Htrue & ->).
  apply and_then_true in Htrue as (_ & Htrue & ->).
  apply and_then_true in Htrue as (_ & Htrue & ->).
  apply and_then_true in Htrue as (_ & Htrue & ->).
  apply and_then_true in Htrue as (_ & Htrue & ->).
  apply and_then_true in Htrue as (Hflag & _ & ->).
  unfold dockerfile_step in *.
  destruct (truthy (get_default "generate_dockerfile" config (VBool false))); done.
Qed.

Lemma validate_document_true name config :
  (validate_document name config).1 = true ->
  validate_document name config = (true, [InfoValid name])
  /\ exists nodes models,
       py_iter (get_default "nodes" config (VList [])) = Ok nodes
       /\ check_nodes nodes = Ok None
       /\ py_items (get_default "models" config (VDict [])) = Ok models
       /\ check_models models = Ok None.
Proof.
  unfold validate_document, validate_checks.
  destruct (check_required ["name"; "version"] config); [done|].
  destruct (py_iter (get_default "nodes" config (VList []))) as [nodes|] eqn:Hn;
    [|done].
  simpl. destruct (check_nodes nodes) as [[node|]|] eqn:Hcn; try done.
  simpl. destruct (py_items (get_default "models" config (VDict []))) as [models|] eqn:Hm;
    [|done].
  simpl. destruct (check_models models) as [[model|]|] eqn:Hcm; try done.
  intros _. split; [done|]. by exists nodes, models.
Qed.

(** X16. [build_config] builds what validation has seen: when it returns
    [True] with the simple loader, the document handed to [build] is the
    resolved document of the name, the one validation accepted and the
    cache now holds, and the events are those of its build. *)
Theorem build_config_builds_validated fs c depth config_name c' events :
  build_config_ (load_config (S depth)) fs c config_name = (true, c', events) ->
  lifetime simple_loader fs c ->
  exists config k,
    resolve k fs config_name = Ok config
    /\ c' !! config_name = Some config
    /\ validate_document config_name config = (true, [InfoValid config_name])
    /\ build_ config config_name = (true, events).
Proof.
  unfold build_config, validate_config.
  destruct (fs !! config_name) as [source|] eqn:Hf; [|by simpl].
  destruct (load_config (S depth) fs c config_name) as [[config|e] c1] eqn:Hload;
    [|by simpl].
  apply load_config_spec in Hload as (_ & _ & Hok).
  destruct (Hok config eq_refl) as [Hcached Hres].
  destruct (validate_document config_name config) as [[|] log] eqn:Hv; [|by simpl].
  cbv iota beta. rewrite load_config_S, Hcached.
  destruct (build _ _ _ _ config config_name) as [b ev] eqn:Hb.
  intros [= -> <- <-] Hco%lifetime_coherent. destruct (Hres Hco) as [k Hk].
  exists config, k. repeat split; try done.
  apply (validate_document_true config_name config). by rewrite Hv.
Qed.

Lemma strings_of_map l : strings_of (map VStr l) = Some l.
Proof. induction l as [|x l IH]; simpl; [done|]. by rewrite IH. Qed.

Lemma copy_each_strings l :
  (forall w, w ∈ l -> workflow_exists w = true -> copy2 w = Ok tt) ->
  (copy_each workflow_exists copy2 (map VStr l)).1 = Returns tt.
Proof.
  induction l as [|w l IH]; intros Hcopy; simpl; [done|].
  assert (IH' : (copy_each workflow_exists copy2 (map VStr l)).1 = Returns tt)
    by (apply IH; intros x Hx; apply Hcopy; by right).
  destruct (workflow_exists w) eqn:Hw; [|done].
  rewrite (Hcopy w (list_elem_of_here _ _) Hw).
  by destruct (copy_each workflow_exists copy2 (map VStr l)).
Qed.


End BuildFacts.

Lemma build_stops_at_dockerfile_witness :
  (build (fun _ => Ok tt) elements (fun _ => false) (fun _ => Ok tt)
     [("name", VStr "image"); ("version", VStr "1.0");
      ("generate_dockerfile", VBool true)] "image").1 = false.
Proof.
  apply (proj1 (build_stops_at_dockerfile (fun _ => Ok tt) elements (fun _ => false) (fun _ => Ok tt)
                  [("name", VStr "image"); ("version", VStr "1.0");
                   ("generate_dockerfile", VBool true)] "image" eq_refl)).
Defined.

Lemma build_success_witness :
  truthy (get_default "generate_dockerfile" sound_doc (VBool false)) = false.
Proof.
  apply (proj1 (build_success (fun _ => Ok tt) elements (fun _ => false) (fun _ => Ok tt)
                  sound_doc "sound" eq_refl)).
Defined.

Lemma build_config_builds_validated_witness :
  exists config k,
    resolve k validation_fs "sound" = Ok config
    /\ (build_config (fun _ => Ok tt) elements (fun _ => false) (fun _ => Ok tt)
          (load_config 3) validation_fs ∅ "sound").1.2 !! "sound" = Some config
    /\ validate_document "sound" config = (true, [InfoValid "sound"])
    /\ build (fun _ => Ok tt) elements (fun _ => false) (fun _ => Ok tt) config "sound"
       = (true,
          (build_config (fun _ => Ok tt) elements (fun _ => false) (fun _ => Ok tt)
             (load_config 3) validation_fs ∅ "sound").2).
Proof.
  apply (build_config_builds_validated (fun _ => Ok tt) elements (fun _ => false) (fun _ => Ok tt)
           validation_fs ∅ 2 "sound").
  - vm_compute. reflexivity.
  - apply later_refl.
Defined.


(** ** Installing the nodes of a configuration *)

Section InstallFacts.

Variable W : Type.
Variable install_node : W -> value -> value -> bool * W.

Implicit Types (w : W) (items nodes : list value) (success : option bool).

(** The state of the nodes directory after the call made for a node. *)
Local Abbreviation after_call :=
  (fun w node => (install_node w (node_url node) (node_branch node)).2).

Lemma install_each_installable items : forall success w,
  forallb installable items = true ->
  exists warned,
    install_each W install_node items success w
    = (Returns tt, fold_left after_call items w, warned).
Proof.
  induction items as [|node items IH]; intros success w Hall; [by eexists|].
  apply andb_true_iff in Hall as [Hnode Hall].
  cbn [install_each fold_left].
  destruct node as [| | |url| |d]; try done.
  - cbn [install_one node_url node_branch].
    destruct (install_node w (VStr url) VNull) as [b w1] eqn:Hcall. cbn [snd].
    destruct (IH (Some b) w1 Hall) as [warned ->]. by eexists.
  - cbn [install_one node_url node_branch]. unfold get_default at 2.
    simpl in Hnode. unfold Dict.mem in Hnode.
    destruct (Dict.get "url" d) as [url|]; [|done].
    destruct (install_node w url (get_default "branch" d VNull)) as [b w1] eqn:Hcall.
    cbn [snd].
    destruct (IH (Some b) w1 Hall) as [warned ->]. by eexists.
Qed.

Lemma install_each_key_error pre d rest : forall success w,
  forallb installable pre = true -> Dict.mem "url" d = false ->
  exists warned,
    install_each W install_node (pre ++ VDict d :: rest) success w
    = (Throws (KeyError "url"), fold_left after_call pre w, warned).
Proof.
  induction pre as [|node pre IH]; intros success w Hall Hd.
  - cbn [app install_each install_one fold_left]. unfold Dict.mem in Hd.
    destruct (Dict.get "url" d); [done|]. by eexists.
  - apply andb_true_iff in Hall as [Hnode Hall].
    cbn [app install_each fold_left].
    destruct node as [| | |url| |d']; try done.
    + cbn [install_one node_url node_branch].
      destruct (install_node w (VStr url) VNull) as [b w1] eqn:Hcall. cbn [snd].
      destruct (IH (Some b) w1 Hall Hd) as [warned ->]. by eexists.
    + cbn [install_one node_url node_branch]. unfold get_default at 2.
      simpl in Hnode. unfold Dict.mem in Hnode.
      destruct (Dict.get "url" d') as [url|]; [|done].
      destruct (install_node w url (get_default "branch" d' VNull)) as [b w1] eqn:Hcall.
      cbn [snd].
      destruct (IH (Some b) w1 Hall Hd) as [warned ->]. by eexists.
Qed.

(** X18. [install_nodes] on a configuration that loads, with a list under
    [nodes]: when every node is a string or a mapping with a [url], it
    returns [True] whatever the installer returns, after one call per
    node, in order, with the node's [url] and [branch]; a first node that
    is neither a string nor a mapping makes it return [False] before any
    call; a mapping without [url] makes it return [False] after the calls
    for the nodes before it. *)
Theorem install_nodes_outcomes
    (loader : files -> cache -> string -> result dict * cache)
    fs c config_name config c' items w :
  is_Some (fs !! config_name) ->
  loader fs c config_name = (Ok config, c') ->
  get_default "nodes" config (VList []) = VList items ->
  (forallb installable items = true ->
   exists warned,
     install_nodes W install_node loader fs c config_name w
     = (true, c', fold_left after_call items w, warned))
  /\ (forall node rest,
        items = node :: rest ->
        match node with VDict _ | VStr _ => False | _ => True end ->
        install_nodes W install_node loader fs c config_name w
        = (false, c', w, []))
  /\ (forall pre d rest,
        items = pre ++ VDict d :: rest ->
        forallb installable pre = true -> Dict.mem "url" d = false ->
        exists warned,
          install_nodes W install_node loader fs c config_name w
          = (false, c', fold_left after_call pre w, warned)).
Proof.
  intros [source Hf] Hload Hnodes. unfold install_nodes.
  rewrite Hf, Hload, Hnodes. split; [|split].
  - intros Hall. destruct items as [|node items]; [by eexists|].
    cbn [truthy negb py_iter].
    destruct (install_each_installable (node :: items) None w Hall) as [warned ->].
    by eexists.
  - intros node rest -> Hnode. cbn [truthy negb py_iter install_each].
    by destruct node.
  - intros pre d rest -> Hall Hd.
    destruct (install_each_key_error pre d rest None w Hall Hd) as [warned Heach].
    destruct (pre ++ VDict d :: rest) as [|node items] eqn:E;
      [by destruct pre|].
    cbn [truthy negb py_iter]. rewrite Heach. by eexists.
Qed.

End InstallFacts.

Lemma install_nodes_outcomes_witness :
  exists warned,
    install_nodes (list (value * value))
      (fun w url branch => (false, w ++ [(url, branch)]))
      (load_config 3) sample_fs ∅ "child" []
    = (true, (load_config 3 sample_fs ∅ "child").2,
       [(VStr "repoA", VNull); (VStr "repoB", VNull)], warned).
Proof.
  apply (proj1 (install_nodes_outcomes (list (value * value))
                  (fun w url branch => (false, w ++ [(url, branch)]))
                  (load_config 3) sample_fs ∅ "child"
                  (merge_dicts base_doc (Dict.del "extends" child_doc))
                  (load_config 3 sample_fs ∅ "child").2
                  [VStr "repoA"; VStr "repoB"] []
                  ltac:(vm_compute; eauto)
                  ltac:(vm_compute; reflexivity)
                  ltac:(reflexivity))).
  reflexivity.
Defined.

(** ** Which downloader a model URL is given to *)

Section DownloadMethod.

Implicit Types (url p q s : string) (c a : ascii).

Lemma substring_after p s :
  String.substring (String.length p)
    (String.length (String.append p s) - String.length p) (String.append p s) = s.
Proof.
  rewrite length_append.
  replace (String.length p + String.length s - String.length p)
    with (String.length s) by lia.
  by rewrite substring_length_append, substring_0_length.
Qed.

Lemma append_nonempty p s : p <> EmptyString -> String.append p s <> EmptyString.
Proof. destruct p; [done|]. by rewrite append_cons. Qed.

Lemma prefix_contains p s : String.prefix p s = true -> contains p s = true.
Proof.
  unfold contains. destruct s as [|a s]; simpl.
  - by destruct p.
  - by intros ->.
Qed.

Lemma prefix_app_l p q : forall s,
  String.prefix (String.append p q) s = true -> String.prefix p s = true.
Proof.
  induction p as [|a p IH]; intros s; [by destruct s|].
  rewrite append_cons. destruct s as [|b s]; [done|]. simpl.
  destruct (ascii_dec a b); [apply IH | done].
Qed.

Lemma contains_char c s : contains (String c EmptyString) s = negb (free_of c s).
Proof.
  unfold contains. induction s as [|a s IH]; [done|].
  cbn [String.index String.prefix free_of].
  destruct (ascii_dec c a) as [->|Hne].
  - rewrite Ascii.eqb_refl. by destruct s.
  - assert (E : Ascii.eqb a c = false) by (apply Ascii.eqb_neq; congruence).
    rewrite E. cbn [negb andb]. rewrite <- IH.
    by destruct (String.index 0 (String c EmptyString) s).
Qed.

Lemma prefix_free c p : forall s,
  String.prefix p s = true -> free_of c s = true -> free_of c p = true.
Proof.
  induction p as [|a p IH]; intros s; [done|].
  destruct s as [|b s]; [done|]. simpl.
  destruct (ascii_dec a b) as [->|]; [|done].
  intros Hp [Hb Hs]%andb_true_iff. rewrite Hb. simpl. by eapply IH.
Qed.

Lemma contains_free c p s :
  contains p s = true -> free_of c s = true -> free_of c p = true.
Proof.
  unfold contains. induction s as [|a s IH].
  - destruct p; [done|]. simpl. done.
  - cbn [String.index].
    destruct (String.prefix p (String a s)) eqn:Hp.
    + intros _. by apply prefix_free.
    + intros H [_ Hs]%andb_true_iff. apply IH; [|done].
      by destruct (String.index 0 p s).
Qed.

Lemma starts_with_h url :
  startswith url "http" = true -> exists rest, url = String "h" rest.
Proof.
  unfold startswith. destruct url as [|a rest]; [done|].
  cbn [String.prefix]. destruct (ascii_dec "h" a) as [<-|]; [eauto|].
  intros [=].
Qed.

(** X19. Where [_download_model] sends a URL.  A URL [civitai:<id>] goes to
    the CivitAI downloader with [<id>].  The test for the prefix
    [fx1/collection/] adds nothing to the test for [fx1/collection]
    anywhere in the URL.  A URL that starts with [http] but not with
    [https://], and mentions neither [huggingface.co] nor
    [fx1/collection], is refused as of unknown format; so is a URL
    without [/] that is not a [civitai:] reference and does not mention
    [huggingface.co]. *)
Theorem download_method_cases url :
  (forall model_id,
     download_method_of (String.append "civitai:" model_id) = ViaCivitai model_id)
  /\ startswith url "fx1/collection/" || contains "fx1/collection" url
     = contains "fx1/collection" url
  /\ (startswith url "http" = true ->
      startswith url "https://" = false ->
      contains "huggingface.co" url = false ->
      contains "fx1/collection" url = false ->
      download_method_of url = UnknownFormat)
  /\ (url <> EmptyString ->
      contains "/" url = false ->
      startswith url "civitai:" = false ->
      contains "huggingface.co" url = false ->
      download_method_of url = UnknownFormat).
Proof.
  split; [|split; [|split]].
  - intros model_id. unfold download_method_of.
    assert (E : String.eqb (String.append "civitai:" model_id) "" = false)
      by (by apply String.eqb_neq, append_nonempty).
    rewrite E, startswith_append.
    change 8 with (String.length "civitai:"). by rewrite substring_after.
  - destruct (startswith url "fx1/collection/") eqn:Hp; [|done].
    symmetry. apply prefix_contains.
    apply (prefix_app_l "fx1/collection" "/"). exact Hp.
  - intros Hhttp Hs Hhf Hfx. destruct (starts_with_h url Hhttp) as [rest ->].
    unfold download_method_of. rewrite Hfx, Hhf, Hs, Hhttp.
    change (startswith (String "h" rest) "civitai:") with false.
    change (startswith (String "h" rest) "fx1/collection/") with false.
    cbn [orb negb]. by rewrite andb_false_r.
  - intros Hne Hslash Hciv Hhf. unfold download_method_of.
    apply String.eqb_neq in Hne. rewrite Hne, Hciv, Hhf, Hslash.
    assert (Hfree : free_of "/" url = true).
    { rewrite contains_char in Hslash. by destruct (free_of "/" url). }
    assert (Hfx : contains "fx1/collection" url = false).
    { destruct (contains "fx1/collection" url) eqn:E; [|done].
      by apply (contains_free "/") in E. }
    assert (Hfx' : startswith url "fx1/collection/" = false).
    { destruct (startswith url "fx1/collection/") eqn:E; [|done].
      unfold startswith in E. by apply (prefix_free "/") in E. }
    assert (Hs : startswith url "https://" = false).
    { destruct (startswith url "https://") eqn:E; [|done].
      unfold startswith in E. by apply (prefix_free "/") in E. }
    by rewrite Hfx, Hfx', Hs.
Qed.

End DownloadMethod.

Lemma download_method_cases_witness :
  download_method_of "http://example.com/model.safetensors" = UnknownFormat.
Proof.
  apply (proj1 (proj2 (proj2 (download_method_cases
                                "http://example.com/model.safetensors"))));
    reflexivity.
Defined.

(** ** The directory a node is installed into *)

Section RepoName.

Implicit Types (url p s t cur : string) (sep a : ascii).

Lemma rstrip_slashes_slash url :
  rstrip_slashes (String.append url "/") = rstrip_slashes url.
Proof.
  induction url as [|a url IH]; [done|].
  rewrite append_cons. simpl. by rewrite IH.
Qed.

Lemma rstrip_slashes_segment s :
  s <> EmptyString -> free_of "/" s = true -> rstrip_slashes s = s.
Proof.
  induction s as [|a s IH]; [done|]. intros _ [Ha Hs]%andb_true_iff.
  simpl. destruct s as [|b s].
  - simpl. by destruct (Ascii.eqb a "/").
  - rewrite IH by done. done.
Qed.

Lemma rstrip_slashes_append p s :
  s <> EmptyString -> free_of "/" s = true ->
  rstrip_slashes (String.append p s) = String.append p s.
Proof.
  intros Hne Hs. induction p as [|a p IH].
  - by apply rstrip_slashes_segment.
  - rewrite append_cons. simpl. rewrite IH.
    destruct (String.append p s) eqn:E; [|done].
    apply (f_equal String.length) in E. rewrite length_append in E.
    destruct s; [done|]. simpl in E. lia.
Qed.

Lemma split_on_segment sep s : forall cur,
  free_of sep s = true -> split_on sep cur s = [String.append cur s].
Proof.
  induction s as [|a s IH]; intros cur; simpl.
  - by rewrite append_nil_r.
  - intros [Ha Hs]%andb_true_iff. apply negb_true_iff in Ha. rewrite Ha.
    rewrite IH by done. by rewrite append_assoc.
Qed.

Lemma split_on_nonempty sep s : forall cur, split_on sep cur s <> [].
Proof.
  induction s as [|a s IH]; intros cur; simpl; [done|].
  destruct (Ascii.eqb a sep); [done | apply IH].
Qed.

Lemma last_split_on sep p s : forall cur,
  List.last (split_on sep cur (String.append p (String sep s))) EmptyString
  = List.last (split_on sep EmptyString s) EmptyString.
Proof.
  induction p as [|a p IH]; intros cur.
  - change (String.append EmptyString (String sep s)) with (String sep s).
    simpl. rewrite Ascii.eqb_refl.
    pose proof (split_on_nonempty sep s EmptyString) as Hne.
    by destruct (split_on sep EmptyString s).
  - rewrite append_cons. simpl. destruct (Ascii.eqb a sep).
    + pose proof (split_on_nonempty sep (String.append p (String sep s)) EmptyString)
        as Hne.
      rewrite <- (IH EmptyString).
      by destruct (split_on sep EmptyString (String.append p (String sep s))).
    + apply IH.
Qed.

Lemma free_of_append c s t :
  free_of c (String.append s t) = free_of c s && free_of c t.
Proof.
  induction s as [|a s IH]; [done|].
  rewrite append_cons. simpl. by rewrite IH, andb_assoc.
Qed.

Lemma free_of_substring c s : forall n,
  free_of c s = true -> free_of c (String.substring 0 n s) = true.
Proof.
  induction s as [|a s IH]; intros [|n]; simpl; try done.
  intros [Ha Hs]%andb_true_iff. rewrite Ha. simpl. by apply IH.
Qed.

Lemma split_on_free sep s : forall cur,
  free_of sep cur = true ->
  Forall (fun piece => free_of sep piece = true) (split_on sep cur s).
Proof.
  induction s as [|a s IH]; intros cur Hcur; simpl.
  - by constructor.
  - destruct (Ascii.eqb a sep) eqn:E.
    + constructor; [done | by apply IH].
    + apply IH. rewrite free_of_append, Hcur. simpl. by rewrite E.
Qed.

Lemma last_Forall {A} (P : A -> Prop) (l : list A) d :
  P d -> Forall P l -> P (List.last l d).
Proof.
  intros Hd. induction 1 as [|x l Hx Hl IH]; [done|].
  simpl. destruct l; [done | exact IH].
Qed.

(** X20. The directory [install_node] gives a node: the result never
    holds a [/]; trailing slashes of the URL do not matter; and for a last
    path component [s] that is not empty, holds no [/] and does not end in
    [.git], the URLs [<p>/<s>] and [<p>/<s>.git] both give [s], so that the
    two spellings of a repository share one directory. *)
Theorem repo_name_of_url url :
  free_of "/" (repo_name url) = true
  /\ repo_name (String.append url "/") = repo_name url
  /\ (forall p s,
        s <> EmptyString -> free_of "/" s = true -> endswith s ".git" = false ->
        repo_name (String.append p (String "/" s)) = s
        /\ repo_name (String.append p (String "/" (String.append s ".git"))) = s).
Proof.
  split; [|split].
  - unfold repo_name.
    set (r := List.last (split_on "/" EmptyString (rstrip_slashes url)) EmptyString).
    assert (Hr : free_of "/" r = true).
    { apply (last_Forall (fun piece => free_of "/" piece = true)); [done|].
      by apply split_on_free. }
    destruct (endswith r ".git"); [by apply free_of_substring | done].
  - unfold repo_name. by rewrite rstrip_slashes_slash.
  - intros p s Hne Hfree Hgit.
    assert (Hlast : forall t, t <> EmptyString -> free_of "/" t = true ->
              List.last (split_on "/" EmptyString
                           (rstrip_slashes (String.append p (String "/" t))))
                        EmptyString = t).
    { intros t Ht Hft.
      replace (String.append p (String "/" t))
        with (String.append (String.append p "/") t)
        by (by rewrite append_assoc).
      rewrite rstrip_slashes_append by done.
      rewrite append_assoc.
      change (String.append "/" t) with (String "/" t).
      rewrite last_split_on, split_on_segment by done. done. }
    split.
    + unfold repo_name. rewrite (Hlast s Hne Hfree). by rewrite Hgit.
    + unfold repo_name. rewrite (Hlast (String.append s ".git")).
      * rewrite endswith_append.
        change 4 with (String.length ".git").
        rewrite length_append.
        replace (String.length s + String.length ".git" - String.length ".git")
          with (String.length s) by lia.
        apply substring_0_append.
      * intros E. apply (f_equal String.length) in E.
        rewrite length_append in E. simpl in E. lia.
      * by rewrite free_of_append, Hfree.
Qed.

End RepoName.

Lemma repo_name_of_url_witness :
  repo_name "https://github.com/author/ComfyUI-Manager" = "ComfyUI-Manager"
  /\ repo_name "https://github.com/author/ComfyUI-Manager.git" = "ComfyUI-Manager".
Proof.
  apply (proj2 (proj2 (repo_name_of_url EmptyString))
           "https://github.com/author" "ComfyUI-Manager"); by vm_compute.
Defined.

(** ** Model ids given to the HuggingFace downloader *)

Section HuggingFaceIds.

Implicit Types (model_id url s cur : string) (sep : ascii).

Lemma concat_split_on sep s : forall cur,
  String.concat (String sep EmptyString) (split_on sep cur s) = String.append cur s.
Proof.
  induction s as [|a s IH]; intros cur; simpl.
  - by rewrite append_nil_r.
  - destruct (Ascii.eqb a sep) eqn:E.
    + apply Ascii.eqb_eq in E as ->.
      pose proof (split_on_nonempty sep s EmptyString) as Hne.
      specialize (IH EmptyString).
      destruct (split_on sep EmptyString s) as [|piece pieces]; [done|].
      change (String.concat (String sep EmptyString) (cur :: piece :: pieces))
        with (String.append cur
                (String.append (String sep EmptyString)
                   (String.concat (String sep EmptyString) (piece :: pieces)))).
      by rewrite IH.
    + rewrite IH, append_assoc. done.
Qed.

Lemma split_on_two sep s : forall cur,
  free_of sep s = false -> 2 <= length (split_on sep cur s).
Proof.
  induction s as [|a s IH]; intros cur; simpl; [done|].
  destruct (Ascii.eqb a sep); simpl.
  - intros _. pose proof (split_on_nonempty sep s EmptyString) as Hne.
    destruct (split_on sep EmptyString s); [done | simpl; lia].
  - apply IH.
Qed.

(** X21. A URL that [_download_model] hands to the HuggingFace downloader
    has at least two parts, so the branch for an invalid model id is not
    taken for it.  When the downloader goes for a file, the repository id
    and the file path it has cut the id into give the id back when joined
    by [/]; when it searches the repository instead, the id is the
    repository id, possibly followed by one [/]. *)
Theorem huggingface_request_cases model_id :
  (download_method_of model_id = ViaHuggingFace ->
   huggingface_request_of model_id <> InvalidModelID)
  /\ (forall url,
        huggingface_request_of model_id = DownloadFile url ->
        exists repo_id file_path,
          url = String.append "https://huggingface.co/"
                  (String.append repo_id (String.append "/resolve/main/" file_path))
          /\ file_path <> EmptyString
          /\ String.append repo_id (String "/" file_path) = model_id)
  /\ (forall repo_id,
        huggingface_request_of model_id = ProbeRepository repo_id ->
        model_id = repo_id \/ model_id = String.append repo_id "/").
Proof.
  pose proof (concat_split_on "/" model_id EmptyString) as Hjoin.
  change (String.append EmptyString model_id) with model_id in Hjoin.
  split; [|split].
  - intros Hmethod.
    assert (Hslash : contains "/" model_id = true).
    { unfold download_method_of in Hmethod.
      destruct (String.eqb model_id ""); [done|].
      destruct (startswith model_id "civitai:"); [done|].
      destruct (_ || _); [done|].
      destruct (_ || _); [done|].
      by destruct (contains "/" model_id). }
    rewrite contains_char in Hslash. apply negb_true_iff in Hslash.
    pose proof (split_on_two "/" model_id EmptyString Hslash) as Hlen.
    unfold huggingface_request_of.
    destruct (length (split_on "/" EmptyString model_id) <? 2)%nat eqn:E.
    + apply Nat.ltb_lt in E. lia.
    + destruct (Nat.eqb _ 2); [done|].
      by destruct (String.eqb _ "").
  - intros url. unfold huggingface_request_of.
    destruct (split_on "/" EmptyString model_id) as [|p1 [|p2 [|p3 rest]]];
      try done.
    cbn [length Nat.ltb Nat.leb Nat.eqb take drop].
    destruct (String.eqb (String.concat "/" (p3 :: rest)) "") eqn:E; [done|].
    intros [= <-]. eexists _, _. split; [done|].
    split; [by apply String.eqb_neq|].
    rewrite <- Hjoin. cbn [String.concat].
    by rewrite !append_assoc.
  - intros repo_id. unfold huggingface_request_of.
    destruct (split_on "/" EmptyString model_id) as [|p1 [|p2 [|p3 rest]]];
      try done.
    + cbn [length Nat.ltb Nat.leb Nat.eqb]. intros [= <-]. by left.
    + cbn [length Nat.ltb Nat.leb Nat.eqb take drop].
      destruct (String.eqb (String.concat "/" (p3 :: rest)) "") eqn:E; [|done].
      apply String.eqb_eq in E. intros [= <-]. right.
      rewrite <- Hjoin. cbn [String.concat] in E |- *. rewrite E.
      by rewrite !append_assoc.
Qed.

End HuggingFaceIds.

Lemma huggingface_request_cases_witness :
  huggingface_request_of "author/model/weights/model.safetensors" <> InvalidModelID.
Proof.
  apply (proj1 (huggingface_request_cases "author/model/weights/model.safetensors")).
  reflexivity.
Defined.
